(** * UAV swarm controller: control law, PID primitive, agent tick and
      collision pass

    A shallow embedding of [control.h] (namespace [control]) and of
    [simulation.cpp] (namespace [sim]).

    Numbers.  Every [double] of the program is a binary64 value of Rocq's
    primitive floats, with the IEEE-754 operations ([+], [-], [*], [/],
    [sqrt], [<], [<=]) applied one by one in the order the C++ expressions
    evaluate them, rounding to nearest-even after each (no fused
    multiply-add).  Decimal literals denote the nearest binary64 value, as in
    C++.  On a target that evaluates [double] expressions in binary64
    without contraction, the model computes, bit for bit, what the program
    computes.  Only the bound on the magnitude of a clamped force looks
    behind the operations: it reads each binary64 value as the real number
    it stands for and bounds the error of each rounding.

    State.  The C++ functions mutate their arguments through references;
    here each function returns the new values next to its result.

    Threads.  [sim.tick] is one iteration of the body of [UAV::threadFunc];
    the mutex, the worker thread and the 10 ms sleep are not modelled, so
    the development speaks about one agent stepping on its own and about
    one collision pass running on its own. *)

Set Warnings "-inexact-float".
From Stdlib Require Import Reals Lra.
From Stdlib Require Import Floats ZArith Bool Lia.
From stdpp Require Import base list strings.

Local Open Scope float_scope.

(* ================================================================== *)
(** ** namespace control *)
(* ================================================================== *)

Module control.

(** [struct Vec3] *)
Record Vec3 : Type := mkVec3 { x : float; y : float; z : float }.

(** [Vec3::operator+] *)
Definition add (a o : Vec3) : Vec3 :=
  mkVec3 (x a + x o) (y a + y o) (z a + z o).

(** [Vec3::operator-] *)
Definition sub (a o : Vec3) : Vec3 :=
  mkVec3 (x a - x o) (y a - y o) (z a - z o).

(** [Vec3::operator*(double)] *)
Definition scale (a : Vec3) (s : float) : Vec3 :=
  mkVec3 (x a * s) (y a * s) (z a * s).

(** [Vec3::operator/(double)] *)
Definition divide (a : Vec3) (s : float) : Vec3 :=
  mkVec3 (x a / s) (y a / s) (z a / s).

(** [Vec3::dot] *)
Definition dot (a o : Vec3) : float :=
  x a * x o + y a * y o + z a * z o.

(** [Vec3::mag] *)
Definition mag (a : Vec3) : float :=
  sqrt (x a * x a + y a * y a + z a * z a).

(** [Vec3::normalized] *)
Definition normalized (a : Vec3) : Vec3 :=
  let m := mag a in
  if m <? 1e-8 then mkVec3 0 0 0 else divide a m.

(** [distance] *)
Definition distance (a b : Vec3) : float := mag (sub a b).

(** [std::clamp(v, lo, hi)], as the C++ standard specifies its result:
    [lo] if [v < lo], [hi] if [hi < v], otherwise [v]. *)
Definition clamp (v lo hi : float) : float :=
  if v <? lo then lo else if hi <? v then hi else v.

(** [class PIDController]: the seven private members. *)
Record PIDController : Type := mkPID {
  kp : float;
  ki : float;
  kd : float;
  integral : float;
  prev_error : float;
  integral_limit : float;
  output_limit : float
}.

(** The constructor: [integral] and [prev_error] start at [0.0]. *)
Definition PIDController_ctor (kp_ ki_ kd_ integral_limit_ output_limit_ : float)
  : PIDController :=
  mkPID kp_ ki_ kd_ 0 0 integral_limit_ output_limit_.

(** The constructor with all its default arguments. *)
Definition PIDController_default : PIDController :=
  PIDController_ctor 0 0 0 100.0 100.0.

(** [PIDController::setGains] *)
Definition setGains (c : PIDController) (p i d : float) : PIDController :=
  mkPID p i d (integral c) (prev_error c) (integral_limit c) (output_limit c).

(** [PIDController::calculate]: the returned value and the controller
    after the call. *)
Definition calculate (c : PIDController) (error dt : float)
  : float * PIDController :=
  if dt <=? 0 then (0, c)
  else
    let p_term := kp c * error in
    let integral1 := integral c + error * dt in
    let integral2 := clamp integral1 (- integral_limit c) (integral_limit c) in
    let i_term := ki c * integral2 in
    let derivative := (error - prev_error c) / dt in
    let d_term := kd c * derivative in
    let out := p_term + i_term + d_term in
    let out := clamp out (- output_limit c) (output_limit c) in
    (out, mkPID (kp c) (ki c) (kd c) integral2 error
                (integral_limit c) (output_limit c)).

(** [PIDController::reset] *)
Definition reset (c : PIDController) : PIDController :=
  mkPID (kp c) (ki c) (kd c) 0 0 (integral_limit c) (output_limit c).

(** [enum class Phase] *)
Inductive Phase : Type := GroundWait | ClimbToCenter | OnSphere.

Definition Phase_eqb (p q : Phase) : bool :=
  match p, q with
  | GroundWait, GroundWait => true
  | ClimbToCenter, ClimbToCenter => true
  | OnSphere, OnSphere => true
  | _, _ => false
  end.

(** [phaseToString]; its [default] branch is for values outside the
    enumeration, which [Phase] does not have. *)
Definition phaseToString (p : Phase) : string :=
  match p with
  | GroundWait => "GroundWait"
  | ClimbToCenter => "ClimbToCenter"
  | OnSphere => "OnSphere"
  end.

(** [struct ControlConfig] *)
Record ControlConfig : Type := mkControlConfig {
  center : Vec3;
  sphereRadius : float;
  groundWait : float;
  maxForce : float;
  minSpeed : float;
  maxSpeed : float
}.

(** The default member initialisers of [ControlConfig]. *)
Definition ControlConfig_default : ControlConfig :=
  mkControlConfig (mkVec3 0.0 0.0 50.0) 10.0 5.0 20.0 2.0 10.0.

(** [struct ControlState] *)
Record ControlState : Type := mkControlState {
  phase : Phase;
  timeInPhase : float;
  visitedCenter : bool;
  tangentialDir : Vec3
}.

(** The default member initialisers of [ControlState]. *)
Definition ControlState_default : ControlState :=
  mkControlState GroundWait 0.0 false (mkVec3 1 0 0).

(** [struct ControlPIDs] *)
Record ControlPIDs : Type := mkControlPIDs {
  radialPID : PIDController;
  speedPID : PIDController
}.

(** [clampMagnitude] *)
Definition clampMagnitude (v : Vec3) (maxMag : float) : Vec3 :=
  let m := mag v in
  if (m <=? maxMag) || (m <? 1e-8) then v
  else scale v (maxMag / m).

(** *** [computeControlForce], block by block

    The function body is three consecutive blocks after the opening
    [state.timeInPhase += dt]: the [GroundWait] block (which may return
    early), the [ClimbToCenter] arrival block, and the force computation.
    Each block is one definition here. *)

(** [state.timeInPhase += dt;] *)
Definition advanceTime (state : ControlState) (dt : float) : ControlState :=
  mkControlState (phase state) (timeInPhase state + dt)
                 (visitedCenter state) (tangentialDir state).

(** The [if (state.phase == Phase::GroundWait)] block.  [None] is the early
    [return Vec3(0, 0, 0)]; [Some s] is the state with which the function
    goes on. *)
Definition groundWaitBlock (state : ControlState) (cfg : ControlConfig)
  : option ControlState :=
  if Phase_eqb (phase state) GroundWait then
    if groundWait cfg <=? timeInPhase state then
      Some (mkControlState ClimbToCenter 0.0
                           (visitedCenter state) (tangentialDir state))
    else None
  else Some state.

(** The first [if (state.phase == Phase::ClimbToCenter)] block: the
    arrival test. *)
Definition arrivalBlock (pos : Vec3) (state : ControlState)
    (pids : ControlPIDs) (cfg : ControlConfig)
  : ControlState * ControlPIDs :=
  if Phase_eqb (phase state) ClimbToCenter then
    let dCenter := distance pos (center cfg) in
    if dCenter <? 2.0 then
      (mkControlState OnSphere 0.0 true (tangentialDir state),
       mkControlPIDs (reset (radialPID pids)) (reset (speedPID pids)))
    else (state, pids)
  else (state, pids).

(** The rest of the body, from [// Shared geometry] to the end.  The last
    step of both branches is [clampMagnitude(..., cfg.maxForce)]; it is the
    parameter [clampF], so that the force before the clamp can be named. *)
Definition forceBlock (clampF : Vec3 -> float -> Vec3)
    (pos vel : Vec3) (state : ControlState) (pids : ControlPIDs)
    (cfg : ControlConfig) (dt : float)
  : Vec3 * ControlState * ControlPIDs :=
  let toCenter := sub (center cfg) pos in
  let r := mag toCenter in
  let radialDir := normalized toCenter in
  if Phase_eqb (phase state) ClimbToCenter then
    let radialError := r in
    let '(radialAccel, radialPID') := calculate (radialPID pids) radialError dt in
    let force := scale radialDir radialAccel in
    let speed := mag vel in
    let force :=
      if 2.0 <? speed
      then sub force (scale (normalized vel) (0.5 * (speed - 2.0)))
      else force in
    (clampF force (maxForce cfg), state,
     mkControlPIDs radialPID' (speedPID pids))
  else
    let radialError := r - sphereRadius cfg in
    let '(radialOut, radialPID') := calculate (radialPID pids) radialError dt in
    let radialForce := scale radialDir (- radialOut) in
    let worldUp := mkVec3 0 0 1 in
    let tangent :=
      mkVec3 (y radialDir * z worldUp - z radialDir * y worldUp)
             (z radialDir * x worldUp - x radialDir * z worldUp)
             (x radialDir * y worldUp - y radialDir * x worldUp) in
    let tangent := if mag tangent <? 1e-3 then mkVec3 1 0 0 else tangent in
    let tangent := normalized tangent in
    let state := mkControlState (phase state) (timeInPhase state)
                                (visitedCenter state) tangent in
    let speed := mag vel in
    let targetSpeed := 0.5 * (minSpeed cfg + maxSpeed cfg) in
    let speedError := targetSpeed - speed in
    let '(speedOut, speedPID') := calculate (speedPID pids) speedError dt in
    let tangentialForce := scale tangent speedOut in
    let totalForce := add radialForce tangentialForce in
    (clampF totalForce (maxForce cfg), state,
     mkControlPIDs radialPID' speedPID').

(** The whole body, with the final clamp as a parameter. *)
Definition computeControlForce_with (clampF : Vec3 -> float -> Vec3)
    (pos vel : Vec3) (state : ControlState) (pids : ControlPIDs)
    (cfg : ControlConfig) (dt : float)
  : Vec3 * ControlState * ControlPIDs :=
  let state := advanceTime state dt in
  match groundWaitBlock state cfg with
  | None => (mkVec3 0 0 0, state, pids)
  | Some state =>
      let '(state, pids) := arrivalBlock pos state pids cfg in
      forceBlock clampF pos vel state pids cfg dt
  end.

(** [computeControlForce]: the returned force, and [state] and [pids]
    after the call. *)
Definition computeControlForce :=
  computeControlForce_with clampMagnitude.

(** The force a call hands to its final [clampMagnitude]: the same body
    with the clamp left out. *)
Definition unclampedForce
    (pos vel : Vec3) (state : ControlState) (pids : ControlPIDs)
    (cfg : ControlConfig) (dt : float) : Vec3 :=
  (computeControlForce_with (fun v _ => v) pos vel state pids cfg dt).1.1.

End control.

(* ================================================================== *)
(** ** namespace sim *)
(* ================================================================== *)

Module sim.
Import control.

(** [constexpr double g = 10.0;] and [constexpr double mass = 1.0;] *)
Definition g : float := 10.0.
Definition mass : float := 1.0.

(** [struct UAV::Snapshot] *)
Record Snapshot : Type := mkSnapshot { pos : Vec3; vel : Vec3; acc : Vec3 }.

(** [class UAV]: the data members an agent computes with.  The mutex, the
    worker thread and the [running] flag belong to the threading that is
    not modelled. *)
Record UAV : Type := mkUAV {
  position : Vec3;
  velocity : Vec3;
  acceleration : Vec3;
  cfg : ControlConfig;
  ctrlState : ControlState;
  pids : ControlPIDs;
  lastPrintedPhase : Phase;
  printTimer : float
}.

(** [UAV::UAV(startPos, cfg_)], with the default PID gains it installs. *)
Definition UAV_ctor (startPos : Vec3) (cfg_ : ControlConfig) : UAV :=
  mkUAV startPos (mkVec3 0 0 0) (mkVec3 0 0 0) cfg_
        ControlState_default
        (mkControlPIDs (PIDController_ctor 5 1.0 0.5 100.0 20.0)
                       (PIDController_ctor 0.8 0.0 10.0 100.0 10.0))
        GroundWait 0.0.

(** [UAV::getSnapshot] *)
Definition getSnapshot (u : UAV) : Snapshot :=
  mkSnapshot (position u) (velocity u) (acceleration u).

(** [UAV::setVelocity] *)
Definition setVelocity (v : Vec3) (u : UAV) : UAV :=
  mkUAV (position u) v (acceleration u) (cfg u) (ctrlState u) (pids u)
        (lastPrintedPhase u) (printTimer u).

(** One iteration of the [while] loop of [UAV::threadFunc]. *)
Definition tick (u : UAV) : UAV :=
  let dt := 0.01 in
  (* 1) read current state *)
  let lpos := position u in
  let lvel := velocity u in
  (* 2) control *)
  let '(motorForce, ctrlState', pids') :=
    computeControlForce lpos lvel (ctrlState u) (pids u) (cfg u) dt in
  (* 3) physics *)
  let accel := add (divide motorForce mass) (mkVec3 0 0 (- g)) in
  (* 4) integrate *)
  let lvel := add lvel (scale accel dt) in
  let lpos := add lpos (scale lvel dt) in
  (* ground contact *)
  let '(lpos, lvel) :=
    if z lpos <? 0.0 then
      (mkVec3 (x lpos) (y lpos) 0.0,
       if z lvel <? 0.0 then mkVec3 (x lvel) (y lvel) 0.0 else lvel)
    else (lpos, lvel) in
  (* 5) climb-phase speed limit and write back *)
  let lvel :=
    if Phase_eqb (phase ctrlState') ClimbToCenter then
      let speed := mag lvel in
      let maxClimbSpeed := 2.0 in
      if (maxClimbSpeed <? speed) && (1e-6 <? speed)
      then scale lvel (maxClimbSpeed / speed)
      else lvel
    else lvel in
  mkUAV lpos lvel accel (cfg u) ctrlState' pids'
        (lastPrintedPhase u) (printTimer u).

(** [n] iterations of the loop. *)
Fixpoint run_ticks (n : nat) (u : UAV) : UAV :=
  match n with
  | O => u
  | S n' => run_ticks n' (tick u)
  end.

Global Instance Snapshot_inhabited : Inhabited Snapshot :=
  populate (mkSnapshot (mkVec3 0 0 0) (mkVec3 0 0 0) (mkVec3 0 0 0)).

(** The body of the [if (d < minDist)] of the inner loop, for one pair
    [(i, j)]: both writes take their value from [snaps]. *)
Definition resolvePair (snaps : list Snapshot) (minDist : float)
    (i j : nat) (uavs : list UAV) : list UAV :=
  let d := distance (pos (snaps !!! i)) (pos (snaps !!! j)) in
  if d <? minDist then
    alter (setVelocity (vel (snaps !!! i))) j
      (alter (setVelocity (vel (snaps !!! j))) i uavs)
  else uavs.

(** [for (size_t j = i+1; j < n; ++j)] *)
Definition innerLoop (snaps : list Snapshot) (minDist : float)
    (n i : nat) (uavs : list UAV) : list UAV :=
  foldl (fun us j => resolvePair snaps minDist i j us) uavs
        (seq (S i) (n - S i)).

(** [checkAndResolveCollisions]: the vector of agents after the pass. *)
Definition checkAndResolveCollisions (uavs : list UAV) (minDist : float)
  : list UAV :=
  let n := length uavs in
  if (n <? 2)%nat then uavs
  else
    let snaps := getSnapshot <$> uavs in
    foldl (fun us i => innerLoop snaps minDist n i us) uavs (seq 0 n).

End sim.

(* ================================================================== *)
(** ** The OBJ loader of the viewer *)
(* ================================================================== *)

(** [loadOBJ] of the viewer's main file, after the lexing of each line.
    What the stream extractions read is the input here: a line is a
    vertex, a texture coordinate, a face with its tokens, or anything
    else.  The two fields of a face token are kept as the texts
    [std::stoi] is given, and [stoi] below reads them or throws; an
    exception is caught nowhere, so it leaves [loadOBJ], and every
    function from the token loop upward returns an [option], [None] for
    the exception.  Coordinates are single-precision values that the
    loader only stores and copies (the passage through the [double]
    fields of [control::Vec3] and back is exact), so their type is a
    parameter.  Indices are the [int] and [unsigned int] values of the
    code, as integers, and [static_cast<int>] of a vector size wraps
    around as the conversion does. *)
Module viewer.

Section Loader.

Variable coord : Type.

(** [0.0f] *)
Variable zero : coord.

(** An entry of [positions]. *)
Record Point : Type := mkPoint { px : coord; py : coord; pz : coord }.

(** The local [struct Vec2], an entry of [texcoords]. *)
Record Vec2 : Type := mkVec2 { tu : coord; tv : coord }.

(** [struct ObjVertex] *)
Record ObjVertex : Type :=
  mkObjVertex { x : coord; y : coord; z : coord; u : coord; v : coord }.

(** [struct ObjModel] *)
Record ObjModel : Type := mkObjModel { tris : list ObjVertex; loaded : bool }.

(** A text handed to [std::stoi]: it starts with the decimal integer [n]
    (of any size), or with no number at all. *)
Inductive NumText : Type :=
  | NoNumber
  | Number (n : Z).

(** The least and the greatest [int]. *)
Definition INT_MIN : Z := -2147483648.
Definition INT_MAX : Z := 2147483647.

(** [std::stoi]: the [int] read, or [None] when it throws
    ([std::invalid_argument] without a number, [std::out_of_range] for a
    number that is no [int]). *)
Definition stoi (t : NumText) : option Z :=
  match t with
  | NoNumber => None
  | Number n => if (INT_MIN <=? n)%Z && (n <=? INT_MAX)%Z then Some n else None
  end.

(** [static_cast<int>] of a vector size: the value modulo [2^32], as an
    [int]. *)
Definition to_int (size : nat) : Z :=
  ((Z.of_nat size + 2147483648) mod 4294967296 - 2147483648)%Z.

(** One whitespace-separated token of a face line: [RefEmpty] when the
    text before the first ['/'] is empty; otherwise that text, [idxStr],
    and the text between the first and the second ['/'], [vtStr], [None]
    when it is empty or absent. *)
Inductive FaceRef : Type :=
  | RefEmpty
  | Ref (idxStr : NumText) (vtStr : option NumText).

(** One line of the file: ["v"] with its three numbers read, ["vt"] with
    its two numbers read, ["f"] with its tokens, or a line the loop skips
    (another keyword, or numbers that fail to read). *)
Inductive ObjLine : Type :=
  | LineV (x y z : coord)
  | LineVT (u v : coord)
  | LineF (refs : list FaceRef)
  | LineOther.

(** [static_cast<unsigned int>(-1)], the mark of an invalid texture
    index. *)
Definition noIndex : Z := 4294967295.

(** The zero-based index of a signed reference into a vector of [size]
    entries: [signed - 1] when positive, [(int)size + signed] otherwise
    ([-1] is the last entry).  The sum is the sum of the two integers: it
    is an [int], so that the addition of the code cannot overflow,
    whenever [size] fits an [int], which the facts about the loader
    assume. *)
Definition zeroBased (signed : Z) (size : nat) : Z :=
  if (0 <? signed)%Z then (signed - 1)%Z else (to_int size + signed)%Z.

(** [i < 0 || i >= (int)size] *)
Definition outOfRange (i : Z) (size : nat) : bool :=
  (i <? 0)%Z || (to_int size <=? i)%Z.

(** The [if (!vtStr.empty()) ... else ...] of the token body: the value
    pushed to [texIdx], or the exception of [std::stoi]. *)
Definition texRef (ntex : nat) (vtStr : option NumText) : option Z :=
  match vtStr with
  | Some vtStr =>
      match stoi vtStr with
      | None => None
      | Some vtSigned =>
          let vtZero := zeroBased vtSigned ntex in
          if outOfRange vtZero ntex then Some noIndex else Some vtZero
      end
  | None => Some noIndex
  end.

(** The body of [while (iss >> vstr)] for one token: [posIdx] and [texIdx]
    after it, or the exception of a [std::stoi].  [npos] and [ntex] are the
    sizes of [positions] and [texcoords] when the face line is read.  The
    texture text is read only for a token whose position index is
    accepted. *)
Definition faceRef (npos ntex : nat) (idx : list Z * list Z) (r : FaceRef)
  : option (list Z * list Z) :=
  match r with
  | RefEmpty => Some idx
  | Ref idxStr vtStr =>
      match stoi idxStr with
      | None => None
      | Some vIdxSigned =>
          let posZero := zeroBased vIdxSigned npos in
          if outOfRange posZero npos then Some idx
          else
            match texRef ntex vtStr with
            | None => None
            | Some t => Some (idx.1 ++ [posZero], idx.2 ++ [t])
            end
      end
  end.

(** The whole [while (iss >> vstr)] loop; an exception ends it. *)
Definition faceRefs (npos ntex : nat) (refs : list FaceRef)
  : option (list Z * list Z) :=
  foldl (fun acc r => idx ← acc; faceRef npos ntex idx r)
        (Some ([], [])) refs.

(** What the loop keeps true of [posIdx] and [texIdx]: they have the
    same length, every position index is within [positions], and every
    texture index is within [texcoords] or is the invalid mark. *)
Definition indicesValid (npos ntex : nat) (idx : list Z * list Z) : Prop :=
  length idx.1 = length idx.2
  /\ Forall (fun i => (0 <= i < Z.of_nat npos)%Z) idx.1
  /\ Forall (fun i => i = noIndex \/ (0 <= i < Z.of_nat ntex)%Z) idx.2.

(** A token whose texts [std::stoi] can read. *)
Definition readableRef (r : FaceRef) : Prop :=
  match r with
  | RefEmpty => True
  | Ref idxStr vtStr =>
      is_Some (stoi idxStr)
      /\ match vtStr with Some t => is_Some (stoi t) | None => True end
  end.

(** A line all of whose tokens can be read. *)
Definition readableLine (line : ObjLine) : Prop :=
  match line with
  | LineF refs => Forall readableRef refs
  | _ => True
  end.

(** The position a loaded vertex carries. *)
Definition vertexPoint (vtx : ObjVertex) : Point :=
  mkPoint (x vtx) (y vtx) (z vtx).

(** The body of [for (int k = 0; k < 3; ++k)]: the vertex pushed for the
    face corner [fi]. *)
Definition corner (positions : list Point) (texcoords : list Vec2)
    (posIdx texIdx : list Z) (fi : nat) : ObjVertex :=
  let pIndex := default 0%Z (posIdx !! fi) in
  let p := default (mkPoint zero zero zero) (positions !! Z.to_nat pIndex) in
  let uv :=
    if (length texIdx =? length posIdx)%nat then
      let tIndex := default 0%Z (texIdx !! fi) in
      if negb (tIndex =? noIndex)%Z
         && (tIndex <? Z.of_nat (length texcoords))%Z
      then
        let t := default (mkVec2 zero zero) (texcoords !! Z.to_nat tIndex) in
        (tu t, tv t)
      else (zero, zero)
    else (zero, zero) in
  mkObjVertex (px p) (py p) (pz p) uv.1 uv.2.

(** The triangle fan of one face: [if (posIdx.size() >= 3)] and its
    [for (size_t i = 1; i + 1 < posIdx.size(); ++i)], the vertices in the
    order they are pushed. *)
Definition fan (positions : list Point) (texcoords : list Vec2)
    (posIdx texIdx : list Z) : list ObjVertex :=
  if (3 <=? length posIdx)%nat then
    i ← seq 1 (length posIdx - 2);
    corner positions texcoords posIdx texIdx <$> [0; i; i + 1]%nat
  else [].

(** The three vectors the loop over the lines fills. *)
Record Loading : Type := mkLoading {
  positions : list Point;
  texcoords : list Vec2;
  loadedTris : list ObjVertex
}.

(** The body of [while (std::getline(in, line))] for one line, or the
    exception of its token loop. *)
Definition loadLine (s : Loading) (line : ObjLine) : option Loading :=
  match line with
  | LineV x y z =>
      Some (mkLoading (positions s ++ [mkPoint x y z]) (texcoords s)
                      (loadedTris s))
  | LineVT u v =>
      Some (mkLoading (positions s) (texcoords s ++ [mkVec2 u v])
                      (loadedTris s))
  | LineF refs =>
      idx ← faceRefs (length (positions s)) (length (texcoords s)) refs;
      Some (mkLoading (positions s) (texcoords s)
              (loadedTris s ++ fan (positions s) (texcoords s) idx.1 idx.2))
  | LineOther => Some s
  end.

(** The loop over the lines of the file; an exception ends it. *)
Definition loadLines (lines : list ObjLine) : option Loading :=
  foldl (fun acc line => s ← acc; loadLine s line)
        (Some (mkLoading [] [] [])) lines.

(** [loadOBJ]: the returned flag and [model] after the call, or [None]
    when an exception leaves the function.  The argument [None] is a file
    that cannot be opened. *)
Definition loadOBJ (file : option (list ObjLine)) (model : ObjModel)
  : option (bool * ObjModel) :=
  match file with
  | None => Some (false, model)
  | Some lines =>
      s ← loadLines lines;
      match positions s, loadedTris s with
      | [], _ | _, [] => Some (false, model)
      | _, _ => Some (true, mkObjModel (loadedTris s) true)
      end
  end.

End Loader.

Arguments mkPoint {coord}.
Arguments px {coord}.
Arguments py {coord}.
Arguments pz {coord}.
Arguments mkObjVertex {coord}.
Arguments x {coord}.
Arguments y {coord}.
Arguments z {coord}.
Arguments u {coord}.
Arguments v {coord}.
Arguments mkObjModel {coord}.
Arguments tris {coord}.
Arguments loaded {coord}.
Arguments LineV {coord}.
Arguments LineVT {coord}.
Arguments LineF {coord}.
Arguments LineOther {coord}.
Arguments positions {coord}.
Arguments texcoords {coord}.
Arguments loadedTris {coord}.
Arguments mkLoading {coord}.
Arguments readableLine {coord}.
Arguments vertexPoint {coord}.
Arguments corner {coord}.
Arguments fan {coord}.
Arguments loadLine {coord}.
Arguments loadLines {coord}.
Arguments loadOBJ {coord}.

End viewer.

(* ================================================================== *)
(** ** The scale tool *)
(* ================================================================== *)

(** The stand-alone program that fits a model into a 0.19 m cube (the
    second [main], with its own [struct Vec3]), after the lexing of each
    line: a line is a ["v"] line with its three numbers read, or a line
    the loop skips. *)
Module scaletool.

(** [struct Vec3] *)
Record Vec3 : Type := mkVec3 { x : float; y : float; z : float }.

(** One line of the file. *)
Inductive Line : Type :=
  | LineV (x y z : float)
  | LineOther.

(** [std::numeric_limits<double>::max()] *)
Definition double_max : float := 0x1.fffffffffffffp+1023.

(** [std::numeric_limits<double>::lowest()] *)
Definition double_lowest : float := - double_max.

(** [std::min(a, b)]: [b] if [b < a], otherwise [a]. *)
Definition min (a b : float) : float := if b <? a then b else a.

(** [std::max(a, b)]: [b] if [a < b], otherwise [a]. *)
Definition max (a b : float) : float := if a <? b then b else a.

(** [std::max({a, b, c})]: the first largest element. *)
Definition max3 (a b c : float) : float :=
  let largest := a in
  let largest := if largest <? b then b else largest in
  if largest <? c then c else largest.

(** The variables the loop over the lines updates. *)
Record Scan : Type := mkScan {
  hasVertex : bool;
  bbMin : Vec3;
  bbMax : Vec3
}.

(** Their values before the loop. *)
Definition Scan_init : Scan :=
  mkScan false
         (mkVec3 double_max double_max double_max)
         (mkVec3 double_lowest double_lowest double_lowest).

(** The body of [while (std::getline(in, line))] for one line. *)
Definition scanLine (s : Scan) (line : Line) : Scan :=
  match line with
  | LineV x_ y_ z_ =>
      mkScan true
             (mkVec3 (min (x (bbMin s)) x_) (min (y (bbMin s)) y_)
                     (min (z (bbMin s)) z_))
             (mkVec3 (max (x (bbMax s)) x_) (max (y (bbMax s)) y_)
                     (max (z (bbMax s)) z_))
  | LineOther => s
  end.

(** The loop over the lines. *)
Definition scan (lines : list Line) : Scan := foldl scanLine Scan_init lines.

(** [main]: the exit status and, when it is 0, the scale and the center
    the program prints.  [argc] counts the program name; [file] is the
    content of the file named by [argv[1]], [None] when it cannot be
    opened. *)
Definition main (argc : nat) (file : option (list Line))
  : Z * option (float * Vec3) :=
  if (argc <? 2)%nat then (1%Z, None)
  else
    match file with
    | None => (1%Z, None)
    | Some lines =>
        let s := scan lines in
        if negb (hasVertex s) then (1%Z, None)
        else
          let dx := x (bbMax s) - x (bbMin s) in
          let dy := y (bbMax s) - y (bbMin s) in
          let dz := z (bbMax s) - z (bbMin s) in
          let maxDim := max3 dx dy dz in
          if maxDim <=? 0.0 then (1%Z, None)
          else
            let targetSize := 0.19 in
            let scale := targetSize / maxDim in
            let center :=
              mkVec3 (0.5 * (x (bbMin s) + x (bbMax s)))
                     (0.5 * (y (bbMin s) + y (bbMax s)))
                     (0.5 * (z (bbMin s) + z (bbMax s))) in
            (0%Z, Some (scale, center))
    end.

End scaletool.

(* ================================================================== *)
(** ** Call sequences and the vocabulary of the properties *)
(* ================================================================== *)

Import control sim.

(** [v] lies within [[-limit, +limit]]. *)
Definition within (v limit : float) : bool :=
  (- limit <=? v) && (v <=? limit).

(** [v] lies within [[-limit, +limit]], or is not a number. *)
Definition within_or_nan (v limit : float) : bool :=
  is_nan v || within v limit.

(** One call on a [PIDController]. *)
Inductive PIDCall : Type :=
  | CallCalculate (error dt : float)
  | CallReset
  | CallSetGains (p i d : float).

(** The value a call returns, if it returns one, and the controller after
    the call. *)
Definition pidCall (c : PIDController) (k : PIDCall)
  : option float * PIDController :=
  match k with
  | CallCalculate error dt =>
      let '(out, c') := calculate c error dt in (Some out, c')
  | CallReset => (None, reset c)
  | CallSetGains p i d => (None, setGains c p i d)
  end.

(** The results of a sequence of calls, one entry per call. *)
Fixpoint pidTrace (c : PIDController) (ks : list PIDCall)
  : list (option float * PIDController) :=
  match ks with
  | [] => []
  | k :: ks' => let r := pidCall c k in r :: pidTrace r.2 ks'
  end.

(** What the bound of the PID says of the result of one call: the
    accumulator and the returned value, each judged by [ok]. *)
Definition pidCallBounded (ok : float -> float -> bool)
    (r : option float * PIDController) : bool :=
  ok (integral r.2) (integral_limit r.2)
  && match r.1 with
     | Some out => ok out (output_limit r.2)
     | None => true
     end.

(** The arguments of one call of [computeControlForce] that come from the
    agent: position, velocity and time step. *)
Record ControlInput : Type :=
  mkControlInput { in_pos : Vec3; in_vel : Vec3; in_dt : float }.

(** The results of a sequence of calls of [computeControlForce] that share
    one [state], one [pids] and one [cfg], one entry per call. *)
Fixpoint controlTrace (cfg : ControlConfig) (state : ControlState)
    (pids : ControlPIDs) (ins : list ControlInput)
  : list (Vec3 * ControlState * ControlPIDs) :=
  match ins with
  | [] => []
  | i :: ins' =>
      let r := computeControlForce (in_pos i) (in_vel i) state pids cfg
                                   (in_dt i) in
      r :: controlTrace cfg r.1.2 r.2 ins'
  end.

(** The phases observed along a trace, the starting one first. *)
Definition observedPhases (state : ControlState)
    (tr : list (Vec3 * ControlState * ControlPIDs)) : list Phase :=
  phase state :: ((fun r => phase r.1.2) <$> tr).

(** The order of the phases. *)
Definition phaseRank (p : Phase) : nat :=
  match p with
  | GroundWait => 0
  | ClimbToCenter => 1
  | OnSphere => 2
  end.

(** No step of a list of phases moves backward. *)
Fixpoint neverBackward (ps : list Phase) : Prop :=
  match ps with
  | p :: (q :: _) as rest => phaseRank p <= phaseRank q /\ neverBackward rest
  | _ => True
  end.

(** Every time step of [dts], added in turn to [t], leaves the sum below
    [limit]. *)
Fixpoint staysBelow (t limit : float) (dts : list float) : bool :=
  match dts with
  | [] => true
  | dt :: dts' => (t + dt <? limit) && staysBelow (t + dt) limit dts'
  end.

(** [t] after the time steps [dts] have been added to it one by one. *)
Definition timeAfter (t : float) (dts : list float) : float :=
  foldl (fun a dt => a + dt) t dts.

(** The test of the inner loop on the pair [(i, j)]. *)
Definition collides (snaps : list Snapshot) (minDist : float)
    (p : nat * nat) : bool :=
  distance (pos (snaps !!! p.1)) (pos (snaps !!! p.2)) <? minDist.

(** The pairs [(i, j)], [i < j < n], in the order the two loops visit
    them. *)
Definition pairsInOrder (n : nat) : list (nat * nat) :=
  i ← seq 0 n; (fun j => (i, j)) <$> seq (S i) (n - S i).

(** The pairs that pass the test, in that order. *)
Definition collidingPairs (uavs : list UAV) (minDist : float)
  : list (nat * nat) :=
  filter (fun p => collides (getSnapshot <$> uavs) minDist p)
         (pairsInOrder (length uavs)).

(** The other member of the pair [p], if [k] is one of the two. *)
Definition partnerIn (k : nat) (p : nat * nat) : option nat :=
  if (p.1 =? k)%nat then Some p.2
  else if (p.2 =? k)%nat then Some p.1
  else None.

(** The partner of agent [k] in the last colliding pair that has [k] in
    it, in iteration order. *)
Definition lastPartner (uavs : list UAV) (minDist : float) (k : nat)
  : option nat :=
  last (omap (partnerIn k) (collidingPairs uavs minDist)).

(** A specification float that is a number and not negative: [+0], [-0],
    a positive finite value or [+infinity]. *)
Definition SFnonneg (f : spec_float) : Prop :=
  SFleb (S754_zero false) f = true.

(** A number of the specification, as a triple ordered lexicographically:
    the class and sign first, then exponent and mantissa. *)
Definition SFkey (f : spec_float) : Z * Z * Z :=
  match f with
  | S754_zero _ => (0, 0, 0)%Z
  | S754_infinity false => (2, 0, 0)%Z
  | S754_infinity true => (-2, 0, 0)%Z
  | S754_finite false m e => (1, e, Z.pos m)%Z
  | S754_finite true m e => (-1, - e, Z.neg m)%Z
  | S754_nan => (0, 0, 0)%Z
  end.

(** The lexicographic order of the triples. *)
Definition SFkeyLe (k1 k2 : Z * Z * Z) : Prop :=
  (k1.1.1 < k2.1.1
   \/ (k1.1.1 = k2.1.1
       /\ (k1.1.2 < k2.1.2 \/ (k1.1.2 = k2.1.2 /\ k1.2 <= k2.2))))%Z.

(** [v], when it is a number, lies between [lo] and [hi]. *)
Definition inBox (lo hi v : float) : Prop :=
  is_nan v = false -> (lo <=? v) = true /\ (v <=? hi) = true.

(** *** Binary64 values as real numbers

    The bound on the magnitude of a clamped force needs the exact value of
    each binary64 number and the error of each rounding. *)

(** [2^e] as a real number. *)
Definition bpow (e : Z) : R := powerRZ 2 e.

(** The real number a binary64 value stands for; zero for the values that
    stand for none (infinities and NaN). *)
Definition SF2R (f : spec_float) : R :=
  match f with
  | S754_finite s m e =>
      if s then (- (IZR (Zpos m) * bpow e))%R else (IZR (Zpos m) * bpow e)%R
  | _ => 0%R
  end.

Definition F2R (x : float) : R := SF2R (Prim2SF x).

(** A zero or a finite number: neither an infinity nor NaN. *)
Definition SFfinite (f : spec_float) : bool :=
  match f with
  | S754_zero _ | S754_finite _ _ _ => true
  | _ => false
  end.

Definition finite (x : float) : bool := SFfinite (Prim2SF x).

(** The real number [x] lies in the interval that the shifted mantissa with
    its round and sticky bits describes at exponent [e]. *)
Definition inb (mrs : shr_record) (e : Z) (x : R) : Prop :=
  (0 <= shr_m mrs)%Z
  /\ (IZR (shr_m mrs) * bpow e <= x < (IZR (shr_m mrs) + 1) * bpow e)%R
  /\ (shr_r mrs = false -> shr_s mrs = false ->
      x = (IZR (shr_m mrs) * bpow e)%R).

(** The same for a mantissa with a location. *)
Definition loc_ok (m e : Z) (l : location) (x : R) : Prop :=
  match l with
  | loc_Exact => x = (IZR m * bpow e)%R
  | loc_Inexact _ => (IZR m * bpow e < x < (IZR m + 1) * bpow e)%R
  end.

(** The relative and the absolute error of one rounding. *)
Definition ulp52 : R := bpow (-52).
Definition eta : R := bpow (-1074).

(** What [binary_round_aux] builds from the rounded mantissa and its
    exponent. *)
Definition roundResult (sx : bool) (m e : Z) : spec_float :=
  match m with
  | Z0 => S754_zero sx
  | Zpos p => if (e <=? 971)%Z then S754_finite sx p e else S754_infinity sx
  | Zneg _ => S754_nan
  end.

(** The sign bit of a value (false for NaN). *)
Definition SFsign (f : spec_float) : bool :=
  match f with
  | S754_zero s | S754_infinity s | S754_finite s _ _ => s
  | S754_nan => false
  end.

(** A zero of either sign or a positive finite number. *)
Definition SFnonneg_finite (f : spec_float) : bool :=
  match f with
  | S754_zero _ | S754_finite false _ _ => true
  | _ => false
  end.

(** The value [r] is a rounding, with sign [s], of the real number [X]
    that is not negative: its magnitude is within [2^-52 * X + 2^-1074] of
    [X], and it is an infinity only if [X] is [2^1023] or more. *)
Definition rounds (s : bool) (X : R) (r : spec_float) : Prop :=
  exists m e,
    r = roundResult s m e
    /\ (0 <= m)%Z
    /\ (Rabs (IZR m * bpow e - X) <= ulp52 * X + eta)%R
    /\ ((X < bpow 1023)%R -> (e <= 971)%Z).

(** A zero, a finite number or an infinity with the sign bit clear. *)
Definition SFpos (f : spec_float) : bool :=
  match f with
  | S754_zero false | S754_finite false _ _ | S754_infinity false => true
  | _ => false
  end.

(** [n] is a value of the type [int]. *)
Definition inInt (n : Z) : bool :=
  ((-2147483648 <=? n) && (n <=? 2147483647))%Z.

(** The entry that the signed reference [v] of a face token names in a
    vector of [size] entries: [1 .. size] count from the first entry,
    [-size .. -1] from the last, and nothing else names an entry. *)
Definition selected (size : nat) (v : Z) : option Z :=
  if ((1 <=? v) && (v <=? Z.of_nat size))%Z then Some (v - 1)%Z
  else if ((- Z.of_nat size <=? v) && (v <=? -1))%Z
       then Some (Z.of_nat size + v)%Z
       else None.

(* ================================================================== *)
(** ** Facts about binary64 comparisons *)
(* ================================================================== *)

Section FloatOrder.

Lemma SFcompare_antisym (a b : spec_float) :
  SFcompare b a = option_map CompOpp (SFcompare a b).
Proof.
  destruct a as [sa| sa | |sa ma ea], b as [sb|sb| |sb mb eb]; simpl;
    try reflexivity;
    try (destruct sa; reflexivity); try (destruct sb; reflexivity);
    try (destruct sa, sb; reflexivity).
  destruct sa, sb; try reflexivity;
    rewrite (Z.compare_antisym ea eb);
    destruct (ea ?= eb)%Z; simpl; try reflexivity;
    rewrite (Pos.compare_cont_antisym ma mb Eq); simpl;
    try rewrite CompOpp_involutive; reflexivity.
Qed.

Lemma SFcompare_refl (a : spec_float) :
  a <> S754_nan -> SFcompare a a = Some Eq.
Proof.
  destruct a as [sa| sa | |sa ma ea]; simpl; try congruence.
  - destruct sa; reflexivity.
  - intros _. destruct sa; rewrite Z.compare_refl;
      fold (Pos.compare ma ma); rewrite Pos.compare_refl; reflexivity.
Qed.

Lemma SFcompare_None (a b : spec_float) :
  SFcompare a b = None <-> a = S754_nan \/ b = S754_nan.
Proof.
  destruct a as [sa| sa | |sa ma ea], b as [sb|sb| |sb mb eb]; simpl;
    split; intros H; try discriminate; auto;
    destruct H; discriminate.
Qed.

Lemma is_nan_spec (a : float) :
  is_nan a = true <-> Prim2SF a = S754_nan.
Proof.
  unfold is_nan. rewrite FloatAxioms.eqb_spec. unfold SFeqb. split.
  - intros H. destruct (Prim2SF a) eqn:E; try reflexivity;
      rewrite SFcompare_refl in H by congruence; discriminate.
  - intros ->. reflexivity.
Qed.

Lemma is_nan_false (a : float) :
  is_nan a = false <-> Prim2SF a <> S754_nan.
Proof.
  rewrite <- is_nan_spec. destruct (is_nan a); split; congruence.
Qed.

Lemma leb_refl (a : float) : is_nan a = false -> (a <=? a) = true.
Proof.
  intros H. apply is_nan_false in H.
  rewrite FloatAxioms.leb_spec. unfold SFleb.
  rewrite SFcompare_refl by assumption. reflexivity.
Qed.

Lemma leb_not_nan (a b : float) :
  (a <=? b) = true -> is_nan a = false /\ is_nan b = false.
Proof.
  rewrite FloatAxioms.leb_spec. unfold SFleb. intros H.
  rewrite !is_nan_false.
  split; intros E; rewrite E in H; simpl in H;
    try discriminate; destruct (Prim2SF a); discriminate.
Qed.

Lemma ltb_not_nan (a b : float) :
  (a <? b) = true -> is_nan a = false /\ is_nan b = false.
Proof.
  rewrite FloatAxioms.ltb_spec. unfold SFltb. intros H.
  rewrite !is_nan_false.
  split; intros E; rewrite E in H; simpl in H;
    try discriminate; destruct (Prim2SF a); discriminate.
Qed.

Lemma ltb_false_leb (a b : float) :
  is_nan a = false -> is_nan b = false ->
  (a <? b) = false -> (b <=? a) = true.
Proof.
  rewrite !is_nan_false, FloatAxioms.ltb_spec, FloatAxioms.leb_spec.
  unfold SFltb, SFleb. intros Ha Hb.
  rewrite (SFcompare_antisym (Prim2SF a) (Prim2SF b)).
  destruct (SFcompare (Prim2SF a) (Prim2SF b)) as [[]|] eqn:E; simpl;
    try congruence.
  apply SFcompare_None in E. tauto.
Qed.

Lemma ltb_leb_false (a b : float) :
  (a <? b) = true -> (b <=? a) = false.
Proof.
  rewrite FloatAxioms.ltb_spec, FloatAxioms.leb_spec.
  unfold SFltb, SFleb.
  rewrite (SFcompare_antisym (Prim2SF a) (Prim2SF b)).
  destruct (SFcompare (Prim2SF a) (Prim2SF b)) as [[]|]; simpl; congruence.
Qed.

Lemma ltb_leb (a b : float) : (a <? b) = true -> (a <=? b) = true.
Proof.
  rewrite FloatAxioms.ltb_spec, FloatAxioms.leb_spec.
  unfold SFltb, SFleb.
  destruct (SFcompare (Prim2SF a) (Prim2SF b)) as [[]|]; simpl; congruence.
Qed.

Lemma leb_ltb_false (a b : float) :
  (a <=? b) = true -> (b <? a) = false.
Proof.
  rewrite FloatAxioms.ltb_spec, FloatAxioms.leb_spec.
  unfold SFltb, SFleb.
  rewrite (SFcompare_antisym (Prim2SF a) (Prim2SF b)).
  destruct (SFcompare (Prim2SF a) (Prim2SF b)) as [[]|]; simpl; congruence.
Qed.

Lemma Prim2SF_zero : Prim2SF 0 = S754_zero false.
Proof. reflexivity. Qed.

Lemma opp_leb_of_nonneg (l : float) :
  (0 <=? l) = true ->
  (- l <=? 0) = true /\ (- l <=? l) = true.
Proof.
  rewrite !FloatAxioms.leb_spec, FloatAxioms.opp_spec, Prim2SF_zero.
  unfold SFleb.
  destruct (Prim2SF l) as [s|s| |s m e]; simpl; try discriminate.
  - auto.
  - destruct s; simpl; try discriminate. auto.
  - destruct s; simpl; try discriminate. auto.
Qed.

End FloatOrder.

(* ================================================================== *)
(** ** The sign of a binary64 quotient *)
(* ================================================================== *)

Section FloatDivSign.

Local Open Scope Z_scope.

Lemma shr_1_nonneg (mrs : shr_record) :
  0 <= shr_m mrs -> 0 <= shr_m (shr_1 mrs).
Proof.
  destruct mrs as [m r s]. destruct m as [|p|p]; simpl; try lia;
    destruct p; simpl; lia.
Qed.

Lemma iter_pos_preserves {A : Type} (P : A -> Prop) (f : A -> A) :
  (forall a, P a -> P (f a)) ->
  forall (n : positive) (a : A), P a -> P (SpecFloat.iter_pos f n a).
Proof.
  intros Hf. induction n as [n IH|n IH|]; intros a Ha; simpl; auto.
Qed.

Lemma shr_fexp_nonneg (m e : Z) (l : location) :
  0 <= m -> 0 <= shr_m (shr_fexp prec emax m e l).1.
Proof.
  intros Hm. unfold shr_fexp, shr.
  assert (0 <= shr_m (shr_record_of_loc m l)) as H0
    by (destruct l as [|[]]; exact Hm).
  destruct (fexp prec emax (Zdigits2 m + e) - e); simpl; try exact H0.
  apply (iter_pos_preserves (fun r => 0 <= shr_m r)); [|exact H0].
  apply shr_1_nonneg.
Qed.

Lemma round_nearest_even_nonneg (m : Z) (l : location) :
  0 <= m -> 0 <= round_nearest_even m l.
Proof.
  intros Hm. destruct l as [|[]]; simpl; try lia.
  destruct (Z.even m); lia.
Qed.

Lemma binary_round_aux_nonneg (m e : Z) (l : location) :
  0 <= m -> SFnonneg (binary_round_aux prec emax false m e l).
Proof.
  intros Hm. unfold binary_round_aux.
  pose proof (shr_fexp_nonneg m e l Hm) as H1.
  destruct (shr_fexp prec emax m e l) as [mrs' e']. simpl in H1.
  pose proof (shr_fexp_nonneg _ e' loc_Exact
                (round_nearest_even_nonneg _ (loc_of_shr_record mrs') H1))
    as H2.
  destruct (shr_fexp prec emax _ e' loc_Exact) as [mrs'' e'']. simpl in H2.
  destruct (shr_m mrs'') as [|p|p]; try lia; try reflexivity.
  destruct (e'' <=? emax - prec); reflexivity.
Qed.

Lemma SFdiv_nonneg (a b : spec_float) :
  SFnonneg a -> SFltb a b = true -> SFnonneg (SFdiv prec emax a b).
Proof.
  unfold SFnonneg, SFleb, SFltb.
  destruct a as [sa|sa| |sa ma ea], b as [sb|sb| |sb mb eb]; simpl;
    try discriminate; try reflexivity;
    try (destruct sa; simpl; discriminate);
    try (destruct sb; simpl; (discriminate || reflexivity));
    try (destruct sa, sb; simpl; (discriminate || reflexivity)).
  destruct sa; [discriminate|]. destruct sb; [discriminate|].
  intros _ _. simpl xorb.
  unfold SFdiv_core_binary.
  set (s := ea - eb - _).
  set (m' := match s with Z0 => Z.pos ma | Z.pos _ => Z.shiftl (Z.pos ma) s
             | Z.neg _ => 0 end).
  assert (0 <= m') as Hm'.
  { subst m'. destruct s; try lia. apply Z.shiftl_nonneg. lia. }
  pose proof (Z.div_pos m' (Z.pos mb) Hm' ltac:(lia)) as Hq.
  unfold Z.div in Hq.
  destruct (Z.div_eucl m' (Z.pos mb)) as [q r]. simpl in Hq.
  apply binary_round_aux_nonneg. exact Hq.
Qed.

Local Close Scope Z_scope.

Lemma div_nonneg (a b : float) :
  (0 <=? a) = true -> (a <? b) = true -> (0 <=? a / b) = true.
Proof.
  rewrite !FloatAxioms.leb_spec, FloatAxioms.ltb_spec, FloatAxioms.div_spec,
    Prim2SF_zero.
  apply SFdiv_nonneg.
Qed.

Lemma leb_false_ltb (a b : float) :
  is_nan a = false -> is_nan b = false ->
  (a <=? b) = false -> (b <? a) = true.
Proof.
  rewrite !is_nan_false, FloatAxioms.ltb_spec, FloatAxioms.leb_spec.
  unfold SFltb, SFleb. intros Ha Hb.
  rewrite (SFcompare_antisym (Prim2SF a) (Prim2SF b)).
  destruct (SFcompare (Prim2SF a) (Prim2SF b)) as [[]|] eqn:E; simpl;
    try congruence.
  apply SFcompare_None in E. tauto.
Qed.

End FloatDivSign.

(* ================================================================== *)
(** ** The PID controller *)
(* ================================================================== *)

Section PID.

Lemma clamp_nan (v lo hi : float) :
  is_nan v = true -> clamp v lo hi = v.
Proof.
  intros Hv. unfold clamp.
  destruct (v <? lo) eqn:E1.
  - apply ltb_not_nan in E1 as [E1 _]. congruence.
  - destruct (hi <? v) eqn:E2; [|reflexivity].
    apply ltb_not_nan in E2 as [_ E2]. congruence.
Qed.

Lemma clamp_bounds (v lo hi : float) :
  (lo <=? hi) = true -> is_nan v = false ->
  (lo <=? clamp v lo hi) = true /\ (clamp v lo hi <=? hi) = true.
Proof.
  intros Hlh Hv. destruct (leb_not_nan _ _ Hlh) as [Hlo Hhi].
  unfold clamp. destruct (v <? lo) eqn:E1.
  - split; [apply leb_refl|]; assumption.
  - destruct (hi <? v) eqn:E2.
    + split; [|apply leb_refl]; assumption.
    + split; apply ltb_false_leb; assumption.
Qed.

Lemma clamp_within_or_nan (v limit : float) :
  (0 <=? limit) = true ->
  within_or_nan (clamp v (- limit) limit) limit = true.
Proof.
  intros Hl. unfold within_or_nan, within.
  destruct (is_nan v) eqn:Hv.
  - rewrite clamp_nan by assumption. rewrite Hv. reflexivity.
  - destruct (opp_leb_of_nonneg _ Hl) as [_ Hlh].
    destruct (clamp_bounds v _ _ Hlh Hv) as [H1 H2].
    rewrite H1, H2. apply orb_true_r.
Qed.

Lemma zero_within (limit : float) :
  (0 <=? limit) = true -> within_or_nan 0 limit = true.
Proof.
  intros Hl. unfold within_or_nan, within.
  destruct (opp_leb_of_nonneg _ Hl) as [H0 _].
  rewrite H0, Hl. reflexivity.
Qed.

Lemma pidCall_limits (c : PIDController) (k : PIDCall) :
  integral_limit (pidCall c k).2 = integral_limit c /\
  output_limit (pidCall c k).2 = output_limit c.
Proof.
  destruct k as [error dt| |p i d]; simpl; auto.
  unfold calculate. destruct (dt <=? 0); simpl; auto.
Qed.

Lemma pidCall_bounded (c : PIDController) (k : PIDCall) :
  (0 <=? integral_limit c) = true ->
  (0 <=? output_limit c) = true ->
  within_or_nan (integral c) (integral_limit c) = true ->
  pidCallBounded within_or_nan (pidCall c k) = true.
Proof.
  intros HI HO Hinv. unfold pidCallBounded.
  destruct k as [error dt| |p i d]; simpl.
  - unfold calculate. destruct (dt <=? 0); simpl.
    + rewrite Hinv, zero_within by assumption. reflexivity.
    + rewrite !clamp_within_or_nan by assumption. reflexivity.
  - rewrite zero_within by assumption. reflexivity.
  - rewrite Hinv. reflexivity.
Qed.

Lemma pidTrace_bounded (ks : list PIDCall) : forall c : PIDController,
  (0 <=? integral_limit c) = true ->
  (0 <=? output_limit c) = true ->
  within_or_nan (integral c) (integral_limit c) = true ->
  forallb (pidCallBounded within_or_nan) (pidTrace c ks) = true.
Proof.
  induction ks as [|k ks IH]; intros c HI HO Hinv; [reflexivity|].
  cbn [pidTrace forallb].
  pose proof (pidCall_bounded c k HI HO Hinv) as Hk.
  rewrite Hk. cbn [andb].
  destruct (pidCall_limits c k) as [EI EO].
  apply IH; rewrite ?EI, ?EO; try assumption.
  unfold pidCallBounded in Hk. rewrite EI in Hk.
  apply andb_true_iff in Hk as [Hk _]. exact Hk.
Qed.

(** C7.  For every error value and every [dt <= 0], [calculate] returns 0
    and leaves the whole controller (accumulator, previous error, gains
    and limits) exactly as it was. *)
Theorem calculate_nonpositive_dt_noop
    (c : PIDController) (error dt : float) :
  (dt <=? 0) = true ->
  calculate c error dt = (0, c).
Proof.
  intros Hdt. unfold calculate. rewrite Hdt. reflexivity.
Qed.

Lemma calculate_nonpositive_dt_noop_witness :
  (-0.01 <=? 0) = true /\
  calculate (PIDController_ctor 5 1.0 0.5 100.0 20.0) 3.5 (-0.01)
  = (0, PIDController_ctor 5 1.0 0.5 100.0 20.0).
Proof.
  split; [reflexivity|].
  apply (calculate_nonpositive_dt_noop
           (PIDController_ctor 5 1.0 0.5 100.0 20.0) 3.5 (-0.01)).
  reflexivity.
Defined.

(** C5, as the code has it.  For a controller constructed with limits that
    are non-negative numbers, and for every sequence of [calculate],
    [reset] and [setGains] calls, after every call the integral
    accumulator lies within [[-integralLimit, +integralLimit]] unless it is
    not a number, and every value [calculate] returns lies within
    [[-outputLimit, +outputLimit]] unless it is not a number. *)
Theorem pid_bounds_hold_for_numbers
    (kp_ ki_ kd_ integral_limit_ output_limit_ : float)
    (ks : list PIDCall) :
  (0 <=? integral_limit_) = true ->
  (0 <=? output_limit_) = true ->
  forallb (pidCallBounded within_or_nan)
          (pidTrace (PIDController_ctor kp_ ki_ kd_
                                        integral_limit_ output_limit_) ks)
  = true.
Proof.
  intros HI HO. apply pidTrace_bounded; simpl; try assumption.
  apply zero_within. assumption.
Qed.

Lemma pid_bounds_hold_for_numbers_witness :
  (0 <=? 100.0) = true /\ (0 <=? 20.0) = true /\
  forallb (pidCallBounded within_or_nan)
          (pidTrace (PIDController_ctor 5 1.0 0.5 100.0 20.0)
                    [CallCalculate 50.0 0.01; CallSetGains 1 2 3;
                     CallCalculate nan 0.01; CallReset;
                     CallCalculate 1e300 1e10])
  = true.
Proof.
  split; [reflexivity|]. split; [reflexivity|].
  apply (pid_bounds_hold_for_numbers 5 1.0 0.5 100.0 20.0); reflexivity.
Defined.

(** C5, as stated, fails on the code: an error that is not a number makes
    both the accumulator and the returned value not a number, which lies
    in no interval; and with a negative limit the accumulator that
    [reset] zeroes lies outside the (empty) interval. *)
Lemma pid_bounds_counterexample :
  forallb (pidCallBounded within)
          (pidTrace (PIDController_ctor 5 1.0 0.5 100.0 20.0)
                    [CallCalculate nan 0.01])
  = false
  /\ forallb (pidCallBounded within)
             (pidTrace (PIDController_ctor 5 1.0 0.5 (-1.0) 20.0)
                       [CallReset])
     = false.
Proof. split; vm_compute; reflexivity. Qed.

End PID.

(* ================================================================== *)
(** ** The control law: phases *)
(* ================================================================== *)

Section ControlPhases.

Lemma forceBlock_state (clampF : Vec3 -> float -> Vec3)
    (pos vel : Vec3) (state : ControlState) (pids : ControlPIDs)
    (cfg : ControlConfig) (dt : float) :
  let r := forceBlock clampF pos vel state pids cfg dt in
  phase r.1.2 = phase state /\
  timeInPhase r.1.2 = timeInPhase state /\
  visitedCenter r.1.2 = visitedCenter state.
Proof.
  unfold forceBlock.
  destruct (Phase_eqb (phase state) ClimbToCenter).
  - destruct (calculate (radialPID pids) _ dt). simpl. auto.
  - destruct (calculate (radialPID pids) _ dt).
    destruct (calculate (speedPID pids) _ dt). simpl. auto.
Qed.

(** [forceBlock] hands back the phase and the time it was given. *)
Ltac through_forceBlock :=
  match goal with
  | |- context [forceBlock ?c ?p ?v ?s ?q ?g ?d] =>
      destruct (forceBlock_state c p v s q g d) as (-> & -> & _)
  end.

(** The phase and the time in phase after one call, read off the three
    blocks. *)
Lemma computeControlForce_phase
    (pos vel : Vec3) (state : ControlState) (pids : ControlPIDs)
    (cfg : ControlConfig) (dt : float) :
  let r := computeControlForce pos vel state pids cfg dt in
  let arrived := distance pos (center cfg) <? 2.0 in
  let waited := groundWait cfg <=? timeInPhase state + dt in
  phase r.1.2 =
    match phase state with
    | GroundWait =>
        if waited then (if arrived then OnSphere else ClimbToCenter)
        else GroundWait
    | ClimbToCenter => if arrived then OnSphere else ClimbToCenter
    | OnSphere => OnSphere
    end
  /\ timeInPhase r.1.2 =
    match phase state with
    | GroundWait => if waited then 0 else timeInPhase state + dt
    | ClimbToCenter => if arrived then 0 else timeInPhase state + dt
    | OnSphere => timeInPhase state + dt
    end.
Proof.
  unfold computeControlForce, computeControlForce_with, groundWaitBlock,
    arrivalBlock, advanceTime.
  cbn [phase timeInPhase visitedCenter tangentialDir].
  destruct (phase state) eqn:Ep;
    cbn [phase timeInPhase visitedCenter tangentialDir Phase_eqb].
  - destruct (groundWait cfg <=? timeInPhase state + dt);
      cbn [phase timeInPhase visitedCenter tangentialDir Phase_eqb];
      [|auto].
    destruct (distance pos (center cfg) <? 2.0); through_forceBlock; auto.
  - destruct (distance pos (center cfg) <? 2.0); through_forceBlock;
      cbn [phase timeInPhase]; auto.
  - through_forceBlock. cbn [phase timeInPhase]. auto.
Qed.

Lemma computeControlForce_forward
    (pos vel : Vec3) (state : ControlState) (pids : ControlPIDs)
    (cfg : ControlConfig) (dt : float) :
  phaseRank (phase state)
  <= phaseRank (phase (computeControlForce pos vel state pids cfg dt).1.2).
Proof.
  destruct (computeControlForce_phase pos vel state pids cfg dt) as [-> _].
  destruct (phase state); simpl;
    repeat match goal with |- context [if ?b then _ else _] =>
             destruct b end; simpl; lia.
Qed.

Lemma controlTrace_forward (cfg : ControlConfig) (ins : list ControlInput) :
  forall (state : ControlState) (pids : ControlPIDs),
  neverBackward (observedPhases state (controlTrace cfg state pids ins)).
Proof.
  induction ins as [|i ins IH]; intros state pids; [exact I|].
  cbn [controlTrace observedPhases fmap list_fmap]. split.
  - apply computeControlForce_forward.
  - apply IH.
Qed.

Lemma controlTrace_left_GroundWait (cfg : ControlConfig)
    (ins : list ControlInput) :
  forall (state : ControlState) (pids : ControlPIDs),
  phase state <> GroundWait ->
  Forall (fun r => phase r.1.2 <> GroundWait)
         (controlTrace cfg state pids ins).
Proof.
  induction ins as [|i ins IH]; intros state pids Hp; [constructor|].
  cbn [controlTrace].
  assert (phase (computeControlForce (in_pos i) (in_vel i) state pids cfg
                                     (in_dt i)).1.2 <> GroundWait) as Hn.
  { pose proof (computeControlForce_forward (in_pos i) (in_vel i) state pids
                  cfg (in_dt i)) as Hf.
    intros E. rewrite E in Hf. destruct (phase state); simpl in Hf;
      try lia. congruence. }
  constructor; [exact Hn|]. apply IH. exact Hn.
Qed.

(** A call made in [GroundWait] while the incremented time is still below
    the wait: the early return. *)
Lemma computeControlForce_waiting
    (pos vel : Vec3) (state : ControlState) (pids : ControlPIDs)
    (cfg : ControlConfig) (dt : float) :
  phase state = GroundWait ->
  (timeInPhase state + dt <? groundWait cfg) = true ->
  computeControlForce pos vel state pids cfg dt
  = (mkVec3 0 0 0, advanceTime state dt, pids).
Proof.
  intros Hp Hlt. apply ltb_leb_false in Hlt.
  unfold computeControlForce, computeControlForce_with, groundWaitBlock.
  cbn [advanceTime phase timeInPhase]. rewrite Hp. cbn [Phase_eqb].
  rewrite Hlt. reflexivity.
Qed.

Lemma controlTrace_waiting (cfg : ControlConfig) (pids : ControlPIDs)
    (pre rest : list ControlInput) :
  forall state : ControlState,
  phase state = GroundWait ->
  staysBelow (timeInPhase state) (groundWait cfg) (in_dt <$> pre) = true ->
  exists quiet : list (Vec3 * ControlState * ControlPIDs),
    controlTrace cfg state pids (pre ++ rest)
    = quiet
      ++ controlTrace cfg
           (mkControlState GroundWait
              (timeAfter (timeInPhase state) (in_dt <$> pre))
              (visitedCenter state) (tangentialDir state))
           pids rest
    /\ length quiet = length pre
    /\ Forall (fun r => r.1.1 = mkVec3 0 0 0 /\ phase r.1.2 = GroundWait)
              quiet.
Proof.
  induction pre as [|i pre IH]; intros state Hp Hb.
  - exists []. cbn. split; [|split; [reflexivity|constructor]].
    destruct state; simpl in *; congruence.
  - cbn [fmap list_fmap staysBelow] in Hb.
    apply andb_true_iff in Hb as [Hlt Hb].
    destruct (IH (advanceTime state (in_dt i)) Hp Hb) as (quiet & E & Hl & Hq).
    exists ((mkVec3 0 0 0, advanceTime state (in_dt i), pids) :: quiet).
    cbn [app controlTrace].
    rewrite (computeControlForce_waiting _ _ _ _ _ _ Hp Hlt).
    cbn [fst snd]. rewrite E. split; [reflexivity|].
    split; [cbn; congruence|].
    constructor; [auto|exact Hq].
Qed.

End ControlPhases.

(* ================================================================== *)
(** ** The control law: the claims on phases *)
(* ================================================================== *)

Section ControlClaims.

(** C3, as the code has it.  Across every sequence of
    [computeControlForce] calls, from the initial state or from any other,
    the phase observed after each call never moves backward in the order
    GroundWait, ClimbToCenter, OnSphere.  A single call does take the
    observed phase from GroundWait directly to OnSphere, exactly when in
    that call the incremented time in phase has reached the ground wait
    and the position is closer than 2.0 to the center: the call then
    passes through ClimbToCenter between its first two blocks. *)
Theorem phase_never_backward_skip_only_on_arrival
    (cfg : ControlConfig) (state : ControlState) (pids : ControlPIDs)
    (ins : list ControlInput) (pos vel : Vec3) (dt : float) :
  neverBackward (observedPhases state (controlTrace cfg state pids ins))
  /\ Phase_eqb (phase state) GroundWait
     && Phase_eqb (phase (computeControlForce pos vel state pids cfg dt).1.2)
                  OnSphere
     = Phase_eqb (phase state) GroundWait
       && (groundWait cfg <=? timeInPhase state + dt)
       && (distance pos (center cfg) <? 2.0).
Proof.
  split; [apply controlTrace_forward|].
  destruct (computeControlForce_phase pos vel state pids cfg dt) as [-> _].
  destruct (phase state); cbn [Phase_eqb andb]; [|reflexivity..].
  destruct (groundWait cfg <=? timeInPhase state + dt); [|reflexivity].
  destruct (distance pos (center cfg) <? 2.0); reflexivity.
Qed.

(** C3, as stated, fails on the code: one call from the initial state, at
    the center, with a time step that uses up the ground wait, leaves the
    observed phase at OnSphere. *)
Lemma phase_skip_counterexample :
  phase ControlState_default = GroundWait
  /\ phase (computeControlForce
              (mkVec3 0 0 50) (mkVec3 0 0 0) ControlState_default
              (pids (UAV_ctor (mkVec3 0 0 50) ControlConfig_default))
              ControlConfig_default 5.0).1.2
     = OnSphere.
Proof. split; vm_compute; reflexivity. Qed.

(** C1, as the code has it.  A call made in ClimbToCenter with the
    position closer than 2.0 to the center sets, in its arrival block, the
    phase to OnSphere, the time in phase to 0 and the center-visited flag,
    and resets both PID controllers; the same call then computes the first
    OnSphere force with the freshly reset controllers.  After the call
    the phase is OnSphere, the time in phase is 0, the flag is set, and
    each controller is the reset controller after one [calculate]: its
    accumulator is 0 when [dt <= 0] and otherwise the clamped
    [0 + error * dt] of that one step. *)
Theorem arrival_resets_then_computes
    (pos vel : Vec3) (state : ControlState) (pids : ControlPIDs)
    (cfg : ControlConfig) (dt : float) :
  phase state = ClimbToCenter ->
  (distance pos (center cfg) <? 2.0) = true ->
  let r := computeControlForce pos vel state pids cfg dt in
  let radialError := mag (sub (center cfg) pos) - sphereRadius cfg in
  let speedError := 0.5 * (minSpeed cfg + maxSpeed cfg) - mag vel in
  arrivalBlock pos (advanceTime state dt) pids cfg
  = (mkControlState OnSphere 0 true (tangentialDir state),
     mkControlPIDs (reset (radialPID pids)) (reset (speedPID pids)))
  /\ phase r.1.2 = OnSphere
  /\ timeInPhase r.1.2 = 0
  /\ visitedCenter r.1.2 = true
  /\ radialPID r.2 = (calculate (reset (radialPID pids)) radialError dt).2
  /\ speedPID r.2 = (calculate (reset (speedPID pids)) speedError dt).2
  /\ integral (radialPID r.2)
     = (if dt <=? 0 then 0
        else clamp (0 + radialError * dt)
                   (- integral_limit (radialPID pids))
                   (integral_limit (radialPID pids)))
  /\ integral (speedPID r.2)
     = (if dt <=? 0 then 0
        else clamp (0 + speedError * dt)
                   (- integral_limit (speedPID pids))
                   (integral_limit (speedPID pids))).
Proof.
  intros Hp Hd r radialError speedError. subst r.
  assert (groundWaitBlock (advanceTime state dt) cfg
          = Some (advanceTime state dt)) as Hg.
  { unfold groundWaitBlock, advanceTime. cbn [phase]. rewrite Hp.
    reflexivity. }
  assert (arrivalBlock pos (advanceTime state dt) pids cfg
          = (mkControlState OnSphere 0 true (tangentialDir state),
             mkControlPIDs (reset (radialPID pids)) (reset (speedPID pids))))
    as Ha.
  { unfold arrivalBlock, advanceTime. cbn [phase tangentialDir].
    rewrite Hp. cbn [Phase_eqb]. rewrite Hd. reflexivity. }
  split; [exact Ha|].
  unfold computeControlForce, computeControlForce_with.
  rewrite Hg, Ha.
  unfold forceBlock. cbn [phase Phase_eqb radialPID speedPID].
  fold radialError. fold speedError.
  destruct (calculate (reset (radialPID pids)) radialError dt)
    as [radialOut radialPID'] eqn:Er.
  destruct (calculate (reset (speedPID pids)) speedError dt)
    as [speedOut speedPID'] eqn:Es.
  cbn [fst snd phase timeInPhase visitedCenter radialPID speedPID].
  repeat (split; [reflexivity|]).
  unfold calculate in Er, Es. cbn [reset integral integral_limit] in Er, Es.
  destruct (dt <=? 0); inversion Er; inversion Es; subst; split; reflexivity.
Qed.

Lemma arrival_resets_then_computes_witness :
  let pos := mkVec3 1.9 0 50 in
  let vel := mkVec3 0 0 0 in
  let state := mkControlState ClimbToCenter 3.0 false (mkVec3 1 0 0) in
  let pids := pids (UAV_ctor (mkVec3 0 0 0) ControlConfig_default) in
  let r := computeControlForce pos vel state pids ControlConfig_default 0.01 in
  phase state = ClimbToCenter
  /\ (distance pos (center ControlConfig_default) <? 2.0) = true
  /\ phase r.1.2 = OnSphere
  /\ timeInPhase r.1.2 = 0
  /\ visitedCenter r.1.2 = true.
Proof.
  intros pos vel state pids r.
  pose proof (arrival_resets_then_computes pos vel state pids
                ControlConfig_default 0.01 eq_refl eq_refl)
    as (_ & H1 & H2 & H3 & _).
  split; [reflexivity|]. split; [reflexivity|].
  split; [exact H1|]. split; [exact H2|exact H3].
Defined.

(** C1, as stated, fails on the code: at distance exactly 1.9, with the
    gains the agent installs and the time step of the agent loop, both
    accumulators are different from zero right after the call. *)
Lemma arrival_integral_counterexample :
  let pos := mkVec3 1.9 0 50 in
  let state := mkControlState ClimbToCenter 3.0 false (mkVec3 1 0 0) in
  let pids := pids (UAV_ctor (mkVec3 0 0 0) ControlConfig_default) in
  let r := computeControlForce pos (mkVec3 0 0 0) state pids
                               ControlConfig_default 0.01 in
  distance pos (center ControlConfig_default) = 1.9
  /\ phase r.1.2 = OnSphere
  /\ integral (radialPID r.2) = -0.081
  /\ integral (speedPID r.2) = 0.06
  /\ (integral (radialPID r.2) =? 0) = false
  /\ (integral (speedPID r.2) =? 0) = false.
Proof. vm_compute. repeat split; reflexivity. Qed.

(** C8.  An agent in GroundWait gets the exact zero vector, and stays in
    GroundWait, on every tick for which the incremented time in phase is
    still below the ground wait ([pre]).  On the first tick [i] where the
    incremented time reaches or exceeds the ground wait, the GroundWait
    block sets the phase to ClimbToCenter and the time in phase to 0, and
    the call goes on from that state; after it the time in phase is 0 and
    the phase is ClimbToCenter (OnSphere if the arrival test of the same
    call fires too).  No later tick ([post]) is in GroundWait again, so the
    transition is made exactly once. *)
Theorem groundwait_zero_force_then_one_transition
    (cfg : ControlConfig) (state : ControlState) (pids : ControlPIDs)
    (pre : list ControlInput) (i : ControlInput) (post : list ControlInput) :
  phase state = GroundWait ->
  staysBelow (timeInPhase state) (groundWait cfg) (in_dt <$> pre) = true ->
  (groundWait cfg
     <=? timeAfter (timeInPhase state) (in_dt <$> pre) + in_dt i) = true ->
  let before :=
    mkControlState GroundWait (timeAfter (timeInPhase state) (in_dt <$> pre))
                   (visitedCenter state) (tangentialDir state) in
  let entered :=
    mkControlState ClimbToCenter 0 (visitedCenter state)
                   (tangentialDir state) in
  exists quiet r later,
    controlTrace cfg state pids (pre ++ i :: post) = quiet ++ r :: later
    /\ length quiet = length pre
    /\ Forall (fun q => q.1.1 = mkVec3 0 0 0 /\ phase q.1.2 = GroundWait)
              quiet
    /\ groundWaitBlock (advanceTime before (in_dt i)) cfg = Some entered
    /\ r = (let '(s, p) := arrivalBlock (in_pos i) entered pids cfg in
            forceBlock clampMagnitude (in_pos i) (in_vel i) s p cfg (in_dt i))
    /\ phase r.1.2
       = (if distance (in_pos i) (center cfg) <? 2.0
          then OnSphere else ClimbToCenter)
    /\ timeInPhase r.1.2 = 0
    /\ Forall (fun q => phase q.1.2 <> GroundWait) later.
Proof.
  intros Hp Hb Hge before entered.
  destruct (controlTrace_waiting cfg pids pre (i :: post) state Hp Hb)
    as (quiet & E & Hl & Hq).
  fold before in E. cbn [controlTrace] in E.
  set (r := computeControlForce (in_pos i) (in_vel i) before pids cfg
                                (in_dt i)) in *.
  exists quiet, r, (controlTrace cfg r.1.2 r.2 post).
  assert (groundWaitBlock (advanceTime before (in_dt i)) cfg = Some entered)
    as Hg.
  { unfold groundWaitBlock, advanceTime, before.
    cbn [phase timeInPhase visitedCenter tangentialDir Phase_eqb].
    rewrite Hge. reflexivity. }
  destruct (computeControlForce_phase (in_pos i) (in_vel i) before pids cfg
              (in_dt i)) as [Hph Ht].
  fold r in Hph, Ht. unfold before in Hph, Ht.
  cbn [phase timeInPhase] in Hph, Ht. rewrite Hge in Hph, Ht.
  split; [exact E|]. split; [exact Hl|]. split; [exact Hq|].
  split; [exact Hg|].
  split.
  { unfold r, computeControlForce, computeControlForce_with.
    rewrite Hg. reflexivity. }
  split; [exact Hph|]. split; [exact Ht|].
  apply controlTrace_left_GroundWait. rewrite Hph.
  destruct (distance (in_pos i) (center cfg) <? 2.0); discriminate.
Qed.

Lemma groundwait_zero_force_then_one_transition_witness :
  let tickIn := mkControlInput (mkVec3 0 0 0) (mkVec3 0 0 0) 0.01 in
  let pids := pids (UAV_ctor (mkVec3 0 0 0) ControlConfig_default) in
  phase ControlState_default = GroundWait
  /\ staysBelow (timeInPhase ControlState_default)
                (groundWait ControlConfig_default)
                (in_dt <$> replicate 500 tickIn) = true
  /\ (groundWait ControlConfig_default
        <=? timeAfter (timeInPhase ControlState_default)
                      (in_dt <$> replicate 500 tickIn) + in_dt tickIn) = true
  /\ exists quiet r later,
       controlTrace ControlConfig_default ControlState_default pids
                    (replicate 500 tickIn ++ tickIn :: [tickIn; tickIn])
       = quiet ++ r :: later
       /\ length quiet = 500%nat
       /\ Forall (fun q => q.1.1 = mkVec3 0 0 0 /\ phase q.1.2 = GroundWait)
                 quiet
       /\ phase r.1.2 = ClimbToCenter
       /\ timeInPhase r.1.2 = 0
       /\ Forall (fun q => phase q.1.2 <> GroundWait) later.
Proof.
  intros tickIn pids.
  split; [reflexivity|]. split; [vm_compute; reflexivity|].
  split; [vm_compute; reflexivity|].
  destruct (groundwait_zero_force_then_one_transition
              ControlConfig_default ControlState_default pids
              (replicate 500 tickIn) tickIn [tickIn; tickIn])
    as (quiet & r & later & E & Hl & Hq & _ & _ & Hph & Ht & Hlater);
    [reflexivity | vm_compute; reflexivity | vm_compute; reflexivity |].
  exists quiet, r, later.
  split; [exact E|]. split; [rewrite Hl; apply length_replicate|].
  split; [exact Hq|]. split; [exact Hph|]. split; [exact Ht|exact Hlater].
Defined.

End ControlClaims.

(* ================================================================== *)
(** ** Rounding: powers of two, digits and shifted mantissas *)
(* ================================================================== *)

Section RoundingBasics.

Local Open Scope R_scope.

Lemma Rabs_le_inv (a b : R) : Rabs a <= b -> - b <= a <= b.
Proof. unfold Rabs. destruct (Rcase_abs a); lra. Qed.

Lemma bpow_gt_0 (e : Z) : 0 < bpow e.
Proof. apply powerRZ_lt. lra. Qed.

Lemma bpow_plus (a b : Z) : bpow (a + b) = bpow a * bpow b.
Proof. apply powerRZ_add. lra. Qed.

Lemma bpow_0 : bpow 0 = 1.
Proof. reflexivity. Qed.

Lemma bpow_1 : bpow 1 = 2.
Proof. unfold bpow, powerRZ. simpl. lra. Qed.

Lemma bpow_succ (e : Z) : bpow (e + 1) = 2 * bpow e.
Proof. rewrite bpow_plus, bpow_1. lra. Qed.

Lemma bpow_IZR (n : Z) : (0 <= n)%Z -> bpow n = IZR (2 ^ n).
Proof.
  intros Hn. pattern n. apply natlike_ind; [reflexivity| |exact Hn].
  intros k Hk IH. rewrite Z.pow_succ_r by exact Hk.
  rewrite mult_IZR, <- IH. unfold Z.succ. rewrite bpow_succ. reflexivity.
Qed.

Lemma bpow_ge_1 (n : Z) : (0 <= n)%Z -> 1 <= bpow n.
Proof.
  intros Hn. rewrite (bpow_IZR n Hn). apply IZR_le.
  pose proof (Z.pow_pos_nonneg 2 n ltac:(lia) Hn). lia.
Qed.

Lemma bpow_le (a b : Z) : (a <= b)%Z -> bpow a <= bpow b.
Proof.
  intros Hab. replace b with (a + (b - a))%Z by lia. rewrite bpow_plus.
  pose proof (bpow_gt_0 a). pose proof (bpow_ge_1 (b - a) ltac:(lia)). nra.
Qed.

Lemma bpow_lt (a b : Z) : (a < b)%Z -> bpow a < bpow b.
Proof.
  intros Hab. apply Rlt_le_trans with (bpow (a + 1)).
  - rewrite bpow_succ. pose proof (bpow_gt_0 a). lra.
  - apply bpow_le. lia.
Qed.

Lemma bpow_lt_inv (a b : Z) : bpow a < bpow b -> (a < b)%Z.
Proof.
  intros H. destruct (Z_lt_le_dec a b) as [Hlt|Hge]; [exact Hlt|].
  pose proof (bpow_le b a Hge). lra.
Qed.

Lemma bpow_le_inv (a b : Z) : bpow a <= bpow b -> (a <= b)%Z.
Proof.
  intros H. destruct (Z_le_gt_dec a b) as [Hle|Hgt]; [exact Hle|].
  pose proof (bpow_lt b a ltac:(lia)). lra.
Qed.

Lemma digits2_pos_bounds (p : positive) :
  (2 ^ (Zpos (digits2_pos p) - 1) <= Zpos p < 2 ^ Zpos (digits2_pos p))%Z.
Proof.
  induction p as [p IH|p IH|]; cbn [digits2_pos].
  - rewrite Pos2Z.inj_succ.
    replace (Z.succ (Zpos (digits2_pos p)) - 1)%Z
      with (Z.succ (Zpos (digits2_pos p) - 1)) by lia.
    rewrite !Z.pow_succ_r by lia. lia.
  - rewrite Pos2Z.inj_succ.
    replace (Z.succ (Zpos (digits2_pos p)) - 1)%Z
      with (Z.succ (Zpos (digits2_pos p) - 1)) by lia.
    rewrite !Z.pow_succ_r by lia. lia.
  - cbn. lia.
Qed.

Lemma Zdigits2_nonneg (m : Z) : (0 <= Zdigits2 m)%Z.
Proof. destruct m; cbn; lia. Qed.

Lemma Zdigits2_bounds (m : Z) :
  (0 < m)%Z ->
  bpow (Zdigits2 m - 1) <= IZR m < bpow (Zdigits2 m).
Proof.
  intros Hm. destruct m as [|p|p]; try lia. cbn [Zdigits2].
  pose proof (digits2_pos_bounds p) as [H1 H2].
  rewrite !bpow_IZR by lia. split; [apply IZR_le|apply IZR_lt]; assumption.
Qed.

Lemma Zdigits2_succ_le (m : Z) :
  (0 <= m)%Z -> IZR m + 1 <= bpow (Zdigits2 m).
Proof.
  intros Hm. destruct m as [|p|p]; try lia.
  - cbn [Zdigits2]. rewrite bpow_0. lra.
  - cbn [Zdigits2]. pose proof (digits2_pos_bounds p) as [_ H2].
    rewrite bpow_IZR by lia. rewrite <- plus_IZR. apply IZR_le. lia.
Qed.

Lemma IZR_lt_bpow (m n : Z) :
  (0 <= n)%Z -> IZR m < bpow n -> (m < 2 ^ n)%Z.
Proof. intros Hn H. rewrite bpow_IZR in H by exact Hn. apply lt_IZR, H. Qed.

Lemma bpow_lt_IZR (m n : Z) :
  (0 <= n)%Z -> bpow n < IZR m -> (2 ^ n < m)%Z.
Proof. intros Hn H. rewrite bpow_IZR in H by exact Hn. apply lt_IZR, H. Qed.

(** *** Shifting a mantissa right keeps the number in its interval *)

Lemma shr_1_inb (mrs : shr_record) (e : Z) (x : R) :
  inb mrs e x -> inb (shr_1 mrs) (e + 1) x.
Proof.
  destruct mrs as [m r s]. unfold inb. cbn [shr_m shr_r shr_s].
  intros (Hm & [Hlo Hhi] & Hex).
  pose proof (bpow_gt_0 e) as Hb. rewrite bpow_succ.
  destruct m as [|[p|p|]|p]; try lia; cbn [shr_1 shr_m shr_r shr_s].
  - split; [lia|]. split; [nra|].
    intros _ Hs. apply orb_false_iff in Hs as [-> ->].
    rewrite (Hex eq_refl eq_refl). lra.
  - split; [lia|]. split.
    + rewrite (Pos2Z.inj_xI p), plus_IZR, mult_IZR in Hlo, Hhi. nra.
    + discriminate.
  - split; [lia|]. split.
    + rewrite (Pos2Z.inj_xO p), mult_IZR in Hlo, Hhi. nra.
    + intros _ Hs. apply orb_false_iff in Hs as [-> ->].
      rewrite (Hex eq_refl eq_refl), (Pos2Z.inj_xO p), mult_IZR. lra.
  - split; [lia|]. split; [nra|discriminate].
Qed.

Lemma iter_pos_shr_1_inb (p : positive) :
  forall (mrs : shr_record) (e : Z) (x : R),
    inb mrs e x -> inb (SpecFloat.iter_pos shr_1 p mrs) (e + Zpos p) x.
Proof.
  induction p as [p IH|p IH|]; intros mrs e x H; cbn [SpecFloat.iter_pos].
  - replace (e + Zpos p~1)%Z with (e + 1 + Zpos p + Zpos p)%Z by lia.
    apply IH, IH, shr_1_inb, H.
  - replace (e + Zpos p~0)%Z with (e + Zpos p + Zpos p)%Z by lia.
    apply IH, IH, H.
  - apply shr_1_inb, H.
Qed.

Lemma shr_inb (mrs : shr_record) (e n : Z) (x : R) :
  (0 <= n)%Z -> inb mrs e x ->
  inb (shr mrs e n).1 (e + n) x /\ (shr mrs e n).2 = (e + n)%Z.
Proof.
  intros Hn H. destruct n as [|p|p]; try lia; cbn [shr fst snd].
  - rewrite Z.add_0_r. split; [exact H|reflexivity].
  - split; [apply iter_pos_shr_1_inb, H|reflexivity].
Qed.

Lemma loc_ok_inb (m e : Z) (l : location) (x : R) :
  (0 <= m)%Z -> loc_ok m e l x -> inb (shr_record_of_loc m l) e x.
Proof.
  intros Hm H. pose proof (bpow_gt_0 e).
  destruct l as [|[| |]]; cbn in H |- *; unfold inb; cbn [shr_m shr_r shr_s];
    (split; [exact Hm|]); (split; [try lra|]); try discriminate.
  intros _ _. exact H.
Qed.

Lemma round_nearest_even_inb (mrs : shr_record) (e : Z) (x : R) :
  inb mrs e x ->
  let m := round_nearest_even (shr_m mrs) (loc_of_shr_record mrs) in
  (shr_m mrs <= m <= shr_m mrs + 1)%Z
  /\ x - bpow e <= IZR m * bpow e <= x + bpow e.
Proof.
  destruct mrs as [m r s]. unfold inb. cbn [shr_m shr_r shr_s].
  intros (Hm & [Hlo Hhi] & Hex). pose proof (bpow_gt_0 e).
  destruct r, s; cbn [loc_of_shr_record round_nearest_even].
  - split; [lia|]. rewrite plus_IZR. lra.
  - destruct (Z.even m); (split; [lia|]); try rewrite plus_IZR; lra.
  - split; [lia|]. lra.
  - split; [lia|]. lra.
Qed.

End RoundingBasics.

(* ================================================================== *)
(** ** Rounding: one rounding to nearest *)
(* ================================================================== *)

Section RoundingCore.

Local Open Scope R_scope.

Lemma fexp_cases (k : Z) :
  (fexp prec emax k = -1074 /\ k - 53 <= -1074
   \/ fexp prec emax k = k - 53 /\ -1074 < k - 53)%Z.
Proof. unfold fexp, emin, prec, emax. lia. Qed.

(** One rounding: the mantissa [mx] at exponent [ex], with the location of
    the exact value [x] above it, is rounded to a mantissa [m] at an
    exponent [e] whose value is within [2^-52 * x + 2^-1074] of [x], and
    which does not overflow while [x < 2^1023]. *)
Lemma binary_round_aux_correct
    (sx : bool) (mx ex : Z) (lx : location) (x : R) :
  (0 <= mx)%Z -> loc_ok mx ex lx x ->
  (ex <= fexp prec emax (Zdigits2 mx + ex))%Z ->
  rounds sx x (binary_round_aux prec emax sx mx ex lx).
Proof.
  intros Hmx Hloc Hn1.
  unfold rounds, binary_round_aux, shr_fexp.
  pose proof (shr_inb (shr_record_of_loc mx lx) ex
                (fexp prec emax (Zdigits2 mx + ex) - ex) x
                ltac:(lia) (loc_ok_inb mx ex lx x Hmx Hloc)) as [Hin He].
  destruct (shr (shr_record_of_loc mx lx) ex
              (fexp prec emax (Zdigits2 mx + ex) - ex)) as [mrs' e'].
  cbn [fst snd] in Hin, He.
  assert (e' = fexp prec emax (Zdigits2 mx + ex)) as He' by lia.
  clear He.
  pose proof (round_nearest_even_inb mrs' _ x Hin) as [Hm'' Hv].
  cbv zeta in Hm'', Hv.
  set (m'' := round_nearest_even (shr_m mrs') (loc_of_shr_record mrs')) in *.
  destruct Hin as (Hm'0 & [Hlo Hhi] & _).
  replace (ex + (fexp prec emax (Zdigits2 mx + ex) - ex))%Z with e' in *
    by lia.
  pose proof (bpow_gt_0 e') as Hbe'.
  pose proof (bpow_gt_0 ex) as Hbex.
  assert (0 <= x) as Hx0.
  { apply Rle_trans with (IZR (shr_m mrs') * bpow e'); [|exact Hlo].
    apply Rmult_le_pos; [apply IZR_le; exact Hm'0|lra]. }
  assert (x < bpow (Zdigits2 mx + ex)) as Hxd.
  { assert (x < (IZR mx + 1) * bpow ex) as Hxm.
    { destruct lx; cbn in Hloc; lra. }
    pose proof (Zdigits2_succ_le mx Hmx). rewrite bpow_plus. nra. }
  (* the shifted mantissa has at most 53 digits *)
  assert (shr_m mrs' < 2 ^ 53)%Z as Hm'53.
  { apply IZR_lt_bpow; [lia|].
    assert (bpow (Zdigits2 mx + ex) <= bpow (e' + 53)) as Hle.
    { apply bpow_le. destruct (fexp_cases (Zdigits2 mx + ex)); lia. }
    rewrite (bpow_plus e' 53) in Hle.
    pose proof (bpow_gt_0 53).
    assert (IZR (shr_m mrs') * bpow e' < bpow 53 * bpow e') as H1 by lra.
    apply Rmult_lt_reg_r in H1; [exact H1|exact Hbe']. }
  (* the error of the first rounding *)
  assert (bpow e' <= ulp52 * x + eta
          /\ (x < bpow 1023 -> (e' <= 970)%Z)) as [Herr Hfin].
  { destruct (fexp_cases (Zdigits2 mx + ex)) as [[E _]|[E Hnorm]].
    - assert (e' = (-1074)%Z) as -> by lia. split.
      + unfold eta, ulp52. pose proof (bpow_gt_0 (-52)). nra.
      + intros _. lia.
    - assert (0 < mx)%Z as Hmx1.
      { destruct (Z.eq_dec mx 0%Z) as [->|]; [|lia].
        cbn [Zdigits2] in *. lia. }
      pose proof (Zdigits2_bounds mx Hmx1) as [Hd1 _].
      assert (bpow (e' + 52) <= x) as Hbig.
      { replace (e' + 52)%Z with ((Zdigits2 mx - 1) + ex)%Z by lia.
        rewrite bpow_plus.
        assert (IZR mx * bpow ex <= x) as Hmxx.
        { destruct lx; cbn in Hloc; lra. }
        nra. }
      split.
      + unfold ulp52, eta. pose proof (bpow_gt_0 (-1074)).
        replace e' with (-52 + (e' + 52))%Z at 1 by lia.
        rewrite bpow_plus. pose proof (bpow_gt_0 (-52)). nra.
      + intros Hx. assert (bpow (e' + 52) < bpow 1023) as Hlt by lra.
        apply bpow_lt_inv in Hlt. lia. }
  assert (-1074 <= e')%Z as Hemin.
  { destruct (fexp_cases (Zdigits2 mx + ex)); lia. }
  assert (Rabs (IZR m'' * bpow e' - x) <= ulp52 * x + eta) as Habs.
  { apply Rabs_le. lra. }
  (* the second shift *)
  destruct (Z.eq_dec m'' (2 ^ 53)%Z) as [E53|N53].
  - exists (2 ^ 52)%Z, (e' + 1)%Z.
    rewrite E53. split; [|split; [lia|split]].
    + change (Zdigits2 (2 ^ 53)%Z) with 54%Z.
      replace (fexp prec emax (54 + e') - e')%Z with 1%Z
        by (unfold fexp, emin, prec, emax; lia).
      reflexivity.
    + rewrite E53 in Habs. rewrite bpow_succ.
      replace (IZR (2 ^ 52) * (2 * bpow e')) with (IZR (2 ^ 53) * bpow e');
        [exact Habs|].
      change (2 ^ 53)%Z with (2 * 2 ^ 52)%Z. rewrite mult_IZR. lra.
    + intros Hx. specialize (Hfin Hx). lia.
  - exists m'', e'.
    assert (0 <= m'')%Z as Hm''0 by lia.
    assert (m'' < 2 ^ 53)%Z as Hm''53 by lia.
    assert (Zdigits2 m'' <= 53)%Z as Hd''.
    { destruct (Z.eq_dec m'' 0%Z) as [->|]; [cbn; lia|].
      pose proof (Zdigits2_bounds m'' ltac:(lia)) as [Hd1 _].
      assert (bpow (Zdigits2 m'' - 1) < bpow 53) as Hlt.
      { apply Rle_lt_trans with (IZR m''); [exact Hd1|].
        rewrite (bpow_IZR 53) by lia. apply IZR_lt. exact Hm''53. }
      apply bpow_lt_inv in Hlt. lia. }
    split; [|split; [exact Hm''0|split; [exact Habs|]]].
    + assert (fexp prec emax (Zdigits2 m'' + e') - e' <= 0)%Z as Hn2
        by (unfold fexp, emin, prec, emax; lia).
      destruct (fexp prec emax (Zdigits2 m'' + e') - e')%Z as [|p|p] eqn:En2;
        try lia; cbn [shr shr_record_of_loc shr_m];
        unfold roundResult; destruct m''; reflexivity.
    + intros Hx. specialize (Hfin Hx). lia.
Qed.

End RoundingCore.

(* ================================================================== *)
(** ** Rounding: products *)
(* ================================================================== *)

Section RoundedProducts.

Local Open Scope R_scope.

Lemma valid_finite (s : bool) (m : positive) (e : Z) :
  valid_binary (S754_finite s m e) = true ->
  (Zpos (digits2_pos m) <= 53 /\ -1074 <= e <= 971
   /\ (Zpos (digits2_pos m) = 53 \/ e = -1074))%Z.
Proof.
  cbn [SpecFloat.valid_binary]. unfold bounded, canonical_mantissa.
  intros H. apply andb_true_iff in H as [H1 H2].
  apply Z.eqb_eq in H1. apply Z.leb_le in H2.
  revert H1 H2. unfold fexp, emin, prec, emax. lia.
Qed.

Lemma SF2R_finite_pos (m : positive) (e : Z) :
  0 < SF2R (S754_finite false m e).
Proof.
  cbn [SF2R]. apply Rmult_lt_0_compat; [apply IZR_lt; lia|apply bpow_gt_0].
Qed.

Lemma Rabs_SF2R_finite (s : bool) (m : positive) (e : Z) :
  Rabs (SF2R (S754_finite s m e)) = IZR (Zpos m) * bpow e.
Proof.
  pose proof (SF2R_finite_pos m e) as H. cbn [SF2R] in H |- *.
  destruct s; [rewrite Rabs_Ropp|]; apply Rabs_pos_eq; lra.
Qed.

Lemma roundResult_finite (sx : bool) (m e : Z) :
  (0 <= m)%Z ->
  SFfinite (roundResult sx m e) = true ->
  Rabs (SF2R (roundResult sx m e)) = IZR m * bpow e
  /\ SFsign (roundResult sx m e) = sx.
Proof.
  intros Hm. unfold roundResult. destruct m as [|p|p]; try lia.
  - intros _. cbn. rewrite Rabs_R0. split; [lra|reflexivity].
  - destruct (e <=? 971)%Z; [|discriminate]. intros _.
    split; [apply Rabs_SF2R_finite|reflexivity].
Qed.

Lemma roundResult_is_finite (sx : bool) (m e : Z) :
  (0 <= m)%Z -> (e <= 971)%Z -> SFfinite (roundResult sx m e) = true.
Proof.
  intros Hm He. unfold roundResult. destruct m as [|p|p]; try lia;
    [reflexivity|].
  apply Z.leb_le in He. rewrite He. reflexivity.
Qed.

Lemma roundResult_not_nan (sx : bool) (m e : Z) :
  (0 <= m)%Z -> roundResult sx m e <> S754_nan.
Proof.
  intros Hm. unfold roundResult. destruct m as [|p|p]; try lia;
    [discriminate|]. destruct (e <=? 971)%Z; discriminate.
Qed.

(** *** Multiplication *)

Lemma digits_mul (mx my : positive) :
  (Zpos (digits2_pos mx) + Zpos (digits2_pos my) - 1
   <= Zpos (digits2_pos (mx * my)))%Z.
Proof.
  pose proof (digits2_pos_bounds mx) as [Hx _].
  pose proof (digits2_pos_bounds my) as [Hy _].
  pose proof (digits2_pos_bounds (mx * my)) as [_ Hxy].
  set (dx := Zpos (digits2_pos mx)) in *.
  set (dy := Zpos (digits2_pos my)) in *.
  set (d := Zpos (digits2_pos (mx * my))) in *.
  assert (1 <= dx)%Z by (subst dx; lia).
  assert (1 <= dy)%Z by (subst dy; lia).
  assert (2 ^ (dx - 1 + (dy - 1)) < 2 ^ d)%Z as Hlt.
  { rewrite Z.pow_add_r by lia. rewrite Pos2Z.inj_mul in Hxy.
    apply Z.le_lt_trans with (Zpos mx * Zpos my)%Z; [|exact Hxy].
    apply Z.mul_le_mono_nonneg; try lia;
      apply Z.pow_nonneg; lia. }
  apply Z.pow_lt_mono_r_iff in Hlt; subst d; lia.
Qed.

Lemma SFmul_correct (a b : spec_float) :
  valid_binary a = true -> valid_binary b = true ->
  SFfinite a = true -> SFfinite b = true ->
  rounds (xorb (SFsign a) (SFsign b)) (Rabs (SF2R a) * Rabs (SF2R b))
         (SF64mul a b).
Proof.
  intros Va Vb Fa Fb. unfold rounds.
  assert (0 <= eta) as Heta
    by (unfold eta; pose proof (bpow_gt_0 (-1074)); lra).
  destruct a as [sa|sa| |sa ma ea]; try discriminate;
    destruct b as [sb|sb| |sb mb eb]; try discriminate;
    cbn [SF64mul SFmul SFsign];
    try (exists 0%Z, 0%Z; cbn [roundResult SF2R];
         rewrite ?Rabs_R0, ?Rmult_0_l, ?Rmult_0_r, ?Rminus_0_r, ?Rabs_R0;
         repeat split; [lia|lra|lia]).
  rewrite !Rabs_SF2R_finite.
  apply valid_finite in Va as (Ha1 & Ha2 & Ha3).
  apply valid_finite in Vb as (Hb1 & Hb2 & Hb3).
  apply binary_round_aux_correct.
  - lia.
  - cbn [loc_ok]. rewrite Pos2Z.inj_mul, mult_IZR, bpow_plus. ring.
  - cbn [Zdigits2]. pose proof (digits_mul ma mb).
    unfold fexp, emin, prec, emax. lia.
Qed.

End RoundedProducts.

(* ================================================================== *)
(** ** Rounding: sums *)
(* ================================================================== *)

Section RoundedSums.

Local Open Scope R_scope.

Lemma digits_value (m : positive) (e : Z) :
  bpow (Zpos (digits2_pos m) - 1 + e) <= IZR (Zpos m) * bpow e
  < bpow (Zpos (digits2_pos m) + e).
Proof.
  pose proof (Zdigits2_bounds (Zpos m) ltac:(lia)) as [H1 H2].
  cbn [Zdigits2] in H1, H2. rewrite !bpow_plus.
  pose proof (bpow_gt_0 e). split; nra.
Qed.

Lemma digits_value_eq (m1 m2 : positive) (e1 e2 : Z) :
  IZR (Zpos m1) * bpow e1 = IZR (Zpos m2) * bpow e2 ->
  (Zpos (digits2_pos m1) + e1 = Zpos (digits2_pos m2) + e2)%Z.
Proof.
  intros E. pose proof (digits_value m1 e1) as [A1 B1].
  pose proof (digits_value m2 e2) as [A2 B2].
  assert (bpow (Zpos (digits2_pos m1) - 1 + e1)
          < bpow (Zpos (digits2_pos m2) + e2)) as H1 by lra.
  assert (bpow (Zpos (digits2_pos m2) - 1 + e2)
          < bpow (Zpos (digits2_pos m1) + e1)) as H2 by lra.
  apply bpow_lt_inv in H1, H2. lia.
Qed.

Lemma iter_xO (m d : positive) :
  Zpos (Pos.iter xO m d) = (Zpos m * 2 ^ Zpos d)%Z.
Proof.
  change (Pos.iter xO m d) with (shift_pos d m).
  rewrite shift_pos_correct.
  change (Zpower_pos 2 d) with (2 ^ Zpos d)%Z. lia.
Qed.

Lemma shl_align_correct (mx : positive) (ex ex' : Z) :
  IZR (Zpos (shl_align mx ex ex').1) * bpow (shl_align mx ex ex').2
  = IZR (Zpos mx) * bpow ex
  /\ (shl_align mx ex ex').2 = Z.min ex ex'.
Proof.
  unfold shl_align. destruct (ex' - ex)%Z as [|d|d] eqn:E; cbn [fst snd].
  - split; [reflexivity|lia].
  - split; [reflexivity|lia].
  - split; [|lia]. rewrite iter_xO, mult_IZR.
    rewrite <- (bpow_IZR (Zpos d)) by lia.
    replace (bpow ex) with (bpow (Zpos d + ex')) by (f_equal; lia).
    rewrite bpow_plus. ring.
Qed.

Lemma binary_round_correct (s : bool) (m : positive) (e : Z) :
  rounds s (IZR (Zpos m) * bpow e) (binary_round prec emax s m e).
Proof.
  unfold binary_round.
  pose proof (shl_align_correct m e
                (fexp prec emax (Zpos (digits2_pos m) + e))) as [Hv He].
  destruct (shl_align m e (fexp prec emax (Zpos (digits2_pos m) + e)))
    as [mz ez]. cbn [fst snd] in Hv, He.
  rewrite <- Hv. apply binary_round_aux_correct.
  - lia.
  - reflexivity.
  - cbn [Zdigits2]. rewrite (digits_value_eq mz m ez e Hv). lia.
Qed.

(** *** Addition of two numbers that are not negative *)

Lemma SFadd_correct (a b : spec_float) :
  valid_binary a = true -> valid_binary b = true ->
  SFfinite a = true -> SFfinite b = true ->
  SFsign a = false -> SFsign b = false ->
  rounds false (SF2R a + SF2R b) (SF64add a b).
Proof.
  intros Va Vb Fa Fb Sa Sb.
  assert (0 <= eta) as Heta
    by (unfold eta; pose proof (bpow_gt_0 (-1074)); lra).
  assert (0 < ulp52) as Hu by apply bpow_gt_0.
  assert (forall m e, valid_binary (S754_finite false m e) = true ->
            rounds false (IZR (Zpos m) * bpow e) (S754_finite false m e))
    as Hself.
  { intros m e V. apply valid_finite in V as (_ & V & _).
    exists (Zpos m), e. cbn [roundResult].
    replace (e <=? 971)%Z with true by (symmetry; apply Z.leb_le; lia).
    split; [reflexivity|]. split; [lia|]. split; [|lia].
    rewrite Rminus_diag, Rabs_R0.
    pose proof (SF2R_finite_pos m e) as Hp. cbn [SF2R] in Hp. nra. }
  destruct a as [sa|sa| |sa ma ea]; try discriminate;
    destruct b as [sb|sb| |sb mb eb]; try discriminate;
    cbn [SFsign] in Sa, Sb; subst sa sb;
    cbn [SF64add SFadd SF2R].
  - exists 0%Z, 0%Z. rewrite Rplus_0_l, Rmult_0_l, Rminus_0_r, Rabs_R0.
    cbn [roundResult]. repeat split; try lia; lra.
  - rewrite Rplus_0_l. apply Hself, Vb.
  - rewrite Rplus_0_r. apply Hself, Va.
  - pose proof (shl_align_correct ma ea (Z.min ea eb)) as [Hva Hea].
    pose proof (shl_align_correct mb eb (Z.min ea eb)) as [Hvb Heb].
    destruct (shl_align ma ea (Z.min ea eb)) as [pa ea'].
    destruct (shl_align mb eb (Z.min ea eb)) as [pb eb'].
    cbn [fst snd cond_Zopp binary_normalize Z.add] in *.
    assert (ea' = Z.min ea eb) as -> by lia.
    assert (eb' = Z.min ea eb) as -> by lia.
    rewrite <- Hva, <- Hvb, <- Rmult_plus_distr_r, <- plus_IZR.
    change (Zpos pa + Zpos pb)%Z with (Zpos (pa + pb)).
    apply binary_round_correct.
Qed.

End RoundedSums.

(* ================================================================== *)
(** ** Rounding: quotients and square roots *)
(* ================================================================== *)

Section RoundedQuotientsAndRoots.

Local Open Scope R_scope.

Lemma fexp_mono (a b : Z) :
  (a <= b)%Z -> (fexp prec emax a <= fexp prec emax b)%Z.
Proof. unfold fexp, emin, prec, emax. lia. Qed.

Lemma shifted_mantissa (m s : Z) :
  (0 <= s)%Z ->
  match s with
  | Zpos _ => Z.shiftl m s
  | Z0 => m
  | Zneg _ => 0%Z
  end = (m * 2 ^ s)%Z.
Proof.
  intros Hs. destruct s as [|p|p]; try lia.
  apply Z.shiftl_mul_pow2. lia.
Qed.

(** *** Division *)

Lemma SFdiv_correct (a : spec_float) (sb : bool) (mb : positive) (eb : Z) :
  SFfinite a = true ->
  let b := S754_finite sb mb eb in
  rounds (xorb (SFsign a) sb) (Rabs (SF2R a) / Rabs (SF2R b)) (SF64div a b).
Proof.
  intros Fa b. subst b. unfold rounds.
  assert (0 <= eta) as Heta
    by (unfold eta; pose proof (bpow_gt_0 (-1074)); lra).
  rewrite Rabs_SF2R_finite.
  destruct a as [sa|sa| |sa ma ea]; try discriminate;
    cbn [SF64div SFdiv SFsign].
  { exists 0%Z, 0%Z. cbn [roundResult SF2R].
    rewrite Rabs_R0. unfold Rdiv. rewrite !Rmult_0_l, Rminus_0_r, Rabs_R0.
    repeat split; [lia|lra|lia]. }
  rewrite Rabs_SF2R_finite.
  unfold SFdiv_core_binary. cbn [Zdigits2].
  set (d1 := Zpos (digits2_pos ma)). set (d2 := Zpos (digits2_pos mb)).
  set (e' := Z.min (fexp prec emax (d1 + ea - (d2 + eb))) (ea - eb)).
  rewrite (shifted_mantissa (Zpos ma) (ea - eb - e')) by lia.
  set (m' := (Zpos ma * 2 ^ (ea - eb - e'))%Z).
  pose proof (Z_div_mod m' (Zpos mb) ltac:(lia)) as Hdiv.
  destruct (Z.div_eucl m' (Zpos mb)) as [q r]. destruct Hdiv as [Hm' Hr].
  pose proof (bpow_gt_0 e') as Hbe'.
  pose proof (bpow_gt_0 ea) as Hbea.
  pose proof (bpow_gt_0 eb) as Hbeb.
  assert (0 < IZR (Zpos ma)) as Hma by (apply IZR_lt; lia).
  assert (0 < IZR (Zpos mb)) as Hmb by (apply IZR_lt; lia).
  assert (0 <= m')%Z as Hm'0.
  { subst m'. apply Z.mul_nonneg_nonneg; [lia|apply Z.pow_nonneg; lia]. }
  assert (0 <= q)%Z as Hq by nia.
  set (x := IZR (Zpos ma) * bpow ea / (IZR (Zpos mb) * bpow eb)).
  assert (x = (IZR q + IZR r / IZR (Zpos mb)) * bpow e') as Hx.
  { subst x. replace (bpow ea) with (bpow (ea - eb - e') * bpow eb * bpow e')
      by (rewrite <- !bpow_plus; f_equal; lia).
    rewrite (bpow_IZR (ea - eb - e')) by lia.
    replace (IZR (Zpos ma) * (IZR (2 ^ (ea - eb - e')) * bpow eb * bpow e'))
      with (IZR m' * bpow eb * bpow e')
      by (subst m'; rewrite mult_IZR; ring).
    rewrite Hm', plus_IZR, mult_IZR. field. lra. }
  assert (0 <= IZR r / IZR (Zpos mb) < 1) as Hfrac.
  { split.
    - apply Rmult_le_pos; [apply IZR_le; lia|].
      apply Rlt_le, Rinv_0_lt_compat, Hmb.
    - apply Rmult_lt_reg_r with (IZR (Zpos mb)); [exact Hmb|].
      unfold Rdiv. rewrite Rmult_assoc, Rinv_l by lra.
      rewrite Rmult_1_r, Rmult_1_l. apply IZR_lt. lia. }
  apply binary_round_aux_correct.
  - exact Hq.
  - fold x. rewrite Hx.
    assert (r = 0%Z -> IZR r / IZR (Zpos mb) = 0) as Hr0.
    { intros ->. unfold Rdiv. apply Rmult_0_l. }
    assert (r <> 0%Z -> 0 < IZR r / IZR (Zpos mb)) as Hr1.
    { intros Hne. apply Rmult_lt_0_compat;
        [apply IZR_lt; lia|apply Rinv_0_lt_compat, Hmb]. }
    unfold new_location, new_location_even, new_location_odd.
    destruct (Z.even (Zpos mb)); destruct (Z.eqb_spec r 0) as [E|E];
      cbn [loc_ok]; try (rewrite (Hr0 E); ring);
      specialize (Hr1 E); nra.
  - (* enough digits in the quotient *)
    assert (d1 + ea - (d2 + eb) <= Zdigits2 q + e')%Z as Hd.
    { pose proof (Zdigits2_succ_le q Hq) as Hq1.
      pose proof (digits_value ma ea) as [Ha _].
      pose proof (digits_value mb eb) as [_ Hb].
      fold d1 in Ha. fold d2 in Hb.
      assert (x * (IZR (Zpos mb) * bpow eb) = IZR (Zpos ma) * bpow ea) as Hxb.
      { subst x. field. lra. }
      assert (x < bpow (Zdigits2 q + e')) as Hxq.
      { rewrite Hx, bpow_plus. nra. }
      assert (0 < x) as Hx0.
      { subst x. apply Rmult_lt_0_compat; [nra|].
        apply Rinv_0_lt_compat. nra. }
      assert (bpow (d1 - 1 + ea) < bpow (Zdigits2 q + e' + (d2 + eb))) as Hlt.
      { rewrite (bpow_plus (Zdigits2 q + e')).
        pose proof (bpow_gt_0 (Zdigits2 q + e')).
        pose proof (bpow_gt_0 (d2 + eb)). nra. }
      apply bpow_lt_inv in Hlt. lia. }
    apply fexp_mono in Hd. lia.
Qed.

(** *** Square root *)

Lemma sqrt_bpow_double (e : Z) : R_sqrt.sqrt (bpow (2 * e)) = bpow e.
Proof.
  replace (2 * e)%Z with (e + e)%Z by lia. rewrite bpow_plus.
  apply sqrt_square. apply Rlt_le, bpow_gt_0.
Qed.

Lemma SFsqrt_correct (a : spec_float) :
  SFfinite a = true -> SFsign a = false ->
  rounds false (R_sqrt.sqrt (SF2R a)) (SF64sqrt a).
Proof.
  intros Fa Sa. unfold rounds.
  assert (0 <= eta) as Heta
    by (unfold eta; pose proof (bpow_gt_0 (-1074)); lra).
  destruct a as [sa|sa| |sa ma ea]; try discriminate;
    cbn [SFsign] in Sa; subst sa; cbn [SF64sqrt SFsqrt SF2R].
  { exists 0%Z, 0%Z. cbn [roundResult]. rewrite sqrt_0.
    rewrite Rmult_0_l, Rminus_0_r, Rabs_R0.
    repeat split; [lia|lra|lia]. }
  unfold SFsqrt_core_binary. cbn [Zdigits2].
  set (d := Zpos (digits2_pos ma)).
  set (e' := Z.min (fexp prec emax (Z.div2 (d + ea + 1))) (Z.div2 ea)).
  assert (2 * e' <= ea)%Z as He'.
  { subst e'. pose proof (Z.div2_div ea) as Hdd.
    pose proof (Z.mul_div_le ea 2 ltac:(lia)). lia. }
  rewrite (shifted_mantissa (Zpos ma) (ea - 2 * e')) by lia.
  set (m' := (Zpos ma * 2 ^ (ea - 2 * e'))%Z).
  assert (0 <= m')%Z as Hm'0.
  { subst m'. apply Z.mul_nonneg_nonneg; [lia|apply Z.pow_nonneg; lia]. }
  pose proof (Z.sqrtrem_spec m' Hm'0) as Hsq.
  destruct (Z.sqrtrem m') as [q r]. destruct Hsq as [Hm' Hr].
  assert (0 <= q)%Z as Hq by lia.
  pose proof (bpow_gt_0 e') as Hbe'.
  assert (R_sqrt.sqrt (IZR (Zpos ma) * bpow ea)
          = R_sqrt.sqrt (IZR m') * bpow e') as Hx.
  { rewrite <- (sqrt_bpow_double e'), <- sqrt_mult.
    - f_equal. subst m'. rewrite mult_IZR, <- bpow_IZR by lia.
      rewrite Rmult_assoc, <- bpow_plus. do 2 f_equal. lia.
    - apply IZR_le. exact Hm'0.
    - apply Rlt_le, bpow_gt_0. }
  assert (IZR q <= R_sqrt.sqrt (IZR m') < IZR q + 1) as Hqs.
  { assert (0 <= IZR q) as Hq0 by (apply IZR_le; exact Hq).
    split.
    - rewrite <- (sqrt_square (IZR q)) at 1 by exact Hq0.
      apply sqrt_le_1_alt. rewrite <- mult_IZR. apply IZR_le. lia.
    - rewrite <- (sqrt_square (IZR q + 1)) by lra.
      apply sqrt_lt_1_alt. split; [apply IZR_le; exact Hm'0|].
      rewrite <- plus_IZR, <- mult_IZR. apply IZR_lt. lia. }
  rewrite Hx.
  apply binary_round_aux_correct.
  - exact Hq.
  - destruct (Z.eqb_spec r 0) as [E|E]; cbn [loc_ok].
    + f_equal. replace m' with (q * q)%Z by lia. rewrite mult_IZR.
      apply sqrt_square. apply IZR_le. exact Hq.
    + assert (IZR q < R_sqrt.sqrt (IZR m')) as Hlt.
      { assert (0 <= IZR q) as Hq0 by (apply IZR_le; exact Hq).
        rewrite <- (sqrt_square (IZR q)) at 1 by exact Hq0.
        apply sqrt_lt_1_alt. split; [nra|].
        rewrite <- mult_IZR. apply IZR_lt. lia. }
      nra.
  - assert (Z.div2 (d + ea + 1) <= Zdigits2 q + e')%Z as Hd.
    { pose proof (Zdigits2_succ_le q Hq) as Hq1.
      pose proof (Zdigits2_nonneg q) as Hdq.
      assert (bpow (d - 1) <= IZR (Zpos ma)) as Hma.
      { pose proof (Zdigits2_bounds (Zpos ma) ltac:(lia)) as [H _].
        exact H. }
      assert (bpow (d - 1 + (ea - 2 * e')) <= IZR m') as Hm'lo.
      { subst m'. rewrite mult_IZR, <- (bpow_IZR (ea - 2 * e')) by lia.
        rewrite bpow_plus. pose proof (bpow_gt_0 (ea - 2 * e')). nra. }
      assert (IZR m' < bpow (Zdigits2 q + Zdigits2 q)) as Hm'hi.
      { rewrite bpow_plus.
        assert (0 <= R_sqrt.sqrt (IZR m')) as Hs0 by apply sqrt_pos.
        rewrite <- (sqrt_sqrt (IZR m')) by (apply IZR_le; exact Hm'0).
        pose proof (bpow_gt_0 (Zdigits2 q)). nra. }
      assert (bpow (d - 1 + (ea - 2 * e'))
              < bpow (Zdigits2 q + Zdigits2 q)) as Hlt by lra.
      apply bpow_lt_inv in Hlt.
      rewrite Z.div2_div. apply Z.lt_succ_r.
      apply Z.div_lt_upper_bound; lia. }
    apply fexp_mono in Hd. lia.
Qed.

End RoundedQuotientsAndRoots.

(* ================================================================== *)
(** ** Rounding: reading a rounded value, and the order of values *)
(* ================================================================== *)

Section RoundingUse.

Local Open Scope R_scope.

Lemma rounds_finite (s : bool) (X : R) (r : spec_float) :
  rounds s X r -> X < bpow 1023 -> SFfinite r = true.
Proof.
  intros (m & e & -> & Hm & _ & He) HX.
  apply roundResult_is_finite; [exact Hm|exact (He HX)].
Qed.

Lemma rounds_value (s : bool) (X : R) (r : spec_float) :
  rounds s X r -> SFfinite r = true ->
  Rabs (Rabs (SF2R r) - X) <= ulp52 * X + eta /\ SFsign r = s.
Proof.
  intros (m & e & -> & Hm & Herr & _) Hf.
  destruct (roundResult_finite s m e Hm Hf) as [-> Hs].
  split; [exact Herr|exact Hs].
Qed.

Lemma rounds_not_nan (s : bool) (X : R) (r : spec_float) :
  rounds s X r -> r <> S754_nan.
Proof.
  intros (m & e & -> & Hm & _). apply roundResult_not_nan, Hm.
Qed.

Lemma rounds_sign (s : bool) (X : R) (r : spec_float) :
  rounds s X r -> SFsign r = s.
Proof.
  intros (m & e & -> & Hm & _). unfold roundResult.
  destruct m as [|p|p]; try lia; [reflexivity|].
  destruct (e <=? 971)%Z; reflexivity.
Qed.

Lemma SF2R_nonneg (r : spec_float) : SFsign r = false -> 0 <= SF2R r.
Proof.
  destruct r as [s|s| |s m e]; cbn [SFsign SF2R]; intros E; try lra.
  subst s. pose proof (SF2R_finite_pos m e) as H. cbn [SF2R] in H. lra.
Qed.

(** The value of a rounding with the sign bit clear. *)
Lemma rounds_pos_value (X : R) (r : spec_float) :
  rounds false X r -> SFfinite r = true ->
  0 <= SF2R r /\ X - (ulp52 * X + eta) <= SF2R r <= X + (ulp52 * X + eta).
Proof.
  intros Hr Hf. destruct (rounds_value false X r Hr Hf) as [Hv Hs].
  pose proof (SF2R_nonneg r Hs) as H0.
  rewrite (Rabs_pos_eq _ H0) in Hv. apply Rabs_le_inv in Hv.
  split; [exact H0|lra].
Qed.

(** *** The order of two values that are not negative *)

Lemma finite_lt_exp (m1 m2 : positive) (e1 e2 : Z) :
  valid_binary (S754_finite false m1 e1) = true ->
  valid_binary (S754_finite false m2 e2) = true ->
  (e1 < e2)%Z ->
  IZR (Zpos m1) * bpow e1 < IZR (Zpos m2) * bpow e2.
Proof.
  intros V1 V2 He.
  apply valid_finite in V1 as (D1 & E1 & _).
  apply valid_finite in V2 as (D2 & E2 & C2).
  pose proof (digits_value m1 e1) as [_ H1].
  pose proof (digits_value m2 e2) as [H2 _].
  assert (bpow (Zpos (digits2_pos m1) + e1)
          <= bpow (Zpos (digits2_pos m2) - 1 + e2)) as Hle
    by (apply bpow_le; lia).
  lra.
Qed.

Lemma SFcompare_nonneg (a b : spec_float) :
  valid_binary a = true -> valid_binary b = true ->
  SFnonneg_finite a = true -> SFnonneg_finite b = true ->
  match SFcompare a b with
  | Some Lt => SF2R a < SF2R b
  | Some Eq => SF2R a = SF2R b
  | Some Gt => SF2R b < SF2R a
  | None => False
  end.
Proof.
  intros Va Vb Fa Fb.
  destruct a as [sa|sa| |[|] ma ea]; try discriminate;
    destruct b as [sb|sb| |[|] mb eb]; try discriminate;
    cbn [SFcompare].
  - reflexivity.
  - apply SF2R_finite_pos.
  - apply SF2R_finite_pos.
  - cbn [SF2R]. destruct (Z.compare_spec ea eb) as [E|E|E].
    + subst eb. change (Pos.compare_cont Eq ma mb) with (Pos.compare ma mb).
      pose proof (bpow_gt_0 ea).
      destruct (Pos.compare_spec ma mb) as [E|E|E].
      * subst mb. reflexivity.
      * apply Rmult_lt_compat_r; [lra|]. apply IZR_lt. lia.
      * apply Rmult_lt_compat_r; [lra|]. apply IZR_lt. lia.
    + apply finite_lt_exp; assumption.
    + apply finite_lt_exp; assumption.
Qed.

Lemma SFleb_nonneg (a b : spec_float) :
  valid_binary a = true -> valid_binary b = true ->
  SFnonneg_finite a = true -> SFnonneg_finite b = true ->
  SFleb a b = true <-> SF2R a <= SF2R b.
Proof.
  intros Va Vb Fa Fb. pose proof (SFcompare_nonneg a b Va Vb Fa Fb) as H.
  unfold SFleb. destruct (SFcompare a b) as [[| |]|]; try contradiction;
    split; intros H'; try reflexivity; try discriminate; lra.
Qed.

Lemma SFltb_nonneg (a b : spec_float) :
  valid_binary a = true -> valid_binary b = true ->
  SFnonneg_finite a = true -> SFnonneg_finite b = true ->
  SFltb a b = true <-> SF2R a < SF2R b.
Proof.
  intros Va Vb Fa Fb. pose proof (SFcompare_nonneg a b Va Vb Fa Fb) as H.
  unfold SFltb. destruct (SFcompare a b) as [[| |]|]; try contradiction;
    split; intros H'; try reflexivity; try discriminate; lra.
Qed.

End RoundingUse.

(* ================================================================== *)
(** ** Rounding: the binary64 operations of the program *)
(* ================================================================== *)

Section FloatRounding.

Local Open Scope R_scope.

Lemma finite_is_finite (x : float) : is_finite x = finite x.
Proof.
  unfold is_finite, is_nan, is_infinity, finite.
  rewrite !FloatAxioms.eqb_spec, FloatAxioms.abs_spec.
  change (Prim2SF infinity) with (S754_infinity false).
  destruct (Prim2SF x) as [s|s| |s m e]; try reflexivity.
  - destruct s; reflexivity.
  - unfold SFeqb. cbn [SFabs SFcompare SFfinite].
    rewrite Z.compare_refl, Pos.compare_cont_refl.
    destruct s; reflexivity.
Qed.

Lemma fmul_rounds (x y : float) :
  finite x = true -> finite y = true ->
  rounds (xorb (SFsign (Prim2SF x)) (SFsign (Prim2SF y)))
         (Rabs (F2R x) * Rabs (F2R y)) (Prim2SF (x * y)%float).
Proof.
  intros Hx Hy. rewrite FloatAxioms.mul_spec.
  apply SFmul_correct; try assumption; apply Prim2SF_valid.
Qed.

Lemma fsquare_rounds (x : float) :
  finite x = true ->
  rounds false (Rabs (F2R x) * Rabs (F2R x)) (Prim2SF (x * x)%float).
Proof.
  intros Hx. pose proof (fmul_rounds x x Hx Hx) as H.
  rewrite xorb_nilpotent in H. exact H.
Qed.

Lemma fadd_rounds (x y : float) :
  finite x = true -> finite y = true ->
  SFsign (Prim2SF x) = false -> SFsign (Prim2SF y) = false ->
  rounds false (F2R x + F2R y) (Prim2SF (x + y)%float).
Proof.
  intros Hx Hy Sx Sy. rewrite FloatAxioms.add_spec.
  apply SFadd_correct; try assumption; apply Prim2SF_valid.
Qed.

Lemma fdiv_rounds (x y : float) (s : bool) (m : positive) (e : Z) :
  finite x = true -> Prim2SF y = S754_finite s m e ->
  rounds (xorb (SFsign (Prim2SF x)) s)
         (Rabs (F2R x) / Rabs (F2R y)) (Prim2SF (x / y)%float).
Proof.
  intros Hx Hy. rewrite FloatAxioms.div_spec. unfold F2R. rewrite Hy.
  apply SFdiv_correct. exact Hx.
Qed.

Lemma fsqrt_rounds (x : float) :
  finite x = true -> SFsign (Prim2SF x) = false ->
  rounds false (R_sqrt.sqrt (F2R x)) (Prim2SF (sqrt x)).
Proof.
  intros Hx Sx. rewrite FloatAxioms.sqrt_spec.
  apply SFsqrt_correct; assumption.
Qed.

(** What a rounding with the sign bit clear gives when it is finite. *)
Lemma rounds_float (X : R) (r : float) :
  rounds false X (Prim2SF r) -> finite r = true ->
  SFsign (Prim2SF r) = false /\ 0 <= F2R r
  /\ X - (ulp52 * X + eta) <= F2R r <= X + (ulp52 * X + eta).
Proof.
  intros Hr Hf. split; [exact (rounds_sign _ _ _ Hr)|].
  exact (rounds_pos_value X _ Hr Hf).
Qed.

Lemma rounds_pos (X : R) (r : spec_float) : rounds false X r -> SFpos r = true.
Proof.
  intros (m & e & -> & Hm & _). unfold roundResult.
  destruct m as [|p|p]; try lia; [reflexivity|].
  destruct (e <=? 971)%Z; reflexivity.
Qed.

Lemma SFpos_sign (r : spec_float) : SFpos r = true -> SFsign r = false.
Proof. destruct r as [[|]|[|]| |[|] m e]; try discriminate; reflexivity. Qed.

Lemma SFadd_pos (a b : spec_float) :
  valid_binary a = true -> valid_binary b = true ->
  SFpos a = true -> SFpos b = true ->
  SFpos (SF64add a b) = true
  /\ (SFfinite (SF64add a b) = true -> SFfinite a = true /\ SFfinite b = true).
Proof.
  intros Va Vb Pa Pb.
  destruct a as [[|]|[|]| |[|] ma ea]; try discriminate;
    destruct b as [[|]|[|]| |[|] mb eb]; try discriminate;
    try (split; [reflexivity|intros H; try discriminate H;
                              split; reflexivity]).
  split; [|intros _; split; reflexivity].
  eapply rounds_pos. apply SFadd_correct; try assumption; reflexivity.
Qed.

Lemma SFsqrt_pos (a : spec_float) :
  SFpos a = true ->
  SFpos (SF64sqrt a) = true
  /\ (SFfinite (SF64sqrt a) = true -> SFfinite a = true).
Proof.
  intros Pa.
  destruct a as [[|]|[|]| |[|] ma ea]; try discriminate;
    try (split; [reflexivity|intros H; try discriminate H; reflexivity]).
  split; [|intros _; reflexivity].
  eapply rounds_pos. apply SFsqrt_correct; reflexivity.
Qed.

(** *** Comparisons of values that are not negative *)

Lemma fleb_nonneg (x y : float) :
  SFnonneg_finite (Prim2SF x) = true -> SFnonneg_finite (Prim2SF y) = true ->
  (x <=? y)%float = true <-> F2R x <= F2R y.
Proof.
  intros Hx Hy. rewrite FloatAxioms.leb_spec.
  apply SFleb_nonneg; try assumption; apply Prim2SF_valid.
Qed.

Lemma fltb_nonneg (x y : float) :
  SFnonneg_finite (Prim2SF x) = true -> SFnonneg_finite (Prim2SF y) = true ->
  (x <? y)%float = true <-> F2R x < F2R y.
Proof.
  intros Hx Hy. rewrite FloatAxioms.ltb_spec.
  apply SFltb_nonneg; try assumption; apply Prim2SF_valid.
Qed.

Lemma SFpos_finite_nonneg (r : spec_float) :
  SFpos r = true -> SFfinite r = true -> SFnonneg_finite r = true.
Proof. destruct r as [[|]|[|]| |[|] m e]; try discriminate; reflexivity. Qed.

(** A limit between zero and a finite bound is a zero or a positive
    finite number. *)
Lemma between_nonneg (M hi : float) :
  SFfinite (Prim2SF hi) = true ->
  (0 <=? M)%float = true -> (M <=? hi)%float = true ->
  SFnonneg_finite (Prim2SF M) = true.
Proof.
  rewrite !FloatAxioms.leb_spec. change (Prim2SF 0) with (S754_zero false).
  destruct (Prim2SF M) as [s|[|]| |[|] m e]; try reflexivity;
    try discriminate.
  destruct (Prim2SF hi) as [s|[|]| |[|] mh eh]; discriminate.
Qed.

(** *** The constants *)

Lemma ulp52_eq : ulp52 = / 4503599627370496.
Proof.
  assert (bpow (-52) * bpow 52 = 1) as H
    by (rewrite <- bpow_plus; reflexivity).
  rewrite (bpow_IZR 52) in H by lia.
  change (2 ^ 52)%Z with 4503599627370496%Z in H. unfold ulp52. lra.
Qed.

Lemma eta_nonneg : 0 <= eta.
Proof. apply Rlt_le, bpow_gt_0. Qed.

End FloatRounding.

(* ================================================================== *)
(** ** The clamp of the force: its constants as real numbers *)
(* ================================================================== *)

Section Constants.

Local Open Scope R_scope.

Local Abbreviation u := (/ 4503599627370496).
Local Abbreviation G := (F2R 1e-8).

Lemma guard_value :
  Prim2SF 1e-8 = S754_finite false 6044629098073146 (-79).
Proof. vm_compute. reflexivity. Qed.

Lemma slack_value :
  Prim2SF 1.00000000000001 = S754_finite false 4503599627370541 (-52).
Proof. vm_compute. reflexivity. Qed.

Lemma cap_value :
  Prim2SF 1e150 = S754_finite false 5503284107318959 446.
Proof. vm_compute. reflexivity. Qed.

Lemma bpow_52 : bpow 52 = 4503599627370496.
Proof. rewrite bpow_IZR by lia. reflexivity. Qed.

Lemma guard_bounds : bpow (-27) <= G <= 1.
Proof.
  unfold F2R. rewrite guard_value. cbn [SF2R].
  pose proof (bpow_gt_0 (-79)) as Hb.
  assert (bpow (-27) = bpow 52 * bpow (-79)) as ->
    by (rewrite <- bpow_plus; reflexivity).
  rewrite bpow_52. split; [lra|].
  assert (bpow 53 * bpow (-79) <= 1) as H.
  { rewrite <- bpow_plus. change 1 with (bpow 0). apply bpow_le. lia. }
  rewrite (bpow_IZR 53) in H by lia.
  change (2 ^ 53)%Z with 9007199254740992%Z in H. lra.
Qed.

Lemma slack_real : F2R 1.00000000000001 = 1 + 45 * u.
Proof.
  unfold F2R. rewrite slack_value. cbn [SF2R].
  change (bpow (-52)) with ulp52. rewrite ulp52_eq. lra.
Qed.

Lemma cap_real : F2R 1e150 <= bpow 499.
Proof.
  unfold F2R. rewrite cap_value.
  pose proof (digits_value 5503284107318959 446) as [_ H].
  change (Zpos (digits2_pos 5503284107318959) + 446)%Z with 499%Z in H.
  cbn [SF2R]. lra.
Qed.

Lemma eta_le_bpow (e : Z) : (-1074 <= e)%Z -> eta <= bpow e.
Proof. intros He. apply bpow_le, He. Qed.

Lemma guard_pos : 0 < G <= 1.
Proof.
  pose proof guard_bounds as [H1 H2]. pose proof (bpow_gt_0 (-27)). lra.
Qed.

Lemma eta_guard : eta <= u * u * u * (G * G).
Proof.
  pose proof guard_bounds as [H1 _]. pose proof (bpow_gt_0 (-27)) as H0.
  assert (bpow (-27) * bpow (-27) <= G * G) as H2
    by (apply Rmult_le_compat; lra).
  rewrite <- ulp52_eq. unfold ulp52.
  pose proof (bpow_gt_0 (-52)) as Hu.
  assert (eta <= bpow (-52) * bpow (-52) * bpow (-52)
                 * (bpow (-27) * bpow (-27))) as H3.
  { rewrite <- !bpow_plus. apply eta_le_bpow. lia. }
  assert (0 < bpow (-52) * bpow (-52) * bpow (-52)) as Hu3
    by (repeat apply Rmult_lt_0_compat; exact Hu).
  apply Rle_trans with (1 := H3).
  apply Rmult_le_compat_l; lra.
Qed.

(** A finite binary64 value is below [2^1024]. *)
Lemma finite_below_max (r : spec_float) :
  valid_binary r = true -> SFfinite r = true -> Rabs (SF2R r) < bpow 1024.
Proof.
  intros V F. destruct r as [s|s| |s m e]; try discriminate.
  - cbn [SF2R]. rewrite Rabs_R0. apply bpow_gt_0.
  - rewrite Rabs_SF2R_finite. apply valid_finite in V as (D & E & _).
    pose proof (digits_value m e) as [_ H].
    apply Rlt_le_trans with (1 := H). apply bpow_le. lia.
Qed.

(** Bounds that keep the scaled vector away from overflow. *)
Lemma below_overflow (K : R) :
  0 <= K <= bpow 499 ->
  4 * K < bpow 1023 /\ 1000 * (K * K) < bpow 1023.
Proof.
  intros HK.
  assert (bpow 1023 = 33554432 * (bpow 499 * bpow 499)) as ->.
  { rewrite <- bpow_plus. change 1023%Z with (25 + (499 + 499))%Z.
    rewrite (bpow_plus 25). rewrite (bpow_IZR 25) by lia. reflexivity. }
  pose proof (bpow_ge_1 499 ltac:(lia)) as HW.
  assert (bpow 499 * 1 <= bpow 499 * bpow 499) as HWW
    by (apply Rmult_le_compat_l; lra).
  assert (K * K <= bpow 499 * bpow 499) as HKK
    by (apply Rmult_le_compat; lra).
  split; lra.
Qed.

End Constants.

(* ================================================================== *)
(** ** The clamp of the force: the error analysis on real numbers *)
(* ================================================================== *)

Section ClampAnalysis.

Local Open Scope R_scope.

(** The error analysis of [clampMagnitude] on real numbers.  [u] is the
    relative error of one rounding, [2^-52], and [eta] its absolute error
    near zero; [G] is the guard [1e-8] below which nothing is scaled. *)

Local Abbreviation u := (/ 4503599627370496).
Local Abbreviation G := (F2R 1e-8).

Local Ltac constants :=
  pose proof eta_nonneg as Heta0;
  pose proof guard_pos as HG;
  pose proof eta_guard as Heta.

Lemma sq_le (a b : R) : 0 <= a -> a <= b -> a * a <= b * b.
Proof. intros Ha Hab. apply Rmult_le_compat; lra. Qed.

Lemma sq_le_inv (a b : R) : 0 <= a -> 0 <= b -> a * a <= b * b -> a <= b.
Proof.
  intros Ha Hb H. destruct (Rle_lt_dec a b) as [Hle|Hlt]; [exact Hle|].
  assert (b * b < a * a); [|lra].
  apply Rle_lt_trans with (b * a).
  - apply Rmult_le_compat_l; lra.
  - apply Rmult_lt_compat_r; lra.
Qed.

Lemma eta_small (K : R) :
  G <= K -> eta <= u * K /\ eta <= u * (K * K) /\ eta <= u * u * (K * K).
Proof.
  constants.
  intros HK.
  assert (G * G <= G * 1) as HG2 by (apply Rmult_le_compat_l; lra).
  assert (G * G <= K * K) as HGK by (apply sq_le; lra).
  assert (0 <= G * G) as HG0 by (apply Rmult_le_pos; lra).
  repeat split; lra.
Qed.

Lemma round_down_inv (a b : R) :
  0 <= a -> a * (1 - u) - eta <= b -> a <= (b + eta) * (1 + 2 * u).
Proof.
  constants. intros Ha Hab. lra. Qed.

(** From a rounded square root back to the exact sum of squares. *)
Lemma norm_below_magnitude
    (x1 x2 x3 p1 p2 p3 s1 s2 r m : R) :
  x1 * x1 * (1 - u) - eta <= p1 ->
  x2 * x2 * (1 - u) - eta <= p2 ->
  x3 * x3 * (1 - u) - eta <= p3 ->
  0 <= p1 -> 0 <= p2 -> 0 <= p3 ->
  (p1 + p2) * (1 - u) - eta <= s1 ->
  0 <= s1 ->
  (s1 + p3) * (1 - u) - eta <= s2 ->
  0 <= r -> r * r = s2 ->
  r * (1 - u) - eta <= m ->
  G <= m ->
  x1 * x1 + x2 * x2 + x3 * x3 <= m * m * (1 + 23 * u).
Proof.
  constants.
  intros H1 H2 H3 Hp1 Hp2 Hp3 Hs1 Hs10 Hs2 Hr Hrr Hm HGm.
  destruct (eta_small m HGm) as (E1 & E2 & _).
  assert (0 <= m * m) as Hmm by (apply Rmult_le_pos; lra).
  assert (r <= m * (1 + 4 * u)) as Hr1.
  { pose proof (round_down_inv r m Hr Hm). lra. }
  assert (s2 <= m * m * (1 + 9 * u)) as Hs2'.
  { rewrite <- Hrr. pose proof (sq_le r _ Hr Hr1). lra. }
  assert (s1 + p3 <= m * m * (1 + 13 * u)) as Hs1'.
  { pose proof (round_down_inv (s1 + p3) s2 ltac:(lra) Hs2). lra. }
  assert (p1 + p2 + p3 <= m * m * (1 + 17 * u)) as Hp.
  { pose proof (round_down_inv (p1 + p2) s1 ltac:(lra) Hs1). lra. }
  assert (0 <= x1 * x1) as S1 by apply Rle_0_sqr.
  assert (0 <= x2 * x2) as S2 by apply Rle_0_sqr.
  assert (0 <= x3 * x3) as S3 by apply Rle_0_sqr.
  pose proof (round_down_inv (x1 * x1) p1 S1 H1).
  pose proof (round_down_inv (x2 * x2) p2 S2 H2).
  pose proof (round_down_inv (x3 * x3) p3 S3 H3).
  lra.
Qed.

(** The factor, multiplied back by the magnitude, is the limit. *)
Lemma factor_times_magnitude (M K m X t : R) :
  0 <= M <= K -> G <= K -> 0 < m -> eta * m <= u * G ->
  X * m = M -> t <= X + (u * X + eta) ->
  t * m <= K * (1 + 2 * u).
Proof.
  constants.
  intros HM HK Hm Hem HX Ht.
  assert (t * m <= (X + (u * X + eta)) * m) as H
    by (apply Rmult_le_compat_r; lra).
  lra.
Qed.

(** One scaled component, before its rounding. *)
Lemma scaled_component (N K m X t : R) :
  0 <= X -> 0 <= t -> 0 < m -> 0 <= K ->
  X * X <= N -> N <= m * m * (1 + 23 * u) ->
  t * m <= K * (1 + 2 * u) ->
  X * t <= K * (1 + 14 * u).
Proof.
  intros HX Ht Hm HK HXN HN Htm.
  apply sq_le_inv; [apply Rmult_le_pos; lra|lra|].
  assert (0 <= t * t) as Htt by (apply Rmult_le_pos; lra).
  assert (X * X * (t * t) <= m * m * (1 + 23 * u) * (t * t)) as H1
    by (apply Rmult_le_compat_r; lra).
  assert (0 <= t * m) as Htm0 by (apply Rmult_le_pos; lra).
  pose proof (sq_le (t * m) _ Htm0 Htm) as H2.
  assert (0 <= K * K) as HKK by (apply Rmult_le_pos; lra).
  lra.
Qed.

(** The exact sum of the squares of the scaled components, after the
    rounding of each component. *)
Lemma scaled_squares (N K m t X1 X2 X3 a1 a2 a3 : R) :
  0 <= X1 -> 0 <= X2 -> 0 <= X3 -> 0 <= t -> 0 < m -> G <= K ->
  X1 * X1 + X2 * X2 + X3 * X3 = N -> N <= m * m * (1 + 23 * u) ->
  t * m <= K * (1 + 2 * u) ->
  0 <= a1 <= X1 * t + (u * (X1 * t) + eta) ->
  0 <= a2 <= X2 * t + (u * (X2 * t) + eta) ->
  0 <= a3 <= X3 * t + (u * (X3 * t) + eta) ->
  a1 * a1 + a2 * a2 + a3 * a3 <= K * K * (1 + 32 * u).
Proof.
  constants.
  intros HX1 HX2 HX3 Ht Hm HK HN HNm Htm Ha1 Ha2 Ha3.
  assert (0 <= K) as HK0 by lra.
  assert (0 <= K * K) as HKK by (apply Rmult_le_pos; lra).
  assert (G * G <= G * 1) as HG2 by (apply Rmult_le_compat_l; lra).
  assert (0 <= G * G) as HG0 by (apply Rmult_le_pos; lra).
  assert (eta <= u * u * u * K) as HeK by lra.
  assert (eta * K <= u * u * u * K * K) as HeK2
    by (apply Rmult_le_compat_r; lra).
  assert (eta * eta <= (u * u * u * K) * (u * u * u * K)) as Hee
    by (apply Rmult_le_compat; lra).
  assert (forall X, 0 <= X -> X * X <= N -> X * t <= 2 * K) as Hb.
  { intros X HX HXN.
    pose proof (scaled_component N K m X t HX Ht Hm HK0 HXN HNm Htm). lra. }
  assert (0 <= X1 * X1) as S1 by (apply Rmult_le_pos; lra).
  assert (0 <= X2 * X2) as S2 by (apply Rmult_le_pos; lra).
  assert (0 <= X3 * X3) as S3 by (apply Rmult_le_pos; lra).
  pose proof (Hb X1 HX1 ltac:(lra)) as B1.
  pose proof (Hb X2 HX2 ltac:(lra)) as B2.
  pose proof (Hb X3 HX3 ltac:(lra)) as B3.
  assert (forall X a, 0 <= X -> X * t <= 2 * K ->
            0 <= a <= X * t + (u * (X * t) + eta) ->
            a * a <= X * X * (t * t) * ((1 + u) * (1 + u))
                     + 5 * (eta * K) + eta * eta) as Hsq.
  { intros X a HX HXt Ha.
    assert (0 <= X * t) as HXt0 by (apply Rmult_le_pos; lra).
    pose proof (sq_le a _ (proj1 Ha) (proj2 Ha)) as H.
    assert (eta * (X * t) <= eta * (2 * K)) as He
      by (apply Rmult_le_compat_l; lra).
    assert (0 <= eta * K) as HeK0 by (apply Rmult_le_pos; lra).
    lra. }
  pose proof (Hsq X1 a1 HX1 B1 Ha1) as Q1.
  pose proof (Hsq X2 a2 HX2 B2 Ha2) as Q2.
  pose proof (Hsq X3 a3 HX3 B3 Ha3) as Q3.
  assert (0 <= t * t) as Htt by (apply Rmult_le_pos; lra).
  assert (N * (t * t) <= m * m * (1 + 23 * u) * (t * t)) as H1
    by (apply Rmult_le_compat_r; lra).
  assert (0 <= t * m) as Htm0 by (apply Rmult_le_pos; lra).
  pose proof (sq_le (t * m) _ Htm0 Htm) as H2.
  rewrite <- HN in H1. lra.
Qed.

(** The rounded sum of the rounded squares. *)
Lemma rounded_sum_of_squares (K q1 q2 q3 S1 S2 a1 a2 a3 : R) :
  G <= K ->
  a1 * a1 + a2 * a2 + a3 * a3 <= K * K * (1 + 32 * u) ->
  0 <= q1 <= a1 * a1 + (u * (a1 * a1) + eta) ->
  0 <= q2 <= a2 * a2 + (u * (a2 * a2) + eta) ->
  0 <= q3 <= a3 * a3 + (u * (a3 * a3) + eta) ->
  0 <= S1 <= (q1 + q2) + (u * (q1 + q2) + eta) ->
  0 <= S2 <= (S1 + q3) + (u * (S1 + q3) + eta) ->
  S2 <= K * K * (1 + 37 * u).
Proof.
  constants.
  intros HK Ha Hq1 Hq2 Hq3 HS1 HS2.
  destruct (eta_small K HK) as (_ & _ & E2).
  assert (0 <= K * K) as HKK by (apply Rmult_le_pos; lra).
  assert (0 <= a1 * a1) by apply Rle_0_sqr.
  assert (0 <= a2 * a2) by apply Rle_0_sqr.
  assert (0 <= a3 * a3) by apply Rle_0_sqr.
  lra.
Qed.

(** The rounded square root of that sum. *)
Lemma rounded_root (K S2 r F : R) :
  G <= K -> S2 <= K * K * (1 + 37 * u) ->
  0 <= r -> r * r = S2 ->
  F <= r + (u * r + eta) ->
  F <= K * (1 + 22 * u).
Proof.
  constants.
  intros HK HS2 Hr Hrr HF.
  destruct (eta_small K HK) as (E1 & _ & _).
  assert (0 <= K * K) as HKK by (apply Rmult_le_pos; lra).
  assert (r <= K * (1 + 19 * u)) as Hr'.
  { apply sq_le_inv; [exact Hr|lra|]. rewrite Hrr. lra. }
  lra.
Qed.

(** The limit with its slack [1 + 45 * 2^-52], rounded, is above. *)
Lemma rounded_limit (K B : R) :
  G <= K ->
  K * (1 + 45 * u) - (u * (K * (1 + 45 * u)) + eta) <= B ->
  K * (1 + 22 * u) <= B.
Proof.
  constants.
  intros HK HB. destruct (eta_small K HK) as (E1 & _ & _). lra.
Qed.

End ClampAnalysis.

(* ================================================================== *)
(** ** The clamp of the force: the magnitude of the clamped vector *)
(* ================================================================== *)

Section MagnitudeBounds.

Local Open Scope R_scope.

Local Abbreviation u := (/ 4503599627370496).
Local Abbreviation G := (F2R 1e-8).

(** *** The magnitude of a vector, from below *)

Lemma sum_of_squares_class (x1 x2 x3 : float) :
  finite x1 = true -> finite x2 = true -> finite x3 = true ->
  let p1 := (x1 * x1)%float in
  let p2 := (x2 * x2)%float in
  let p3 := (x3 * x3)%float in
  let s1 := (p1 + p2)%float in
  let s2 := (s1 + p3)%float in
  let m := sqrt s2 in
  SFpos (Prim2SF m) = true
  /\ (finite m = true ->
      finite p1 = true /\ finite p2 = true /\ finite p3 = true
      /\ finite s1 = true /\ finite s2 = true).
Proof.
  intros F1 F2 F3 p1 p2 p3 s1 s2 m.
  pose proof (rounds_pos _ _ (fsquare_rounds x1 F1)) as P1.
  pose proof (rounds_pos _ _ (fsquare_rounds x2 F2)) as P2.
  pose proof (rounds_pos _ _ (fsquare_rounds x3 F3)) as P3.
  fold p1 in P1. fold p2 in P2. fold p3 in P3.
  destruct (SFadd_pos _ _ (Prim2SF_valid p1) (Prim2SF_valid p2) P1 P2)
    as [Ps1 Fs1].
  rewrite <- FloatAxioms.add_spec in Ps1, Fs1. fold s1 in Ps1, Fs1.
  destruct (SFadd_pos _ _ (Prim2SF_valid s1) (Prim2SF_valid p3) Ps1 P3)
    as [Ps2 Fs2].
  rewrite <- FloatAxioms.add_spec in Ps2, Fs2. fold s2 in Ps2, Fs2.
  destruct (SFsqrt_pos _ Ps2) as [Pm Fm].
  rewrite <- FloatAxioms.sqrt_spec in Pm, Fm. fold m in Pm, Fm.
  split; [exact Pm|]. intros Hm. unfold finite in *.
  specialize (Fm Hm). destruct (Fs2 Fm) as [Hs1 Hp3].
  destruct (Fs1 Hs1) as [Hp1 Hp2]. repeat split; assumption.
Qed.

Lemma Rabs_sqr (a : R) : Rabs a * Rabs a = a * a.
Proof. unfold Rabs. destruct (Rcase_abs a); ring. Qed.

Lemma magnitude_above_norm (x1 x2 x3 : float) :
  finite x1 = true -> finite x2 = true -> finite x3 = true ->
  let m := sqrt (x1 * x1 + x2 * x2 + x3 * x3)%float in
  finite m = true -> G <= F2R m ->
  F2R x1 * F2R x1 + F2R x2 * F2R x2 + F2R x3 * F2R x3
  <= F2R m * F2R m * (1 + 23 * u)
  /\ eta * F2R m <= u * G.
Proof.
  intros F1 F2 F3 m Fm HGm.
  destruct (sum_of_squares_class x1 x2 x3 F1 F2 F3) as [_ Hfin].
  destruct (Hfin Fm) as (Fp1 & Fp2 & Fp3 & Fs1 & Fs2). clear Hfin.
  set (p1 := (x1 * x1)%float) in *. set (p2 := (x2 * x2)%float) in *.
  set (p3 := (x3 * x3)%float) in *. set (s1 := (p1 + p2)%float) in *.
  set (s2 := (s1 + p3)%float) in *.
  destruct (rounds_float _ p1 (fsquare_rounds x1 F1) Fp1) as (Sp1 & P1 & V1).
  destruct (rounds_float _ p2 (fsquare_rounds x2 F2) Fp2) as (Sp2 & P2 & V2).
  destruct (rounds_float _ p3 (fsquare_rounds x3 F3) Fp3) as (Sp3 & P3 & V3).
  destruct (rounds_float _ s1 (fadd_rounds p1 p2 Fp1 Fp2 Sp1 Sp2) Fs1)
    as (Ss1 & S1 & W1).
  destruct (rounds_float _ s2 (fadd_rounds s1 p3 Fs1 Fp3 Ss1 Sp3) Fs2)
    as (Ss2 & S2 & W2).
  destruct (rounds_float _ m (fsqrt_rounds s2 Fs2 Ss2) Fm) as (Sm & M0 & Vm).
  rewrite !Rabs_sqr in V1, V2, V3. rewrite ulp52_eq in *.
  pose proof (sqrt_pos (F2R s2)) as Hr.
  pose proof (sqrt_sqrt (F2R s2) S2) as Hrr.
  pose proof eta_nonneg as He0.
  split.
  - apply (norm_below_magnitude
             (F2R x1) (F2R x2) (F2R x3) (F2R p1) (F2R p2) (F2R p3)
             (F2R s1) (F2R s2) (R_sqrt.sqrt (F2R s2)) (F2R m));
      try assumption; lra.
  - (* the magnitude is at most 2^513 *)
    pose proof (finite_below_max _ (Prim2SF_valid s2) Fs2) as Hs2.
    fold (F2R s2) in Hs2. rewrite (Rabs_pos_eq _ S2) in Hs2.
    assert (R_sqrt.sqrt (F2R s2) < bpow 512) as Hr512.
    { rewrite <- (sqrt_bpow_double 512). apply sqrt_lt_1_alt.
      split; [exact S2|exact Hs2]. }
    pose proof (bpow_gt_0 512) as H512.
    assert (eta <= bpow 512) as He by (apply eta_le_bpow; lia).
    assert (F2R m <= bpow 514) as Hm514.
    { change 514%Z with (2 + 512)%Z. rewrite bpow_plus.
      rewrite (bpow_IZR 2) by lia. change (IZR (2 ^ 2)) with 4. lra. }
    pose proof guard_bounds as [HG27 _].
    assert (eta * F2R m <= eta * bpow 514) as H1
      by (apply Rmult_le_compat_l; lra).
    assert (eta * bpow 514 <= ulp52 * bpow (-27)) as H2.
    { unfold eta, ulp52. rewrite <- !bpow_plus. apply bpow_le. lia. }
    rewrite ulp52_eq in H2. lra.
Qed.

(** *** The magnitude of a vector, from above *)

Lemma magnitude_below (f1 f2 f3 : float) (K : R) :
  finite f1 = true -> finite f2 = true -> finite f3 = true ->
  G <= K <= bpow 499 ->
  F2R f1 * F2R f1 + F2R f2 * F2R f2 + F2R f3 * F2R f3
  <= K * K * (1 + 32 * u) ->
  let F := sqrt (f1 * f1 + f2 * f2 + f3 * f3)%float in
  SFnonneg_finite (Prim2SF F) = true /\ F2R F <= K * (1 + 22 * u).
Proof.
  intros F1 F2 F3 HK Hsum F.
  pose proof guard_pos as HG. pose proof eta_nonneg as He0.
  destruct (eta_small K ltac:(lra)) as (E1 & E2 & _).
  destruct (below_overflow K ltac:(lra)) as [_ Hbig].
  assert (0 <= K * K) as HKK by (apply Rmult_le_pos; lra).
  pose proof (Rle_0_sqr (F2R f1)) as A1. unfold Rsqr in A1.
  pose proof (Rle_0_sqr (F2R f2)) as A2. unfold Rsqr in A2.
  pose proof (Rle_0_sqr (F2R f3)) as A3. unfold Rsqr in A3.
  set (q1 := (f1 * f1)%float) in *. set (q2 := (f2 * f2)%float) in *.
  set (q3 := (f3 * f3)%float) in *. set (s1 := (q1 + q2)%float) in *.
  set (s2 := (s1 + q3)%float) in *.
  pose proof (fsquare_rounds f1 F1) as R1. rewrite Rabs_sqr in R1.
  pose proof (fsquare_rounds f2 F2) as R2. rewrite Rabs_sqr in R2.
  pose proof (fsquare_rounds f3 F3) as R3. rewrite Rabs_sqr in R3.
  fold q1 in R1. fold q2 in R2. fold q3 in R3.
  pose proof (rounds_finite _ _ _ R1 ltac:(lra)) as Fq1.
  pose proof (rounds_finite _ _ _ R2 ltac:(lra)) as Fq2.
  pose proof (rounds_finite _ _ _ R3 ltac:(lra)) as Fq3.
  destruct (rounds_float _ q1 R1 Fq1) as (Sq1 & Q1 & V1).
  destruct (rounds_float _ q2 R2 Fq2) as (Sq2 & Q2 & V2).
  destruct (rounds_float _ q3 R3 Fq3) as (Sq3 & Q3 & V3).
  rewrite ulp52_eq in V1, V2, V3.
  pose proof (fadd_rounds q1 q2 Fq1 Fq2 Sq1 Sq2) as Rs1. fold s1 in Rs1.
  pose proof (rounds_finite _ _ _ Rs1 ltac:(lra)) as Fs1.
  destruct (rounds_float _ s1 Rs1 Fs1) as (Ss1 & S1 & W1).
  rewrite ulp52_eq in W1.
  pose proof (fadd_rounds s1 q3 Fs1 Fq3 Ss1 Sq3) as Rs2. fold s2 in Rs2.
  pose proof (rounds_finite _ _ _ Rs2 ltac:(lra)) as Fs2.
  destruct (rounds_float _ s2 Rs2 Fs2) as (Ss2 & S2 & W2).
  rewrite ulp52_eq in W2.
  assert (F2R s2 <= K * K * (1 + 37 * u)) as Hs2.
  { apply (rounded_sum_of_squares K (F2R q1) (F2R q2) (F2R q3) (F2R s1)
             (F2R s2) (F2R f1) (F2R f2) (F2R f3)); lra. }
  pose proof (sqrt_pos (F2R s2)) as Hr.
  pose proof (sqrt_sqrt (F2R s2) S2) as Hrr.
  assert (R_sqrt.sqrt (F2R s2) <= 2 * K) as Hr2.
  { apply sq_le_inv; [exact Hr|lra|]. rewrite Hrr. lra. }
  destruct (below_overflow K ltac:(lra)) as [Hbig1 _].
  pose proof (fsqrt_rounds s2 Fs2 Ss2) as RF. fold F in RF.
  pose proof (rounds_finite _ _ _ RF ltac:(lra)) as FF.
  destruct (rounds_float _ F RF FF) as (SF & F0 & VF).
  rewrite ulp52_eq in VF.
  split.
  - apply SFpos_finite_nonneg; [exact (rounds_pos _ _ RF)|exact FF].
  - apply (rounded_root K (F2R s2) (R_sqrt.sqrt (F2R s2)) (F2R F));
      try assumption; lra.
Qed.

(** *** The scaled vector *)

Lemma SFnonneg_finite_value (r : spec_float) :
  SFnonneg_finite r = true -> 0 <= SF2R r.
Proof.
  destruct r as [s|s| |[|] m e]; try discriminate; intros _; cbn [SF2R];
    [lra|]. apply Rlt_le, (SF2R_finite_pos m e).
Qed.

Lemma scaled_vector (x1 x2 x3 M : float) (K : R) :
  finite x1 = true -> finite x2 = true -> finite x3 = true ->
  SFnonneg_finite (Prim2SF M) = true ->
  let m := sqrt (x1 * x1 + x2 * x2 + x3 * x3)%float in
  finite m = true -> G <= F2R m -> F2R M < F2R m ->
  G <= K -> F2R M <= K ->
  let t := (M / m)%float in
  let f1 := (x1 * t)%float in
  let f2 := (x2 * t)%float in
  let f3 := (x3 * t)%float in
  (K <= bpow 499 ->
   finite f1 = true /\ finite f2 = true /\ finite f3 = true)
  /\ (finite f1 = true -> finite f2 = true -> finite f3 = true ->
      F2R f1 * F2R f1 + F2R f2 * F2R f2 + F2R f3 * F2R f3
      <= K * K * (1 + 32 * u)).
Proof.
  intros F1 F2 F3 HM m Fm HGm HMm HGK HMK t f1 f2 f3.
  pose proof guard_pos as HG. pose proof eta_nonneg as He0.
  destruct (magnitude_above_norm x1 x2 x3 F1 F2 F3 Fm HGm) as [HN Hem].
  fold m in HN, Hem.
  pose proof (SFnonneg_finite_value _ HM) as HM0. fold (F2R M) in HM0.
  assert (0 < F2R m) as Hm0 by lra.
  (* the factor *)
  assert (exists s mm em, Prim2SF m = S754_finite s mm em)
    as (s & mm & em & Em).
  { unfold F2R in Hm0. unfold finite in Fm.
    destruct (Prim2SF m) as [s|s| |s mm em]; try discriminate; eauto.
    cbn [SF2R] in Hm0. lra. }
  assert (finite M = true) as FM.
  { unfold finite. destruct (Prim2SF M) as [?|?| |[|] ? ?];
      try discriminate; reflexivity. }
  pose proof (fdiv_rounds M m s mm em FM Em) as Rt. fold t in Rt.
  rewrite (Rabs_pos_eq (F2R M)), (Rabs_pos_eq (F2R m)) in Rt by lra.
  set (X := F2R M / F2R m) in *.
  assert (X * F2R m = F2R M) as HX by (subst X; field; lra).
  assert (0 <= X < 1) as HX1.
  { split.
    - subst X. apply Rmult_le_pos; [lra|].
      apply Rlt_le, Rinv_0_lt_compat, Hm0.
    - apply Rmult_lt_reg_r with (F2R m); [exact Hm0|]. lra. }
  pose proof (bpow_ge_1 1023 ltac:(lia)) as Hbig.
  pose proof (rounds_finite _ _ _ Rt ltac:(lra)) as Ft.
  destruct (rounds_value _ _ _ Rt Ft) as [Vt _].
  fold (F2R t) in Vt. apply Rabs_le_inv in Vt. rewrite ulp52_eq in Vt.
  set (T := Rabs (F2R t)) in *.
  assert (0 <= T) as HT by apply Rabs_pos.
  assert (T * F2R m <= K * (1 + 2 * u)) as HTm.
  { apply (factor_times_magnitude (F2R M) K (F2R m) X T);
      try assumption; lra. }
  (* the components *)
  pose proof (fmul_rounds x1 t F1 Ft) as R1. fold f1 in R1. fold T in R1.
  pose proof (fmul_rounds x2 t F2 Ft) as R2. fold f2 in R2. fold T in R2.
  pose proof (fmul_rounds x3 t F3 Ft) as R3. fold f3 in R3. fold T in R3.
  set (X1 := Rabs (F2R x1)) in *. set (X2 := Rabs (F2R x2)) in *.
  set (X3 := Rabs (F2R x3)) in *.
  assert (0 <= X1) as HX10 by apply Rabs_pos.
  assert (0 <= X2) as HX20 by apply Rabs_pos.
  assert (0 <= X3) as HX30 by apply Rabs_pos.
  rewrite <- (Rabs_sqr (F2R x1)), <- (Rabs_sqr (F2R x2)),
    <- (Rabs_sqr (F2R x3)) in HN.
  fold X1 X2 X3 in HN.
  assert (0 <= X1 * X1) as S1 by (apply Rmult_le_pos; lra).
  assert (0 <= X2 * X2) as S2 by (apply Rmult_le_pos; lra).
  assert (0 <= X3 * X3) as S3 by (apply Rmult_le_pos; lra).
  assert (0 <= K) as HK0 by lra.
  pose proof (scaled_component (X1 * X1 + X2 * X2 + X3 * X3) K (F2R m)
                X1 T HX10 HT Hm0 HK0
                ltac:(lra) HN HTm) as C1.
  pose proof (scaled_component (X1 * X1 + X2 * X2 + X3 * X3) K (F2R m)
                X2 T HX20 HT Hm0 HK0
                ltac:(lra) HN HTm) as C2.
  pose proof (scaled_component (X1 * X1 + X2 * X2 + X3 * X3) K (F2R m)
                X3 T HX30 HT Hm0 HK0
                ltac:(lra) HN HTm) as C3.
  split.
  - intros HK499. destruct (below_overflow K ltac:(lra)) as [Hb _].
    split; [|split]; eapply rounds_finite; try eassumption; lra.
  - intros Ff1 Ff2 Ff3.
    destruct (rounds_value _ _ _ R1 Ff1) as [V1 _].
    destruct (rounds_value _ _ _ R2 Ff2) as [V2 _].
    destruct (rounds_value _ _ _ R3 Ff3) as [V3 _].
    fold (F2R f1) in V1. fold (F2R f2) in V2. fold (F2R f3) in V3.
    apply Rabs_le_inv in V1, V2, V3. rewrite ulp52_eq in V1, V2, V3.
    rewrite <- (Rabs_sqr (F2R f1)), <- (Rabs_sqr (F2R f2)),
      <- (Rabs_sqr (F2R f3)).
    pose proof (Rabs_pos (F2R f1)). pose proof (Rabs_pos (F2R f2)).
    pose proof (Rabs_pos (F2R f3)).
    apply (scaled_squares (X1 * X1 + X2 * X2 + X3 * X3) K (F2R m) T
             X1 X2 X3); try assumption; try reflexivity; lra.
Qed.

(** *** A magnitude that overflows: the factor is zero *)

Lemma mul_zero_right (x t : float) (s : bool) :
  finite x = true -> Prim2SF t = S754_zero s ->
  exists s', Prim2SF (x * t)%float = S754_zero s'.
Proof.
  intros Fx Et. rewrite FloatAxioms.mul_spec, Et. unfold finite in Fx.
  destruct (Prim2SF x) as [sx|sx| |sx mx ex]; try discriminate;
    cbn [SF64mul SFmul]; eauto.
Qed.

Lemma magnitude_of_zeros (f1 f2 f3 : float) (s1 s2 s3 : bool) :
  Prim2SF f1 = S754_zero s1 -> Prim2SF f2 = S754_zero s2 ->
  Prim2SF f3 = S754_zero s3 ->
  Prim2SF (sqrt (f1 * f1 + f2 * f2 + f3 * f3)%float) = S754_zero false.
Proof.
  intros E1 E2 E3.
  rewrite FloatAxioms.sqrt_spec, !FloatAxioms.add_spec, !FloatAxioms.mul_spec.
  rewrite E1, E2, E3. destruct s1, s2, s3; reflexivity.
Qed.

Lemma div_by_infinity (M m : float) :
  SFnonneg_finite (Prim2SF M) = true -> Prim2SF m = S754_infinity false ->
  exists s, Prim2SF (M / m)%float = S754_zero s.
Proof.
  intros HM Em. rewrite FloatAxioms.div_spec, Em.
  destruct (Prim2SF M) as [s|s| |[|] mm em]; try discriminate;
    cbn [SF64div SFdiv]; eauto.
Qed.

(** *** The clamp *)

Lemma leb_left_finite (a b : spec_float) :
  SFpos a = true -> SFnonneg_finite b = true ->
  SFleb a b = true \/ SFltb a b = true -> SFnonneg_finite a = true.
Proof.
  intros Pa Nb H.
  destruct a as [[|]|[|]| |[|] ma ea]; try discriminate; try reflexivity.
  destruct b as [sb|sb| |[|] mb eb]; try discriminate;
    destruct H as [H|H]; discriminate H.
Qed.

Lemma clamp_bound (x1 x2 x3 M : float) :
  finite x1 = true -> finite x2 = true -> finite x3 = true ->
  (0 <=? M)%float = true -> (M <=? 1e150)%float = true ->
  let m := sqrt (x1 * x1 + x2 * x2 + x3 * x3)%float in
  let t := (M / m)%float in
  let B := ((if M <? 1e-8 then 1e-8 else M) * 1.00000000000001)%float in
  (if (m <=? M) || (m <? 1e-8)
   then m <=? B
   else sqrt (x1 * t * (x1 * t) + x2 * t * (x2 * t) + x3 * t * (x3 * t))
        <=? B)%float = true.
Proof.
  intros F1 F2 F3 HM0 HM1 m t B.
  pose proof guard_pos as HG. pose proof eta_nonneg as He0.
  assert (SFnonneg_finite (Prim2SF 1e-8) = true) as NG
    by (rewrite guard_value; reflexivity).
  assert (SFnonneg_finite (Prim2SF 1e150) = true) as NC
    by (rewrite cap_value; reflexivity).
  assert (SFnonneg_finite (Prim2SF M) = true) as NM.
  { apply (between_nonneg M 1e150); [|exact HM0|exact HM1].
    rewrite cap_value. reflexivity. }
  (* the limit with the guard *)
  set (bound := if (M <? 1e-8)%float then 1e-8%float else M) in *.
  assert (SFnonneg_finite (Prim2SF bound) = true
          /\ G <= F2R bound <= bpow 499 /\ F2R M <= F2R bound)
    as (NB & HK & HMK).
  { subst bound. destruct (M <? 1e-8)%float eqn:E.
    - apply (fltb_nonneg M 1e-8 NM NG) in E.
      pose proof (bpow_ge_1 499 ltac:(lia)). repeat split; try assumption; lra.
    - assert (~ F2R M < G) as Hn.
      { intros H. apply (fltb_nonneg M 1e-8 NM NG) in H. congruence. }
      apply (fleb_nonneg M 1e150 NM NC) in HM1. pose proof cap_real.
      repeat split; try assumption; lra. }
  set (K := F2R bound) in *.
  assert (SFsign (Prim2SF bound) = false /\ finite bound = true) as [SB FB].
  { unfold finite.
    destruct (Prim2SF bound) as [s|s| |[|] mb eb] eqn:EB; try discriminate.
    - assert (K = 0) as E0 by (unfold K, F2R; rewrite EB; reflexivity).
      lra.
    - split; reflexivity. }
  (* the limit with its slack *)
  assert (SFnonneg_finite (Prim2SF B) = true
          /\ K * (1 + 22 * u) <= F2R B) as [NBB HB].
  { assert (finite 1.00000000000001 = true) as Fc
      by (unfold finite; rewrite slack_value; reflexivity).
    pose proof (fmul_rounds bound 1.00000000000001 FB Fc) as RB.
    fold B in RB. rewrite SB, slack_value in RB. cbn [SFsign xorb] in RB.
    rewrite slack_real in RB. fold K in RB.
    rewrite (Rabs_pos_eq K), (Rabs_pos_eq (1 + 45 * u)) in RB by lra.
    destruct (below_overflow K ltac:(lra)) as [Hbig _].
    pose proof (rounds_finite _ _ _ RB ltac:(lra)) as FBB.
    destruct (rounds_float _ B RB FBB) as (_ & _ & VB).
    rewrite ulp52_eq in VB. split.
    - apply SFpos_finite_nonneg; [exact (rounds_pos _ _ RB)|exact FBB].
    - apply (rounded_limit K (F2R B)); lra. }
  assert (0 <= K * u) as HKu by (apply Rmult_le_pos; lra).
  (* the magnitude *)
  destruct (sum_of_squares_class x1 x2 x3 F1 F2 F3) as [Pm _]. fold m in Pm.
  destruct (m <=? M)%float eqn:E1; [|destruct (m <? 1e-8)%float eqn:E2];
    cbn [orb].
  - assert (SFnonneg_finite (Prim2SF m) = true) as Nm.
    { apply (leb_left_finite _ (Prim2SF M) Pm NM). left.
      rewrite <- FloatAxioms.leb_spec. exact E1. }
    apply (fleb_nonneg m M Nm NM) in E1.
    apply (fleb_nonneg m B Nm NBB). lra.
  - assert (SFnonneg_finite (Prim2SF m) = true) as Nm.
    { apply (leb_left_finite _ (Prim2SF 1e-8) Pm NG). right.
      rewrite <- FloatAxioms.ltb_spec. exact E2. }
    apply (fltb_nonneg m 1e-8 Nm NG) in E2.
    apply (fleb_nonneg m B Nm NBB). lra.
  - destruct (finite m) eqn:Fm.
    + assert (SFnonneg_finite (Prim2SF m) = true) as Nm
        by (apply SFpos_finite_nonneg; assumption).
      assert (G <= F2R m) as HGm.
      { destruct (Rle_lt_dec G (F2R m)) as [H|H]; [exact H|].
        apply (fltb_nonneg m 1e-8 Nm NG) in H. congruence. }
      assert (F2R M < F2R m) as HMm.
      { destruct (Rle_lt_dec (F2R m) (F2R M)) as [H|H]; [|exact H].
        apply (fleb_nonneg m M Nm NM) in H. congruence. }
      destruct (scaled_vector x1 x2 x3 M K F1 F2 F3 NM Fm HGm HMm
                  ltac:(lra) HMK) as [Hfin Hsum].
      fold m t in Hfin, Hsum. cbv zeta in Hfin, Hsum.
      destruct (Hfin ltac:(lra)) as (Ff1 & Ff2 & Ff3).
      specialize (Hsum Ff1 Ff2 Ff3).
      destruct (magnitude_below _ _ _ K Ff1 Ff2 Ff3 HK Hsum) as [NF HF].
      apply (fleb_nonneg _ B NF NBB). lra.
    + assert (Prim2SF m = S754_infinity false) as Em.
      { unfold finite in Fm.
        destruct (Prim2SF m) as [[|]|[|]| |[|] mm em]; try discriminate;
          reflexivity. }
      destruct (div_by_infinity M m NM Em) as [s Et]. fold t in Et.
      destruct (mul_zero_right x1 t s F1 Et) as [s1 Ef1].
      destruct (mul_zero_right x2 t s F2 Et) as [s2 Ef2].
      destruct (mul_zero_right x3 t s F3 Et) as [s3 Ef3].
      pose proof (magnitude_of_zeros _ _ _ s1 s2 s3 Ef1 Ef2 Ef3) as EF.
      rewrite FloatAxioms.leb_spec, EF.
      destruct (Prim2SF B) as [sb|sb| |[|] mb eb]; try discriminate;
        reflexivity.
Qed.

End MagnitudeBounds.

(* ================================================================== *)
(** ** The control law: the clamp of the force *)
(* ================================================================== *)

Section ForceClamp.

Lemma clampMagnitude_zero (maxMag : float) :
  clampMagnitude (mkVec3 0 0 0) maxMag = mkVec3 0 0 0.
Proof.
  unfold clampMagnitude.
  change (mag (mkVec3 0 0 0)) with 0%float.
  change (0 <? 1e-8) with true.
  rewrite orb_true_r. reflexivity.
Qed.

Lemma forceBlock_clamp (clampF : Vec3 -> float -> Vec3)
    (pos vel : Vec3) (state : ControlState) (pids : ControlPIDs)
    (cfg : ControlConfig) (dt : float) :
  forceBlock clampF pos vel state pids cfg dt
  = let r := forceBlock (fun v _ => v) pos vel state pids cfg dt in
    (clampF r.1.1 (maxForce cfg), r.1.2, r.2).
Proof.
  unfold forceBlock.
  destruct (Phase_eqb (phase state) ClimbToCenter).
  - destruct (calculate (radialPID pids) _ dt). reflexivity.
  - destruct (calculate (radialPID pids) _ dt).
    destruct (calculate (speedPID pids) _ dt). reflexivity.
Qed.

(** The force a call returns is [clampMagnitude] of the force before the
    clamp; on the early return of GroundWait both are the zero vector. *)
Lemma computeControlForce_clamp
    (pos vel : Vec3) (state : ControlState) (pids : ControlPIDs)
    (cfg : ControlConfig) (dt : float) :
  (computeControlForce pos vel state pids cfg dt).1.1
  = clampMagnitude (unclampedForce pos vel state pids cfg dt) (maxForce cfg).
Proof.
  unfold unclampedForce, computeControlForce, computeControlForce_with.
  destruct (groundWaitBlock (advanceTime state dt) cfg) as [s|].
  - destruct (arrivalBlock pos s pids cfg) as [s' p'].
    rewrite (forceBlock_clamp clampMagnitude). reflexivity.
  - cbn [fst]. rewrite clampMagnitude_zero. reflexivity.
Qed.

(** [is_finite] of the components keeps the magnitude from being NaN. *)
Lemma mag_not_nan (v : Vec3) :
  is_finite (x v) = true -> is_finite (y v) = true ->
  is_finite (z v) = true ->
  is_nan (mag v) = false.
Proof.
  rewrite !finite_is_finite. intros F1 F2 F3.
  destruct (sum_of_squares_class _ _ _ F1 F2 F3) as [P _].
  apply is_nan_false. unfold mag. intros E. rewrite E in P. discriminate.
Qed.

(** [clampMagnitude] on a vector with finite components, for a limit
    between 0 and 1e150: the magnitude of the result, as [Vec3::mag]
    computes it, is at most the larger of the limit and the guard 1e-8,
    times [1 + 1e-14]. *)
Lemma clampMagnitude_bound (v : Vec3) (maxMag : float) :
  is_finite (x v) = true -> is_finite (y v) = true ->
  is_finite (z v) = true ->
  (0 <=? maxMag) = true -> (maxMag <=? 1e150) = true ->
  (mag (clampMagnitude v maxMag)
   <=? (if maxMag <? 1e-8 then 1e-8 else maxMag) * 1.00000000000001) = true.
Proof.
  rewrite !finite_is_finite. intros F1 F2 F3 H0 H1.
  pose proof (clamp_bound (x v) (y v) (z v) maxMag F1 F2 F3 H0 H1) as H.
  cbv zeta in H. unfold clampMagnitude.
  change (PrimFloat.sqrt (x v * x v + y v * y v + z v * z v)) with (mag v)
    in H.
  destruct ((mag v <=? maxMag) || (mag v <? 1e-8)); exact H.
Qed.




End ForceClamp.

(* ================================================================== *)
(** ** The agent loop *)
(* ================================================================== *)

Section AgentLoop.

(** C2.  The agent constructed at (0,0,0) with the default configuration
    ([groundWait = 5.0]), after 550 iterations of its loop at the fixed
    [dt = 0.01], is in ClimbToCenter with a time in phase strictly below
    0.5.  (The 500 additions of 0.01 give 4.9999999999999378, still below
    5.0, so the transition is made by tick 501, and the 49 ticks that
    follow give 0.49000000000000027.) *)
Theorem agent_after_550_ticks :
  let u := run_ticks 550 (UAV_ctor (mkVec3 0 0 0) ControlConfig_default) in
  groundWait (cfg u) = 5.0
  /\ phase (ctrlState u) = ClimbToCenter
  /\ (timeInPhase (ctrlState u) <? 0.5) = true
  /\ timeInPhase (ctrlState u) = 0.49000000000000027
  /\ ctrlState (run_ticks 500 (UAV_ctor (mkVec3 0 0 0) ControlConfig_default))
     = mkControlState GroundWait 4.9999999999999378 false (mkVec3 1 0 0).
Proof. vm_compute. repeat split; reflexivity. Qed.

End AgentLoop.

(* ================================================================== *)
(** ** The collision pass *)
(* ================================================================== *)

Section CollisionPass.

Lemma foldl_bind {A B C : Type} (f : A -> C -> A) (h : B -> list C)
    (l : list B) :
  forall a : A,
  foldl f a (l ≫= h) = foldl (fun acc b => foldl f acc (h b)) a l.
Proof.
  induction l as [|b l IH]; intros a; [reflexivity|].
  rewrite bind_cons, foldl_app. cbn [foldl]. apply IH.
Qed.

Lemma foldl_pointwise {A B : Type} (f g : A -> B -> A) (l : list B) :
  (forall a b, f a b = g a b) ->
  forall a : A, foldl f a l = foldl g a l.
Proof.
  intros Hfg. induction l as [|b l IH]; intros a; [reflexivity|].
  cbn [foldl]. rewrite Hfg. apply IH.
Qed.

(** The two nested loops are one loop over [pairsInOrder]. *)
Lemma pass_as_fold (uavs : list UAV) (minDist : float) :
  checkAndResolveCollisions uavs minDist
  = foldl (fun us p => resolvePair (getSnapshot <$> uavs) minDist p.1 p.2 us)
          uavs (pairsInOrder (length uavs)).
Proof.
  unfold checkAndResolveCollisions, pairsInOrder.
  destruct (length uavs <? 2)%nat eqn:En.
  - apply Nat.ltb_lt in En.
    destruct (length uavs) as [|[|n]]; [reflexivity|reflexivity|lia].
  - rewrite foldl_bind. unfold innerLoop.
    apply foldl_pointwise. intros us i.
    rewrite foldl_fmap. reflexivity.
Qed.

Lemma pairsInOrder_spec (n : nat) (p : nat * nat) :
  p ∈ pairsInOrder n -> (p.1 < p.2 < n)%nat.
Proof.
  unfold pairsInOrder. rewrite list_elem_of_bind.
  intros (i & Hp & Hi). apply list_elem_of_fmap in Hp as (j & -> & Hj).
  apply elem_of_seq in Hi, Hj. simpl. lia.
Qed.

Lemma resolvePair_length (snaps : list Snapshot) (minDist : float)
    (i j : nat) (us : list UAV) :
  length (resolvePair snaps minDist i j us) = length us.
Proof.
  unfold resolvePair. destruct (_ <? minDist); [|reflexivity].
  rewrite !length_alter. reflexivity.
Qed.

Lemma pass_length (uavs : list UAV) (minDist : float) :
  length (checkAndResolveCollisions uavs minDist) = length uavs.
Proof.
  rewrite pass_as_fold.
  generalize (pairsInOrder (length uavs)) as ps.
  generalize (getSnapshot <$> uavs) as snaps.
  intros snaps ps. revert uavs.
  induction ps as [|p ps IH]; intros us; [reflexivity|].
  cbn [foldl]. rewrite IH. apply resolvePair_length.
Qed.

(** After any run of pair resolutions, agent [k] is the agent it was
    before, with the snapshot velocity of its last colliding partner. *)
Lemma fold_resolve_lookup (snaps : list Snapshot) (minDist : float)
    (uavs : list UAV) (k : nat) (u : UAV) (ps : list (nat * nat)) :
  (forall p, p ∈ ps -> p.1 <> p.2) ->
  uavs !! k = Some u ->
  foldl (fun us p => resolvePair snaps minDist p.1 p.2 us) uavs ps !! k
  = Some match last (omap (partnerIn k)
                          (filter (fun p => collides snaps minDist p) ps)) with
         | Some p => setVelocity (vel (snaps !!! p)) u
         | None => u
         end.
Proof.
  intros Hne Hk. induction ps as [|[i j] ps IH] using rev_ind.
  - exact Hk.
  - rewrite foldl_app, filter_app, omap_app. cbn [foldl fst snd].
    assert (i <> j) as Hij.
    { apply (Hne (i, j)). apply elem_of_app. right. constructor. }
    assert (forall p, p ∈ ps -> p.1 <> p.2) as Hne'.
    { intros p Hp. apply Hne. apply elem_of_app. left. exact Hp. }
    specialize (IH Hne').
    set (us := foldl _ uavs ps) in *.
    set (done := omap (partnerIn k) (filter _ ps)) in *.
    rewrite (filter_singleton _ _ []).
    unfold resolvePair.
    change (distance (pos (snaps !!! i)) (pos (snaps !!! j)) <? minDist)
      with (collides snaps minDist (i, j)).
    destruct (collides snaps minDist (i, j)) eqn:Ec.
    + rewrite decide_True by exact I.
      cbn [omap list_omap]. unfold partnerIn. cbn [fst snd].
      destruct (i =? k)%nat eqn:Eik.
      * apply Nat.eqb_eq in Eik. subst i.
        rewrite last_snoc.
        rewrite list_lookup_alter_ne by congruence.
        rewrite list_lookup_alter_eq, IH.
        destruct (last done); reflexivity.
      * apply Nat.eqb_neq in Eik.
        destruct (j =? k)%nat eqn:Ejk.
        -- apply Nat.eqb_eq in Ejk. subst j.
           rewrite last_snoc.
           rewrite list_lookup_alter_eq.
           rewrite list_lookup_alter_ne by congruence.
           rewrite IH. destruct (last done); reflexivity.
        -- apply Nat.eqb_neq in Ejk.
           rewrite app_nil_r.
           rewrite !list_lookup_alter_ne by congruence.
           exact IH.
    + rewrite decide_False by (intros []).
      cbn [omap list_omap]. rewrite app_nil_r. exact IH.
Qed.

Lemma pass_lookup (uavs : list UAV) (minDist : float) (k : nat) (u : UAV) :
  uavs !! k = Some u ->
  checkAndResolveCollisions uavs minDist !! k
  = Some match lastPartner uavs minDist k with
         | Some p => setVelocity (vel ((getSnapshot <$> uavs) !!! p)) u
         | None => u
         end.
Proof.
  intros Hk. rewrite pass_as_fold. unfold lastPartner, collidingPairs.
  apply fold_resolve_lookup; [|exact Hk].
  intros p Hp. apply pairsInOrder_spec in Hp. lia.
Qed.

Lemma lastPartner_in_range (uavs : list UAV) (minDist : float) (k p : nat) :
  lastPartner uavs minDist k = Some p ->
  exists q, q ∈ collidingPairs uavs minDist /\ partnerIn k q = Some p
            /\ (p < length uavs)%nat.
Proof.
  unfold lastPartner. intros Hl.
  apply last_Some_elem_of, list_elem_of_omap in Hl as (q & Hq & Hp).
  exists q. split; [exact Hq|]. split; [exact Hp|].
  apply list_elem_of_filter in Hq as [_ Hq].
  apply pairsInOrder_spec in Hq.
  unfold partnerIn in Hp.
  destruct (q.1 =? k)%nat; [inversion Hp; lia|].
  destruct (q.2 =? k)%nat; [inversion Hp; lia|discriminate].
Qed.

Lemma snapshot_velocity (uavs : list UAV) (p : nat) (up : UAV) :
  uavs !! p = Some up ->
  vel ((getSnapshot <$> uavs) !!! p) = velocity up.
Proof.
  intros Hp.
  rewrite (list_lookup_total_correct (getSnapshot <$> uavs) p (getSnapshot up));
    [reflexivity|].
  rewrite list_lookup_fmap, Hp. reflexivity.
Qed.

(** What [setVelocity] writes and what it leaves. *)
Lemma setVelocity_fields (v : Vec3) (u : UAV) :
  velocity (setVelocity v u) = v
  /\ position (setVelocity v u) = position u
  /\ acceleration (setVelocity v u) = acceleration u
  /\ cfg (setVelocity v u) = cfg u
  /\ ctrlState (setVelocity v u) = ctrlState u
  /\ sim.pids (setVelocity v u) = sim.pids u.
Proof. repeat split. Qed.

(** C9.  Within one call, the test of every pair reads the positions
    snapshotted before the loops ([collidingPairs] is computed from the
    agents as they were before the pass), and every velocity written is
    the pre-pass velocity of the partner.  So after the pass the velocity
    of an agent is the pre-pass velocity of its last colliding partner in
    the iteration order over the pairs [(i, j)], [i < j], and its
    position, acceleration, configuration, control state and controllers
    are its own as before; an agent in no colliding pair is untouched. *)
Theorem velocity_is_last_partner_snapshot
    (uavs : list UAV) (minDist : float) (k : nat) (u : UAV) :
  uavs !! k = Some u ->
  exists u' : UAV,
    checkAndResolveCollisions uavs minDist !! k = Some u'
    /\ match lastPartner uavs minDist k with
       | Some p => exists up : UAV,
                     uavs !! p = Some up
                     /\ velocity u' = velocity up
                     /\ position u' = position u
                     /\ acceleration u' = acceleration u
                     /\ cfg u' = cfg u
                     /\ ctrlState u' = ctrlState u
                     /\ sim.pids u' = sim.pids u
       | None => u' = u
       end.
Proof.
  intros Hk. eexists. split; [apply pass_lookup; exact Hk|].
  destruct (lastPartner uavs minDist k) as [p|] eqn:El; [|reflexivity].
  apply lastPartner_in_range in El as (_ & _ & _ & Hp).
  apply lookup_lt_is_Some_2 in Hp as [up Hup].
  exists up. split; [exact Hup|].
  rewrite (snapshot_velocity _ _ _ Hup).
  apply setVelocity_fields.
Qed.

Lemma velocity_is_last_partner_snapshot_witness :
  let v0 := mkVec3 1 0 0 in
  let v1 := mkVec3 0 2 0 in
  let v2 := mkVec3 0 0 3 in
  let agent p v :=
    setVelocity v (UAV_ctor p ControlConfig_default) in
  let uavs := [agent (mkVec3 0 0 0) v0; agent (mkVec3 0.004 0 0) v1;
               agent (mkVec3 0.008 0 0) v2] in
  uavs !! 0%nat = Some (agent (mkVec3 0 0 0) v0)
  /\ velocity <$> uavs = [v0; v1; v2]
  /\ collidingPairs uavs 0.01 = [(0, 1); (0, 2); (1, 2)]%nat
  /\ lastPartner uavs 0.01 0 = Some 2%nat
  /\ velocity <$> checkAndResolveCollisions uavs 0.01 = [v2; v2; v1]
  /\ exists u' : UAV,
       checkAndResolveCollisions uavs 0.01 !! 0%nat = Some u'
       /\ velocity u' = v2
       /\ position u' = mkVec3 0 0 0.
Proof.
  intros v0 v1 v2 agent uavs.
  split; [reflexivity|]. split; [reflexivity|].
  split; [vm_compute; reflexivity|].
  split; [vm_compute; reflexivity|].
  split; [vm_compute; reflexivity|].
  destruct (velocity_is_last_partner_snapshot uavs 0.01 0
              (agent (mkVec3 0 0 0) v0) eq_refl) as (u' & Hu' & Hv).
  exists u'. split; [exact Hu'|].
  change (lastPartner uavs 0.01 0) with (Some 2%nat) in Hv.
  destruct Hv as (up & Hup & Hvel & Hpos & _).
  change (uavs !! 2%nat) with (Some (agent (mkVec3 0.008 0 0) v2)) in Hup.
  inversion Hup. subst up. split; [exact Hvel|exact Hpos].
Defined.

(** C6.  When exactly one pair [(a, b)] of agents has its snapshotted
    distance below [minDist], after the pass the velocity of agent [a] is
    the pre-call velocity of [b] and the velocity of agent [b] is the
    pre-call velocity of [a], everything else of the two agents is as it
    was, every other agent, which is within [minDist] of no one, is as it
    was, and no position has changed. *)
Theorem single_collision_swaps_velocities
    (uavs : list UAV) (minDist : float) (a b : nat) :
  collidingPairs uavs minDist = [(a, b)] ->
  let uavs' := checkAndResolveCollisions uavs minDist in
  (exists ua ub ua' ub' : UAV,
      uavs !! a = Some ua /\ uavs !! b = Some ub
      /\ uavs' !! a = Some ua' /\ uavs' !! b = Some ub'
      /\ velocity ua' = velocity ub
      /\ velocity ub' = velocity ua
      /\ (position ua' = position ua
          /\ acceleration ua' = acceleration ua
          /\ cfg ua' = cfg ua
          /\ ctrlState ua' = ctrlState ua
          /\ sim.pids ua' = sim.pids ua)
      /\ (position ub' = position ub
          /\ acceleration ub' = acceleration ub
          /\ cfg ub' = cfg ub
          /\ ctrlState ub' = ctrlState ub
          /\ sim.pids ub' = sim.pids ub))
  /\ (forall (k : nat) (u : UAV),
        k <> a -> k <> b -> uavs !! k = Some u -> uavs' !! k = Some u)
  /\ position <$> uavs' = position <$> uavs.
Proof.
  intros Hone uavs'.
  assert ((a, b) ∈ collidingPairs uavs minDist) as Hab
    by (rewrite Hone; constructor).
  apply list_elem_of_filter in Hab as [_ Hab].
  apply pairsInOrder_spec in Hab. cbn [fst snd] in Hab.
  destruct (lookup_lt_is_Some_2 uavs a ltac:(lia)) as [ua Hua].
  destruct (lookup_lt_is_Some_2 uavs b ltac:(lia)) as [ub Hub].
  assert (forall k, lastPartner uavs minDist k
                    = if (a =? k)%nat then Some b
                      else if (b =? k)%nat then Some a else None) as Hlast.
  { intros k. unfold lastPartner. rewrite Hone.
    cbn [omap list_omap]. unfold partnerIn. cbn [fst snd].
    destruct (a =? k)%nat; [reflexivity|].
    destruct (b =? k)%nat; reflexivity. }
  assert (uavs' !! a = Some (setVelocity (velocity ub) ua)) as Ha'.
  { subst uavs'.
    rewrite (pass_lookup _ _ _ _ Hua), Hlast, Nat.eqb_refl.
    rewrite (snapshot_velocity _ _ _ Hub). reflexivity. }
  assert (uavs' !! b = Some (setVelocity (velocity ua) ub)) as Hb'.
  { subst uavs'.
    rewrite (pass_lookup _ _ _ _ Hub), Hlast, Nat.eqb_refl.
    destruct (a =? b)%nat eqn:E; [apply Nat.eqb_eq in E; lia|].
    rewrite (snapshot_velocity _ _ _ Hua). reflexivity. }
  split; [|split].
  - exists ua, ub, (setVelocity (velocity ub) ua),
           (setVelocity (velocity ua) ub).
    destruct (setVelocity_fields (velocity ub) ua) as (Va & Fa).
    destruct (setVelocity_fields (velocity ua) ub) as (Vb & Fb).
    split; [exact Hua|]. split; [exact Hub|].
    split; [exact Ha'|]. split; [exact Hb'|].
    split; [exact Va|]. split; [exact Vb|]. split; [exact Fa|exact Fb].
  - intros k u Hka Hkb Hk. subst uavs'.
    rewrite (pass_lookup _ _ _ _ Hk), Hlast.
    destruct (a =? k)%nat eqn:E1; [apply Nat.eqb_eq in E1; congruence|].
    destruct (b =? k)%nat eqn:E2; [apply Nat.eqb_eq in E2; congruence|].
    reflexivity.
  - apply list_eq. intros k. rewrite !list_lookup_fmap.
    destruct (uavs !! k) as [u|] eqn:Hk.
    + subst uavs'. rewrite (pass_lookup _ _ _ _ Hk).
      destruct (lastPartner uavs minDist k); reflexivity.
    + apply lookup_ge_None in Hk.
      rewrite (proj2 (lookup_ge_None uavs' k)); [reflexivity|].
      subst uavs'. rewrite pass_length. exact Hk.
Qed.

Lemma single_collision_swaps_velocities_witness :
  let va := mkVec3 1 2 3 in
  let vb := mkVec3 (-4) 5 0.5 in
  let vc := mkVec3 7 7 7 in
  let agent p v :=
    setVelocity v (UAV_ctor p ControlConfig_default) in
  let uavs := [agent (mkVec3 0 0 0) va; agent (mkVec3 0.005 0 0) vb;
               agent (mkVec3 30 0 0) vc] in
  let uavs' := checkAndResolveCollisions uavs 0.01 in
  collidingPairs uavs 0.01 = [(0, 1)]%nat
  /\ velocity <$> uavs = [va; vb; vc]
  /\ velocity <$> uavs' = [vb; va; vc]
  /\ (exists ua' ub' : UAV,
        uavs' !! 0%nat = Some ua' /\ uavs' !! 1%nat = Some ub'
        /\ velocity ua' = vb /\ velocity ub' = va)
  /\ uavs' !! 2%nat = Some (agent (mkVec3 30 0 0) vc)
  /\ position <$> uavs' = position <$> uavs.
Proof.
  intros va vb vc agent uavs uavs'.
  assert (collidingPairs uavs 0.01 = [(0, 1)]%nat) as Hone
    by (vm_compute; reflexivity).
  split; [exact Hone|]. split; [reflexivity|].
  split; [vm_compute; reflexivity|].
  destruct (single_collision_swaps_velocities uavs 0.01 0 1 Hone)
    as ((ua & ub & ua' & ub' & Hua & Hub & Ha & Hb & Hva & Hvb & _)
        & Hrest & Hpos).
  change (uavs !! 0%nat) with (Some (agent (mkVec3 0 0 0) va)) in Hua.
  change (uavs !! 1%nat) with (Some (agent (mkVec3 0.005 0 0) vb)) in Hub.
  inversion Hua. inversion Hub. subst ua ub.
  split; [exists ua', ub'; auto|].
  split; [apply Hrest; [lia|lia|reflexivity]|exact Hpos].
Defined.

(** C10.  Called with fewer than two agents, the pass returns at once:
    the collection it leaves is the collection it was given, every agent
    with the position, velocity and acceleration it had. *)
Theorem fewer_than_two_agents_untouched
    (uavs : list UAV) (minDist : float) :
  (length uavs < 2)%nat ->
  checkAndResolveCollisions uavs minDist = uavs.
Proof.
  intros Hn. unfold checkAndResolveCollisions.
  apply Nat.ltb_lt in Hn. rewrite Hn. reflexivity.
Qed.

Lemma fewer_than_two_agents_untouched_witness :
  let u := setVelocity (mkVec3 1 2 3)
                       (UAV_ctor (mkVec3 4 5 6) ControlConfig_default) in
  (length [u] < 2)%nat
  /\ checkAndResolveCollisions [u] 0.01 = [u]
  /\ checkAndResolveCollisions [] 0.01 = [].
Proof.
  intros u. split; [simpl; lia|]. split.
  - apply (fewer_than_two_agents_untouched [u] 0.01). simpl. lia.
  - apply (fewer_than_two_agents_untouched [] 0.01). simpl. lia.
Defined.

End CollisionPass.

(* ================================================================== *)
(** ** More facts about binary64 values: zeros, finite values, roots *)
(* ================================================================== *)

Section FloatZeros.

Lemma is_zero_spec (a : float) :
  is_zero a = true <-> exists s, Prim2SF a = S754_zero s.
Proof.
  unfold is_zero. rewrite FloatAxioms.eqb_spec.
  change (Prim2SF zero) with (S754_zero false). unfold SFeqb.
  destruct (Prim2SF a) as [s|s| |s m e]; simpl; split;
    try discriminate; try (intros [s' Hs]; discriminate);
    try (destruct s; discriminate); eauto.
Qed.

Lemma is_finite_spec (a : float) :
  is_finite a = true ->
  (exists s, Prim2SF a = S754_zero s)
  \/ (exists s m e, Prim2SF a = S754_finite s m e).
Proof.
  unfold is_finite, is_infinity. intros H.
  apply negb_true_iff, orb_false_iff in H as [Hn Hi].
  apply is_nan_false in Hn.
  rewrite FloatAxioms.eqb_spec, FloatAxioms.abs_spec in Hi.
  change (Prim2SF infinity) with (S754_infinity false) in Hi.
  destruct (Prim2SF a) as [s|s| |s m e]; eauto; try congruence.
  discriminate.
Qed.

Lemma positive_spec (a : float) :
  (0 <? a) = true ->
  Prim2SF a = S754_infinity false
  \/ exists m e, Prim2SF a = S754_finite false m e.
Proof.
  rewrite FloatAxioms.ltb_spec, Prim2SF_zero. unfold SFltb.
  destruct (Prim2SF a) as [s|s| |s m e]; simpl; try discriminate;
    destruct s; try discriminate; eauto.
Qed.

Lemma mul_zero_r (a b : float) :
  is_finite a = true -> is_zero b = true -> is_zero (a * b) = true.
Proof.
  intros Ha Hb. apply is_zero_spec in Hb as [sb Hb].
  apply is_zero_spec. rewrite FloatAxioms.mul_spec, Hb.
  destruct (is_finite_spec a Ha) as [[s ->]|(s & m & e & ->)];
    simpl; eauto.
Qed.

Lemma mul_zero_l (a b : float) :
  is_zero a = true -> is_finite b = true -> is_zero (a * b) = true.
Proof.
  intros Ha Hb. apply is_zero_spec in Ha as [sa Ha].
  apply is_zero_spec. rewrite FloatAxioms.mul_spec, Ha.
  destruct (is_finite_spec b Hb) as [[s ->]|(s & m & e & ->)];
    simpl; eauto.
Qed.

Lemma add_zero_zero (a b : float) :
  is_zero a = true -> is_zero b = true -> is_zero (a + b) = true.
Proof.
  intros Ha Hb. apply is_zero_spec in Ha as [sa Ha].
  apply is_zero_spec in Hb as [sb Hb].
  apply is_zero_spec. rewrite FloatAxioms.add_spec, Ha, Hb.
  destruct sa, sb; simpl; eauto.
Qed.

Lemma sub_zero_zero (a b : float) :
  is_zero a = true -> is_zero b = true -> is_zero (a - b) = true.
Proof.
  intros Ha Hb. apply is_zero_spec in Ha as [sa Ha].
  apply is_zero_spec in Hb as [sb Hb].
  apply is_zero_spec. rewrite FloatAxioms.sub_spec, Ha, Hb.
  destruct sa, sb; simpl; eauto.
Qed.

Lemma div_zero_l (a b : float) :
  is_zero a = true -> (0 <? b) = true -> is_zero (a / b) = true.
Proof.
  intros Ha Hb. apply is_zero_spec in Ha as [sa Ha].
  apply is_zero_spec. rewrite FloatAxioms.div_spec, Ha.
  destruct (positive_spec b Hb) as [->|(m & e & ->)]; simpl; eauto.
Qed.

Lemma clamp_zero (v limit : float) :
  is_zero v = true -> (0 <=? limit) = true ->
  clamp v (- limit) limit = v.
Proof.
  intros Hv Hl. apply is_zero_spec in Hv as [sv Hv].
  unfold clamp.
  assert ((v <? - limit) = false) as ->.
  { rewrite FloatAxioms.ltb_spec, FloatAxioms.opp_spec, Hv.
    rewrite FloatAxioms.leb_spec, Prim2SF_zero in Hl.
    unfold SFltb. unfold SFleb in Hl.
    destruct (Prim2SF limit) as [s|s| |s m e]; simpl in *;
      try discriminate; try reflexivity; destruct s; simpl in *;
      try discriminate; reflexivity. }
  assert ((limit <? v) = false) as ->; [|reflexivity].
  rewrite FloatAxioms.ltb_spec, Hv.
  rewrite FloatAxioms.leb_spec, Prim2SF_zero in Hl.
  unfold SFltb. unfold SFleb in Hl.
  destruct (Prim2SF limit) as [s|s| |s m e]; simpl in *;
    try discriminate; try reflexivity; destruct s; simpl in *;
    try discriminate; reflexivity.
Qed.

(** A value above a non-negative limit is not below minus the limit. *)
Lemma above_limit_not_below (v limit : float) :
  (0 <=? limit) = true -> (limit <? v) = true -> (v <? - limit) = false.
Proof.
  rewrite FloatAxioms.leb_spec, !FloatAxioms.ltb_spec, FloatAxioms.opp_spec,
    Prim2SF_zero.
  unfold SFleb, SFltb.
  destruct (Prim2SF limit) as [sl|sl| |sl ml el],
           (Prim2SF v) as [sv|sv| |sv mv ev]; simpl;
    try discriminate; try reflexivity;
    try (destruct sl; simpl; (discriminate || reflexivity));
    try (destruct sv; simpl; (discriminate || reflexivity));
    try (destruct sl, sv; simpl; (discriminate || reflexivity)).
Qed.

Local Open Scope Z_scope.

Lemma SFsqrt_nonneg_or_nan (a : spec_float) :
  SFsqrt prec emax a = S754_nan \/ SFnonneg (SFsqrt prec emax a).
Proof.
  destruct a as [s|s| |s m e]; simpl; auto.
  - right. destruct s; reflexivity.
  - destruct s; auto. right. reflexivity.
  - destruct s; auto. right.
    unfold SFsqrt_core_binary.
    set (s := e - 2 * _).
    set (m' := match s with Z0 => Z.pos m | Z.pos _ => Z.shiftl (Z.pos m) s
               | Z.neg _ => 0 end).
    pose proof (Z.sqrtrem_sqrt m') as Hq.
    pose proof (Z.sqrt_nonneg m') as Hn.
    destruct (Z.sqrtrem m') as [q r]. simpl in Hq. subst q.
    apply binary_round_aux_nonneg. exact Hn.
Qed.

Local Close Scope Z_scope.

Lemma sqrt_not_negative (a : float) : (sqrt a <? 0) = false.
Proof.
  rewrite FloatAxioms.ltb_spec, FloatAxioms.sqrt_spec, Prim2SF_zero.
  unfold SFltb, SF64sqrt.
  destruct (SFsqrt_nonneg_or_nan (Prim2SF a)) as [->|H]; [reflexivity|].
  unfold SFnonneg, SFleb in H.
  destruct (SFsqrt prec emax (Prim2SF a)) as [s|s| |s m e]; simpl in *;
    try reflexivity; destruct s; simpl in *; try discriminate; reflexivity.
Qed.

(** A root is below no bound that is not positive. *)
Lemma sqrt_not_below (a bound : float) :
  (0 <? bound) = false -> (sqrt a <? bound) = false.
Proof.
  rewrite !FloatAxioms.ltb_spec, FloatAxioms.sqrt_spec, Prim2SF_zero.
  unfold SFltb, SF64sqrt.
  destruct (SFsqrt_nonneg_or_nan (Prim2SF a)) as [->|H]; [reflexivity|].
  unfold SFnonneg, SFleb in H.
  destruct (SFsqrt prec emax (Prim2SF a)) as [s|s| |s m e],
           (Prim2SF bound) as [sb|sb| |sb mb eb]; simpl in *;
    try discriminate; try reflexivity;
    try (destruct s; simpl in *; (discriminate || reflexivity));
    try (destruct sb; simpl in *; (discriminate || reflexivity));
    try (destruct s, sb; simpl in *; (discriminate || reflexivity)).
Qed.

End FloatZeros.

(* ================================================================== *)
(** ** The PID controller: saturation and the zero-error step *)
(* ================================================================== *)

Section PIDMore.

(** X1.  With a positive time step and a non-negative integral limit,
    the accumulator follows the sum [integral + error * dt] while that sum
    is within the limits, and sticks exactly at [+integralLimit] or
    [-integralLimit] when the sum is beyond them (anti-windup). *)
Theorem integral_follows_then_saturates
    (c : PIDController) (error dt : float) :
  (0 <? dt) = true ->
  (0 <=? integral_limit c) = true ->
  let sum := integral c + error * dt in
  let integral' := integral (calculate c error dt).2 in
  ((integral_limit c <? sum) = true -> integral' = integral_limit c)
  /\ ((sum <? - integral_limit c) = true -> integral' = - integral_limit c)
  /\ (within sum (integral_limit c) = true -> integral' = sum).
Proof.
  intros Hdt HL sum integral'. subst integral'.
  unfold calculate. rewrite (ltb_leb_false _ _ Hdt).
  cbn [snd integral]. fold sum. unfold clamp.
  split; [|split].
  - intros Hup. rewrite (above_limit_not_below _ _ HL Hup), Hup.
    reflexivity.
  - intros Hlow. rewrite Hlow. reflexivity.
  - unfold within. intros Hin.
    apply andb_true_iff in Hin as [H1 H2].
    rewrite (leb_ltb_false _ _ H1), (leb_ltb_false _ _ H2). reflexivity.
Qed.

Lemma integral_follows_then_saturates_witness :
  let c := mkPID 5 1.0 0.5 99.5 0 100.0 20.0 in
  (0 <? 0.01) = true
  /\ (0 <=? integral_limit c) = true
  /\ integral (calculate c 80.0 0.01).2 = 100.0
  /\ integral (calculate c 30.0 0.01).2 = 99.5 + 30.0 * 0.01.
Proof.
  intros c.
  destruct (integral_follows_then_saturates c 80.0 0.01 eq_refl eq_refl)
    as (Hup & _ & _).
  destruct (integral_follows_then_saturates c 30.0 0.01 eq_refl eq_refl)
    as (_ & _ & Hin).
  split; [reflexivity|]. split; [reflexivity|].
  split; [apply Hup; reflexivity|apply Hin; reflexivity].
Defined.

(** X2.  Right after [reset], a step with a zero error returns zero and
    leaves the accumulator at zero, for finite gains, non-negative limits
    and a finite positive time step.  (Zero is [+0] or [-0]: the sign
    follows the signs of the gains.) *)
Theorem reset_then_zero_error_returns_zero
    (c : PIDController) (error dt : float) :
  is_finite (kp c) = true ->
  is_finite (ki c) = true ->
  is_finite (kd c) = true ->
  (0 <=? integral_limit c) = true ->
  (0 <=? output_limit c) = true ->
  is_zero error = true ->
  (0 <? dt) = true ->
  is_finite dt = true ->
  let r := calculate (reset c) error dt in
  is_zero r.1 = true
  /\ is_zero (integral r.2) = true
  /\ prev_error r.2 = error.
Proof.
  intros Hkp Hki Hkd HL HO He Hdt Hfin r. subst r.
  unfold calculate. rewrite (ltb_leb_false _ _ Hdt).
  cbn [reset kp ki kd integral prev_error integral_limit output_limit
       fst snd].
  assert (is_zero (0 + error * dt) = true) as Hsum.
  { apply add_zero_zero; [reflexivity|]. apply mul_zero_l; assumption. }
  rewrite (clamp_zero _ _ Hsum HL).
  assert (is_zero (kp c * error + ki c * (0 + error * dt)
                   + kd c * ((error - 0) / dt)) = true) as Hout.
  { repeat apply add_zero_zero.
    - apply mul_zero_r; assumption.
    - apply mul_zero_r; assumption.
    - apply mul_zero_r; [assumption|].
      apply div_zero_l; [|assumption].
      apply sub_zero_zero; [assumption|reflexivity]. }
  rewrite (clamp_zero _ _ Hout HO).
  split; [exact Hout|]. split; [exact Hsum|reflexivity].
Qed.

Lemma reset_then_zero_error_returns_zero_witness :
  let c := mkPID 5 1.0 0.5 42.0 (-7.0) 100.0 20.0 in
  is_finite (kp c) = true /\ is_finite (ki c) = true
  /\ is_finite (kd c) = true
  /\ (0 <=? integral_limit c) = true /\ (0 <=? output_limit c) = true
  /\ is_zero 0 = true /\ (0 <? 0.01) = true /\ is_finite 0.01 = true
  /\ is_zero (calculate (reset c) 0 0.01).1 = true
  /\ is_zero (integral (calculate (reset c) 0 0.01).2) = true.
Proof.
  intros c.
  destruct (reset_then_zero_error_returns_zero c 0 0.01)
    as (H1 & H2 & _); try reflexivity.
  do 8 (split; [reflexivity|]). split; [exact H1|exact H2].
Defined.

End PIDMore.

(* ================================================================== *)
(** ** The control law: what a call leaves alone *)
(* ================================================================== *)

Section ControlFrames.

Lemma forceBlock_frame (clampF : Vec3 -> float -> Vec3)
    (pos vel : Vec3) (state : ControlState) (pids : ControlPIDs)
    (cfg : ControlConfig) (dt : float) :
  phase state = ClimbToCenter ->
  let r := forceBlock clampF pos vel state pids cfg dt in
  r.1.2 = state
  /\ speedPID r.2 = speedPID pids
  /\ radialPID r.2
     = (calculate (radialPID pids) (mag (sub (center cfg) pos)) dt).2.
Proof.
  intros Hp. unfold forceBlock. rewrite Hp. cbn [Phase_eqb].
  destruct (calculate (radialPID pids) _ dt). simpl. auto.
Qed.

(** X3.  The time in phase is reset exactly when the observed phase
    changes: a call that leaves the phase as it was adds [dt] to the time
    in phase, and a call that changes the phase leaves it at 0. *)
Theorem time_in_phase_reset_iff_phase_changes
    (pos vel : Vec3) (state : ControlState) (pids : ControlPIDs)
    (cfg : ControlConfig) (dt : float) :
  let state' := (computeControlForce pos vel state pids cfg dt).1.2 in
  timeInPhase state'
  = if Phase_eqb (phase state) (phase state')
    then timeInPhase state + dt
    else 0.
Proof.
  intros state'. subst state'.
  destruct (computeControlForce_phase pos vel state pids cfg dt) as [-> ->].
  destruct (phase state);
    destruct (groundWait cfg <=? timeInPhase state + dt);
    destruct (distance pos (center cfg) <? 2.0); reflexivity.
Qed.

(** X4.  The center-visited flag tells whether the agent is on the sphere:
    along every sequence of calls from the initial state, after each call
    the flag is set if and only if the phase is OnSphere. *)
Theorem visited_flag_iff_on_sphere
    (cfg : ControlConfig) (pids : ControlPIDs) (ins : list ControlInput) :
  Forall (fun r => visitedCenter r.1.2 = Phase_eqb (phase r.1.2) OnSphere)
         (controlTrace cfg ControlState_default pids ins).
Proof.
  assert (forall state : ControlState,
            visitedCenter state = Phase_eqb (phase state) OnSphere ->
            forall pids',
            Forall (fun r => visitedCenter r.1.2
                             = Phase_eqb (phase r.1.2) OnSphere)
                   (controlTrace cfg state pids' ins)) as Hgen.
  { induction ins as [|i ins IH]; intros state Hinv pids'; [constructor|].
    cbn [controlTrace].
    assert (visitedCenter
              (computeControlForce (in_pos i) (in_vel i) state pids' cfg
                                   (in_dt i)).1.2
            = Phase_eqb
                (phase (computeControlForce (in_pos i) (in_vel i) state
                                            pids' cfg (in_dt i)).1.2)
                OnSphere) as Hstep.
    { unfold computeControlForce, computeControlForce_with, groundWaitBlock,
        arrivalBlock, advanceTime.
      cbn [phase timeInPhase visitedCenter tangentialDir].
      destruct (phase state) eqn:Ep; cbn [Phase_eqb] in Hinv;
        cbn [phase timeInPhase visitedCenter tangentialDir Phase_eqb].
      - destruct (groundWait cfg <=? timeInPhase state + in_dt i);
          cbn [phase timeInPhase visitedCenter tangentialDir Phase_eqb
               fst snd]; [|exact Hinv].
        destruct (distance (in_pos i) (center cfg) <? 2.0);
          match goal with |- context [forceBlock ?c ?p ?v ?s ?q ?g ?d] =>
            destruct (forceBlock_state c p v s q g d) as (-> & _ & ->) end;
          cbn [phase visitedCenter Phase_eqb]; auto.
      - destruct (distance (in_pos i) (center cfg) <? 2.0);
          match goal with |- context [forceBlock ?c ?p ?v ?s ?q ?g ?d] =>
            destruct (forceBlock_state c p v s q g d) as (-> & _ & ->) end;
          cbn [phase visitedCenter Phase_eqb]; auto.
      - match goal with |- context [forceBlock ?c ?p ?v ?s ?q ?g ?d] =>
          destruct (forceBlock_state c p v s q g d) as (-> & _ & ->) end.
        cbn [phase visitedCenter Phase_eqb]. exact Hinv. }
    constructor; [exact Hstep|]. apply IH. exact Hstep. }
  apply Hgen. reflexivity.
Qed.

(** X5.  A call after which the phase is still GroundWait was the early
    return: the force is the exact zero vector, both PID controllers are
    untouched, and the state differs only by the added time. *)
Theorem still_waiting_means_motors_off
    (pos vel : Vec3) (state : ControlState) (pids : ControlPIDs)
    (cfg : ControlConfig) (dt : float) :
  phase (computeControlForce pos vel state pids cfg dt).1.2 = GroundWait ->
  computeControlForce pos vel state pids cfg dt
  = (mkVec3 0 0 0, advanceTime state dt, pids).
Proof.
  intros Hend.
  destruct (computeControlForce_phase pos vel state pids cfg dt) as [Hph _].
  rewrite Hend in Hph.
  unfold computeControlForce, computeControlForce_with, groundWaitBlock.
  cbn [advanceTime phase timeInPhase].
  destruct (phase state); cbn [Phase_eqb].
  - destruct (groundWait cfg <=? timeInPhase state + dt); [|reflexivity].
    destruct (distance pos (center cfg) <? 2.0); discriminate.
  - destruct (distance pos (center cfg) <? 2.0); discriminate.
  - discriminate.
Qed.

Lemma still_waiting_means_motors_off_witness :
  let pids := pids (UAV_ctor (mkVec3 0 0 0) ControlConfig_default) in
  let r := computeControlForce (mkVec3 3 4 0) (mkVec3 0 0 0)
             ControlState_default pids ControlConfig_default 0.01 in
  phase r.1.2 = GroundWait
  /\ r = (mkVec3 0 0 0, advanceTime ControlState_default 0.01, pids).
Proof.
  intros pids r. split; [reflexivity|].
  apply (still_waiting_means_motors_off (mkVec3 3 4 0) (mkVec3 0 0 0)
           ControlState_default pids ControlConfig_default 0.01).
  reflexivity.
Defined.

(** X6.  A call after which the phase is ClimbToCenter drives the radial
    controller only: the speed controller, the cached tangential direction
    and the center-visited flag are as before, and the radial controller
    has made one [calculate] step with the distance to the center as its
    error. *)
Theorem climbing_drives_radial_controller_only
    (pos vel : Vec3) (state : ControlState) (pids : ControlPIDs)
    (cfg : ControlConfig) (dt : float) :
  let r := computeControlForce pos vel state pids cfg dt in
  phase r.1.2 = ClimbToCenter ->
  speedPID r.2 = speedPID pids
  /\ tangentialDir r.1.2 = tangentialDir state
  /\ visitedCenter r.1.2 = visitedCenter state
  /\ radialPID r.2
     = (calculate (radialPID pids) (mag (sub (center cfg) pos)) dt).2.
Proof.
  intros r Hend. subst r.
  destruct (computeControlForce_phase pos vel state pids cfg dt) as [Hph _].
  rewrite Hend in Hph. revert Hend.
  unfold computeControlForce, computeControlForce_with, groundWaitBlock,
    arrivalBlock, advanceTime.
  cbn [phase timeInPhase visitedCenter tangentialDir].
  destruct (phase state) eqn:Ep; cbn [Phase_eqb].
  - destruct (groundWait cfg <=? timeInPhase state + dt);
      [|discriminate].
    cbn [phase Phase_eqb visitedCenter tangentialDir].
    destruct (distance pos (center cfg) <? 2.0); [discriminate|].
    intros _.
    match goal with |- context [forceBlock ?c ?p ?v ?s ?q ?g ?d] =>
      pose proof (forceBlock_frame c p v s q g d eq_refl) as H
    end.
    cbv zeta in H. destruct H as (H1 & H2 & H3). rewrite H1, H2, H3. auto.
  - cbn [phase Phase_eqb visitedCenter tangentialDir].
    destruct (distance pos (center cfg) <? 2.0); [discriminate|].
    intros _.
    match goal with |- context [forceBlock ?c ?p ?v ?s ?q ?g ?d] =>
      pose proof (forceBlock_frame c p v s q g d eq_refl) as H
    end.
    cbv zeta in H. destruct H as (H1 & H2 & H3). rewrite H1, H2, H3. auto.
  - discriminate.
Qed.

Lemma climbing_drives_radial_controller_only_witness :
  let pids := pids (UAV_ctor (mkVec3 0 0 0) ControlConfig_default) in
  let state := mkControlState ClimbToCenter 1.0 false (mkVec3 1 0 0) in
  let r := computeControlForce (mkVec3 0 0 10) (mkVec3 0 0 1) state pids
                               ControlConfig_default 0.01 in
  phase r.1.2 = ClimbToCenter
  /\ speedPID r.2 = speedPID pids
  /\ tangentialDir r.1.2 = tangentialDir state.
Proof.
  intros pids state r. split; [reflexivity|].
  destruct (climbing_drives_radial_controller_only
              (mkVec3 0 0 10) (mkVec3 0 0 1) state pids
              ControlConfig_default 0.01 eq_refl) as (H1 & H2 & _).
  split; [exact H1|exact H2].
Defined.

(** X17.  [phaseToString] gives distinct phases distinct names: two names
    are equal exactly when the phases are. *)
Theorem phaseToString_tells_phases_apart (p q : Phase) :
  String.eqb (phaseToString p) (phaseToString q) = Phase_eqb p q.
Proof. destruct p, q; reflexivity. Qed.

End ControlFrames.

(* ================================================================== *)
(** ** Vectors and the agent loop: signs and the ground *)
(* ================================================================== *)

Section GroundAndSigns.

(** X7.  A magnitude, and so a distance, is never below zero: it is a
    non-negative number or not a number. *)
Theorem mag_and_distance_never_negative (a b : Vec3) :
  (mag a <? 0) = false /\ (distance a b <? 0) = false.
Proof.
  split; [|unfold distance]; apply sqrt_not_negative.
Qed.

(** X8.  After every iteration of the agent loop the altitude is not
    below the ground, whatever the agent was before: the ground contact
    puts a negative altitude back to zero. *)
Theorem never_below_ground (n : nat) (u : UAV) :
  (z (position (run_ticks (S n) u)) <? 0) = false.
Proof.
  assert (forall w : UAV, (z (position (tick w)) <? 0) = false) as Htick.
  { intros w. unfold tick.
    destruct (computeControlForce _ _ _ _ _ _) as [[force state'] pids'].
    match goal with |- context [if ?c <? 0.0 then _ else _] =>
      destruct (c <? 0.0) eqn:Ez end.
    - reflexivity.
    - cbn [position]. exact Ez. }
  revert u. induction n as [|n IH]; intros u.
  - apply Htick.
  - change (run_ticks (S (S n)) u) with (run_ticks (S n) (tick u)).
    apply IH.
Qed.

Lemma add_zero_twice (a : float) : a + 0 + 0 = a + 0.
Proof.
  apply Prim2SF_inj. rewrite !FloatAxioms.add_spec, Prim2SF_zero.
  destruct (Prim2SF a) as [s|s| |s m e]; try reflexivity.
  destruct s; reflexivity.
Qed.

(** One tick of an agent at rest on the ground, waiting. *)
Lemma tick_resting (u : UAV) :
  phase (ctrlState u) = GroundWait ->
  (timeInPhase (ctrlState u) + 0.01 <? groundWait (cfg u)) = true ->
  velocity u = mkVec3 0 0 0 ->
  z (position u) = 0 ->
  tick u
  = mkUAV (mkVec3 (x (position u) + 0) (y (position u) + 0) 0)
          (mkVec3 0 0 0) (mkVec3 0 0 (-10))
          (cfg u) (advanceTime (ctrlState u) 0.01) (sim.pids u)
          (lastPrintedPhase u) (printTimer u).
Proof.
  intros Hp Hlt Hv Hz. unfold tick.
  rewrite (computeControlForce_waiting _ _ _ _ _ _ Hp Hlt).
  rewrite Hv. unfold add, scale, divide, mass, g.
  cbn [x y z advanceTime phase]. rewrite Hz, Hp.
  reflexivity.
Qed.

(** X9.  An agent at rest on the ground stays at rest for the whole
    ground wait: through every run of ticks whose incremented time in
    phase stays below the wait, the velocity is the exact zero vector, the
    altitude is zero, the horizontal position is the one it started with
    ([+ 0] only turns a [-0] coordinate into [+0]), the acceleration
    published is gravity alone, and the PID controllers are untouched. *)
Theorem resting_agent_stays_put (n : nat) (u : UAV) :
  phase (ctrlState u) = GroundWait ->
  staysBelow (timeInPhase (ctrlState u)) (groundWait (cfg u))
             (replicate (S n) 0.01) = true ->
  velocity u = mkVec3 0 0 0 ->
  z (position u) = 0 ->
  run_ticks (S n) u
  = mkUAV (mkVec3 (x (position u) + 0) (y (position u) + 0) 0)
          (mkVec3 0 0 0) (mkVec3 0 0 (-10))
          (cfg u)
          (mkControlState GroundWait
             (timeAfter (timeInPhase (ctrlState u)) (replicate (S n) 0.01))
             (visitedCenter (ctrlState u)) (tangentialDir (ctrlState u)))
          (sim.pids u) (lastPrintedPhase u) (printTimer u).
Proof.
  revert u. induction n as [|n IH]; intros u Hp Hb Hv Hz.
  - cbn [replicate staysBelow] in Hb.
    apply andb_true_iff in Hb as [Hlt _].
    cbn [run_ticks]. rewrite (tick_resting u Hp Hlt Hv Hz).
    unfold advanceTime. rewrite Hp. reflexivity.
  - change (replicate (S (S n)) 0.01) with (0.01 :: replicate (S n) 0.01)
      in Hb |- *.
    cbn [staysBelow] in Hb. apply andb_true_iff in Hb as [Hlt Hb].
    change (run_ticks (S (S n)) u) with (run_ticks (S n) (tick u)).
    rewrite (tick_resting u Hp Hlt Hv Hz).
    rewrite IH; cbn [ctrlState cfg velocity position advanceTime phase
                     timeInPhase x y z visitedCenter tangentialDir
                     sim.pids lastPrintedPhase printTimer];
      try assumption; try reflexivity.
    rewrite !add_zero_twice. reflexivity.
Qed.

Lemma resting_agent_stays_put_witness :
  let u := UAV_ctor (mkVec3 (-46) (-22.5) 0) ControlConfig_default in
  phase (ctrlState u) = GroundWait
  /\ staysBelow (timeInPhase (ctrlState u)) (groundWait (cfg u))
                (replicate 500 0.01) = true
  /\ velocity u = mkVec3 0 0 0
  /\ z (position u) = 0
  /\ position (run_ticks 500 u) = mkVec3 (-46) (-22.5) 0
  /\ velocity (run_ticks 500 u) = mkVec3 0 0 0.
Proof.
  intros u.
  assert (staysBelow (timeInPhase (ctrlState u)) (groundWait (cfg u))
                     (replicate 500 0.01) = true) as Hb
    by (vm_compute; reflexivity).
  split; [reflexivity|]. split; [exact Hb|].
  split; [reflexivity|]. split; [reflexivity|].
  rewrite (resting_agent_stays_put 499 u eq_refl Hb eq_refl eq_refl).
  split; reflexivity.
Defined.

End GroundAndSigns.

(* ================================================================== *)
(** ** The collision pass: nothing to resolve, and resolving twice *)
(* ================================================================== *)

Section CollisionMore.

Lemma filter_nothing {A : Type} (P : A -> Prop) `{forall a, Decision (P a)}
    (l : list A) :
  (forall a, ~ P a) -> filter P l = [].
Proof.
  intros Hn. induction l as [|a l IH]; [reflexivity|].
  rewrite filter_cons_False by apply Hn. exact IH.
Qed.

Lemma pass_positions (uavs : list UAV) (minDist : float) :
  position <$> checkAndResolveCollisions uavs minDist = position <$> uavs.
Proof.
  apply list_eq. intros k. rewrite !list_lookup_fmap.
  destruct (uavs !! k) as [u|] eqn:Hk.
  - rewrite (pass_lookup _ _ _ _ Hk).
    destruct (lastPartner uavs minDist k); reflexivity.
  - apply lookup_ge_None in Hk.
    rewrite (proj2 (lookup_ge_None _ k)); [reflexivity|].
    rewrite pass_length. exact Hk.
Qed.

Lemma snapshot_position (us1 us2 : list UAV) (i : nat) :
  position <$> us1 = position <$> us2 ->
  pos ((getSnapshot <$> us1) !!! i) = pos ((getSnapshot <$> us2) !!! i).
Proof.
  intros E. rewrite !list_lookup_total_alt, !list_lookup_fmap.
  assert ((position <$> us1) !! i = (position <$> us2) !! i) as Ei
    by (rewrite E; reflexivity).
  rewrite !list_lookup_fmap in Ei.
  destruct (us1 !! i), (us2 !! i); simpl in *; congruence.
Qed.

Lemma collidingPairs_positions (us1 us2 : list UAV) (minDist : float) :
  position <$> us1 = position <$> us2 ->
  collidingPairs us1 minDist = collidingPairs us2 minDist.
Proof.
  intros E. unfold collidingPairs.
  assert (length us1 = length us2) as ->.
  { rewrite <- (length_fmap position us1), E. apply length_fmap. }
  apply list_filter_iff. intros p. unfold collides.
  rewrite !(snapshot_position us1 us2) by exact E. reflexivity.
Qed.

Lemma lastPartner_single (uavs : list UAV) (minDist : float) (a b k : nat) :
  collidingPairs uavs minDist = [(a, b)] ->
  lastPartner uavs minDist k
  = if (a =? k)%nat then Some b
    else if (b =? k)%nat then Some a else None.
Proof.
  intros Hone. unfold lastPartner. rewrite Hone.
  cbn [omap list_omap]. unfold partnerIn. cbn [fst snd].
  destruct (a =? k)%nat; [reflexivity|].
  destruct (b =? k)%nat; reflexivity.
Qed.

(** X10.  When no pair of agents is within [minDist], the pass returns
    the collection exactly as it was given. *)
Theorem no_collision_pass_is_identity (uavs : list UAV) (minDist : float) :
  collidingPairs uavs minDist = [] ->
  checkAndResolveCollisions uavs minDist = uavs.
Proof.
  intros Hnone. apply list_eq. intros k.
  destruct (uavs !! k) as [u|] eqn:Hk.
  - rewrite (pass_lookup _ _ _ _ Hk). unfold lastPartner.
    rewrite Hnone. reflexivity.
  - apply lookup_ge_None in Hk. apply lookup_ge_None.
    rewrite pass_length. exact Hk.
Qed.

Lemma no_collision_pass_is_identity_witness :
  let agent p v := setVelocity v (UAV_ctor p ControlConfig_default) in
  let uavs := [agent (mkVec3 (-46) (-22.5) 0) (mkVec3 1 0 0);
               agent (mkVec3 (-24) (-22.5) 0) (mkVec3 0 1 0);
               agent (mkVec3 (-2) (-22.5) 0) (mkVec3 0 0 1)] in
  collidingPairs uavs 0.01 = []
  /\ checkAndResolveCollisions uavs 0.01 = uavs.
Proof.
  intros agent uavs.
  assert (collidingPairs uavs 0.01 = []) as Hnone
    by (vm_compute; reflexivity).
  split; [exact Hnone|].
  apply (no_collision_pass_is_identity uavs 0.01 Hnone).
Defined.

(** X11.  With a [minDist] that is not positive (zero, negative, or not
    a number) no distance is below it, and the pass changes nothing:
    agents at the very same position are not resolved either. *)
Theorem pass_needs_positive_minDist (uavs : list UAV) (minDist : float) :
  (0 <? minDist) = false ->
  collidingPairs uavs minDist = []
  /\ checkAndResolveCollisions uavs minDist = uavs.
Proof.
  intros Hd.
  assert (collidingPairs uavs minDist = []) as Hnone.
  { unfold collidingPairs. apply filter_nothing. intros p.
    unfold collides, distance, mag.
    rewrite (sqrt_not_below _ _ Hd). intros []. }
  split; [exact Hnone|].
  apply list_eq. intros k.
  destruct (uavs !! k) as [u|] eqn:Hk.
  - rewrite (pass_lookup _ _ _ _ Hk). unfold lastPartner.
    rewrite Hnone. reflexivity.
  - apply lookup_ge_None in Hk. apply lookup_ge_None.
    rewrite pass_length. exact Hk.
Qed.

Lemma pass_needs_positive_minDist_witness :
  let agent v := setVelocity v (UAV_ctor (mkVec3 1 2 3)
                                         ControlConfig_default) in
  let uavs := [agent (mkVec3 1 0 0); agent (mkVec3 0 1 0)] in
  (0 <? 0.0) = false
  /\ checkAndResolveCollisions uavs 0.0 = uavs.
Proof.
  intros agent uavs. split; [reflexivity|].
  apply (pass_needs_positive_minDist uavs 0.0). reflexivity.
Defined.

(** X12.  When exactly one pair of agents is within [minDist], running
    the pass twice gives back the collection it started from: the second
    pass sees the same positions, finds the same pair and swaps the two
    velocities back. *)
Theorem single_collision_pass_twice_restores
    (uavs : list UAV) (minDist : float) (a b : nat) :
  collidingPairs uavs minDist = [(a, b)] ->
  checkAndResolveCollisions (checkAndResolveCollisions uavs minDist) minDist
  = uavs.
Proof.
  intros Hone.
  set (uavs' := checkAndResolveCollisions uavs minDist).
  assert (collidingPairs uavs' minDist = [(a, b)]) as Hone'.
  { rewrite <- Hone. apply collidingPairs_positions, pass_positions. }
  assert ((a, b) ∈ collidingPairs uavs minDist) as Hab
    by (rewrite Hone; constructor).
  apply list_elem_of_filter in Hab as [_ Hab].
  apply pairsInOrder_spec in Hab. cbn [fst snd] in Hab.
  destruct (lookup_lt_is_Some_2 uavs a ltac:(lia)) as [ua Hua].
  destruct (lookup_lt_is_Some_2 uavs b ltac:(lia)) as [ub Hub].
  assert (uavs' !! a = Some (setVelocity (velocity ub) ua)) as Ha'.
  { unfold uavs'.
    rewrite (pass_lookup _ _ _ _ Hua), (lastPartner_single _ _ _ _ _ Hone),
      Nat.eqb_refl, (snapshot_velocity _ _ _ Hub). reflexivity. }
  assert (uavs' !! b = Some (setVelocity (velocity ua) ub)) as Hb'.
  { unfold uavs'.
    rewrite (pass_lookup _ _ _ _ Hub), (lastPartner_single _ _ _ _ _ Hone),
      Nat.eqb_refl.
    destruct (a =? b)%nat eqn:E; [apply Nat.eqb_eq in E; lia|].
    rewrite (snapshot_velocity _ _ _ Hua). reflexivity. }
  apply list_eq. intros k.
  destruct (uavs !! k) as [u|] eqn:Hk.
  - destruct (a =? k)%nat eqn:Eak.
    + apply Nat.eqb_eq in Eak. subst k.
      rewrite (pass_lookup _ _ _ _ Ha'),
        (lastPartner_single _ _ _ _ _ Hone'), Nat.eqb_refl,
        (snapshot_velocity _ _ _ Hb').
      assert (u = ua) as -> by congruence.
      destruct ua; reflexivity.
    + destruct (b =? k)%nat eqn:Ebk.
      * apply Nat.eqb_eq in Ebk. subst k.
        rewrite (pass_lookup _ _ _ _ Hb'),
          (lastPartner_single _ _ _ _ _ Hone'), Eak, Nat.eqb_refl,
          (snapshot_velocity _ _ _ Ha').
        assert (u = ub) as -> by congruence.
        destruct ub; reflexivity.
      * assert (uavs' !! k = Some u) as Hk'.
        { unfold uavs'.
          rewrite (pass_lookup _ _ _ _ Hk),
            (lastPartner_single _ _ _ _ _ Hone), Eak, Ebk. reflexivity. }
        rewrite (pass_lookup _ _ _ _ Hk'),
          (lastPartner_single _ _ _ _ _ Hone'), Eak, Ebk. reflexivity.
  - apply lookup_ge_None in Hk. apply lookup_ge_None.
    unfold uavs'. rewrite !pass_length. exact Hk.
Qed.

Lemma single_collision_pass_twice_restores_witness :
  let agent p v := setVelocity v (UAV_ctor p ControlConfig_default) in
  let uavs := [agent (mkVec3 0 0 0) (mkVec3 1 2 3);
               agent (mkVec3 0.005 0 0) (mkVec3 (-4) 5 0.5);
               agent (mkVec3 30 0 0) (mkVec3 7 7 7)] in
  collidingPairs uavs 0.01 = [(0, 1)]%nat
  /\ checkAndResolveCollisions (checkAndResolveCollisions uavs 0.01) 0.01
     = uavs.
Proof.
  intros agent uavs.
  assert (collidingPairs uavs 0.01 = [(0, 1)]%nat) as Hone
    by (vm_compute; reflexivity).
  split; [exact Hone|].
  apply (single_collision_pass_twice_restores uavs 0.01 0 1 Hone).
Defined.

End CollisionMore.

(* ================================================================== *)
(** ** The OBJ loader: references, triangle fans and the outcome *)
(* ================================================================== *)

Section ObjLoader.

Context {coord : Type} (zero : coord).

Local Open Scope Z_scope.

Lemma to_int_le (size : nat) : viewer.to_int size <= Z.of_nat size.
Proof.
  unfold viewer.to_int.
  pose proof (Z.mod_eq (Z.of_nat size + 2147483648) 4294967296 ltac:(lia))
    as E.
  pose proof (Z.div_pos (Z.of_nat size + 2147483648) 4294967296
                ltac:(lia) ltac:(lia)).
  lia.
Qed.

Lemma to_int_fits (size : nat) :
  Z.of_nat size < 2147483648 -> viewer.to_int size = Z.of_nat size.
Proof.
  intros Hs. unfold viewer.to_int.
  rewrite Z.mod_small by lia. lia.
Qed.

Lemma selected_zeroBased (size : nat) (v : Z) :
  Z.of_nat size < 2147483648 ->
  selected size v
  = if viewer.outOfRange (viewer.zeroBased v size) size then None
    else Some (viewer.zeroBased v size).
Proof.
  intros Hfit. unfold selected, viewer.outOfRange, viewer.zeroBased.
  rewrite (to_int_fits size Hfit).
  destruct (0 <? v) eqn:E0;
    [apply Z.ltb_lt in E0|apply Z.ltb_ge in E0].
  - replace (v - 1 <? 0) with false by (symmetry; apply Z.ltb_ge; lia).
    replace (1 <=? v) with true by (symmetry; apply Z.leb_le; lia).
    cbn [orb andb].
    destruct (Z.of_nat size <=? v - 1) eqn:E2;
      [apply Z.leb_le in E2|apply Z.leb_gt in E2].
    + replace (v <=? Z.of_nat size) with false
        by (symmetry; apply Z.leb_gt; lia).
      replace (v <=? -1) with false by (symmetry; apply Z.leb_gt; lia).
      rewrite andb_false_r. reflexivity.
    + replace (v <=? Z.of_nat size) with true
        by (symmetry; apply Z.leb_le; lia).
      reflexivity.
  - replace (1 <=? v) with false by (symmetry; apply Z.leb_gt; lia).
    cbn [andb].
    destruct (Z.of_nat size + v <? 0) eqn:E1;
      [apply Z.ltb_lt in E1|apply Z.ltb_ge in E1]; cbn [orb].
    + replace (- Z.of_nat size <=? v) with false
        by (symmetry; apply Z.leb_gt; lia).
      reflexivity.
    + replace (- Z.of_nat size <=? v) with true
        by (symmetry; apply Z.leb_le; lia).
      cbn [andb].
      destruct (Z.of_nat size <=? Z.of_nat size + v) eqn:E2;
        [apply Z.leb_le in E2|apply Z.leb_gt in E2].
      * replace (v <=? -1) with false by (symmetry; apply Z.leb_gt; lia).
        reflexivity.
      * replace (v <=? -1) with true by (symmetry; apply Z.leb_le; lia).
        reflexivity.
Qed.

(** X13.  While [positions] and [texcoords] fit an [int], one face token
    does this to [posIdx] and [texIdx].  If its index text holds no number,
    or a number that is no [int], the loader throws.  An index read as [v]
    names a position exactly when [v] is one of [1 .. size] (entry
    [v - 1]) or one of [-size .. -1] (entry [size + v]); the index 0 and
    every index beyond the positions drop the token with its texture text
    unread, so that text cannot throw.  For a token that names a position,
    a texture text without a number, or with a number that is no [int],
    throws; otherwise the position index is pushed together with the
    texture entry named in the same way, or with the invalid mark when the
    texture text is empty or names no entry. *)
Theorem face_reference_selects
    (npos ntex : nat) (idx : list Z * list Z)
    (idxStr : viewer.NumText) (vtStr : option viewer.NumText) :
  Z.of_nat npos < 2147483648 ->
  Z.of_nat ntex < 2147483648 ->
  viewer.faceRef npos ntex idx (viewer.Ref idxStr vtStr)
  = match idxStr with
    | viewer.NoNumber => None
    | viewer.Number v =>
        if negb (inInt v) then None
        else
          match selected npos v with
          | None => Some idx
          | Some i =>
              match vtStr with
              | None => Some (idx.1 ++ [i], idx.2 ++ [viewer.noIndex])
              | Some viewer.NoNumber => None
              | Some (viewer.Number vt) =>
                  if inInt vt
                  then Some (idx.1 ++ [i],
                             idx.2 ++ [default viewer.noIndex
                                               (selected ntex vt)])
                  else None
              end
          end
    end.
Proof.
  intros Hpos Htex. unfold viewer.faceRef.
  destruct idxStr as [|v]; [reflexivity|]. cbn [viewer.stoi].
  change ((viewer.INT_MIN <=? v) && (v <=? viewer.INT_MAX)) with (inInt v).
  destruct (inInt v); [|reflexivity]. cbn [negb].
  rewrite (selected_zeroBased npos v Hpos). cbv zeta.
  destruct (viewer.outOfRange (viewer.zeroBased v npos) npos);
    [reflexivity|].
  unfold viewer.texRef. destruct vtStr as [[|vt]|]; try reflexivity.
  cbn [viewer.stoi].
  change ((viewer.INT_MIN <=? vt) && (vt <=? viewer.INT_MAX))
    with (inInt vt).
  destruct (inInt vt); [|reflexivity].
  rewrite (selected_zeroBased ntex vt Htex). cbv zeta.
  destruct (viewer.outOfRange (viewer.zeroBased vt ntex) ntex); reflexivity.
Qed.

Lemma face_reference_selects_witness :
  (Z.of_nat 4 < 2147483648 /\ Z.of_nat 2 < 2147483648)
  /\ viewer.faceRef 4 2 ([0], [7]) (viewer.Ref (viewer.Number (-1))
                                      (Some (viewer.Number 2)))
     = Some ([0; 3], [7; 1])
  /\ viewer.faceRef 4 2 ([0], [7]) (viewer.Ref (viewer.Number 5)
                                      (Some viewer.NoNumber))
     = Some ([0], [7])
  /\ viewer.faceRef 4 2 ([0], [7]) (viewer.Ref (viewer.Number 4)
                                      (Some viewer.NoNumber))
     = None
  /\ viewer.faceRef 4 2 ([0], [7]) (viewer.Ref (viewer.Number 4294967297)
                                      None)
     = None.
Proof.
  assert (Z.of_nat 4 < 2147483648) as Hpos by (cbn; lia).
  assert (Z.of_nat 2 < 2147483648) as Htex by (cbn; lia).
  split; [split; assumption|].
  split; [exact (face_reference_selects 4 2 ([0], [7]) (viewer.Number (-1))
                   (Some (viewer.Number 2)) Hpos Htex)|].
  split; [exact (face_reference_selects 4 2 ([0], [7]) (viewer.Number 5)
                   (Some viewer.NoNumber) Hpos Htex)|].
  split; [exact (face_reference_selects 4 2 ([0], [7]) (viewer.Number 4)
                   (Some viewer.NoNumber) Hpos Htex)|].
  exact (face_reference_selects 4 2 ([0], [7]) (viewer.Number 4294967297)
           None Hpos Htex).
Defined.

Lemma faceRef_valid (npos ntex : nat) (idx idx' : list Z * list Z)
    (r : viewer.FaceRef) :
  viewer.indicesValid npos ntex idx ->
  viewer.faceRef npos ntex idx r = Some idx' ->
  viewer.indicesValid npos ntex idx'.
Proof.
  intros (Hl & Hp & Ht) Hr. destruct r as [|idxStr vtStr].
  { inversion Hr. subst idx'. repeat split; assumption. }
  unfold viewer.faceRef in Hr.
  destruct (viewer.stoi idxStr) as [s|]; [|discriminate].
  destruct (viewer.outOfRange (viewer.zeroBased s npos) npos) eqn:Er.
  { inversion Hr. subst idx'. repeat split; assumption. }
  assert (0 <= viewer.zeroBased s npos < Z.of_nat npos) as Hin.
  { unfold viewer.outOfRange in Er. apply orb_false_iff in Er as [E1 E2].
    apply Z.ltb_ge in E1. apply Z.leb_gt in E2.
    pose proof (to_int_le npos). lia. }
  destruct (viewer.texRef ntex vtStr) as [t|] eqn:Et; [|discriminate].
  inversion Hr. subst idx'. clear Hr.
  assert (t = viewer.noIndex \/ 0 <= t < Z.of_nat ntex) as Htex.
  { unfold viewer.texRef in Et. destruct vtStr as [vt|].
    - destruct (viewer.stoi vt) as [v|]; [|discriminate].
      destruct (viewer.outOfRange (viewer.zeroBased v ntex) ntex) eqn:Eo;
        inversion Et; [left; reflexivity|]. right.
      unfold viewer.outOfRange in Eo. apply orb_false_iff in Eo as [E1 E2].
      apply Z.ltb_ge in E1. apply Z.leb_gt in E2.
      pose proof (to_int_le ntex). lia.
    - inversion Et. left. reflexivity. }
  unfold viewer.indicesValid. cbn [fst snd].
  rewrite !length_app, Hl. split; [reflexivity|].
  split; apply Forall_app; split; try assumption; constructor; auto.
Qed.

Lemma faceRefs_valid (npos ntex : nat) (refs : list viewer.FaceRef)
    (idx : list Z * list Z) :
  viewer.faceRefs npos ntex refs = Some idx ->
  viewer.indicesValid npos ntex idx.
Proof.
  unfold viewer.faceRefs. revert idx.
  induction refs as [|r refs IH] using rev_ind; intros idx Hr.
  - inversion Hr. repeat split; constructor.
  - rewrite foldl_app in Hr. cbn [foldl] in Hr.
    destruct (foldl _ (Some ([], [])) refs) as [idx0|];
      [|discriminate].
    cbn in Hr. eapply faceRef_valid; [|exact Hr]. apply IH. reflexivity.
Qed.

(** X14.  While [positions] and [texcoords] fit an [int]: for every face
    line whose token loop ends without an exception of [std::stoi], the
    two index vectors it has built have the same length, every position
    index is within the positions read so far, and every texture index is
    within the texture coordinates read so far or is the invalid mark: no
    corner of the face reads outside a vector. *)
Theorem face_indices_aligned_and_in_range
    (npos ntex : nat) (refs : list viewer.FaceRef) (idx : list Z * list Z) :
  Z.of_nat npos < 2147483648 ->
  Z.of_nat ntex < 2147483648 ->
  viewer.faceRefs npos ntex refs = Some idx ->
  length idx.1 = length idx.2
  /\ Forall (fun i => 0 <= i < Z.of_nat npos) idx.1
  /\ Forall (fun i => i = viewer.noIndex \/ 0 <= i < Z.of_nat ntex) idx.2.
Proof.
  intros _ _ Hr.
  destruct (faceRefs_valid npos ntex refs idx Hr) as (Hlen & Hpos & Htex).
  split; [exact Hlen|]. split; [exact Hpos|exact Htex].
Qed.

Lemma face_indices_aligned_and_in_range_witness :
  let refs := [viewer.Ref (viewer.Number 1) None;
               viewer.Ref (viewer.Number 9) (Some viewer.NoNumber);
               viewer.Ref (viewer.Number (-1)) (Some (viewer.Number 7));
               viewer.RefEmpty;
               viewer.Ref (viewer.Number 2) (Some (viewer.Number 2))] in
  let idx := ([0; 3; 1], [viewer.noIndex; viewer.noIndex; 1]) in
  (Z.of_nat 4 < 2147483648 /\ Z.of_nat 2 < 2147483648)
  /\ viewer.faceRefs 4 2 refs = Some idx
  /\ length idx.1 = length idx.2
  /\ Forall (fun i => 0 <= i < Z.of_nat 4) idx.1
  /\ Forall (fun i => i = viewer.noIndex \/ 0 <= i < Z.of_nat 2) idx.2.
Proof.
  intros refs idx.
  assert (Z.of_nat 4 < 2147483648) as Hpos by (cbn; lia).
  assert (Z.of_nat 2 < 2147483648) as Htex by (cbn; lia).
  assert (viewer.faceRefs 4 2 refs = Some idx) as Hr by reflexivity.
  split; [split; assumption|]. split; [exact Hr|].
  exact (face_indices_aligned_and_in_range 4 2 refs idx Hpos Htex Hr).
Defined.

Local Close Scope Z_scope.

Lemma length_bind_const {A B : Type} (f : A -> list B) (n : nat)
    (l : list A) :
  (forall a, length (f a) = n) -> length (l ≫= f) = (length l * n)%nat.
Proof.
  intros Hf. induction l as [|a l IH]; [reflexivity|].
  rewrite bind_cons, length_app, Hf, IH. simpl. lia.
Qed.

Lemma length_fan
    (positions : list (viewer.Point coord))
    (texcoords : list (viewer.Vec2 coord)) (posIdx texIdx : list Z) :
  length (viewer.fan zero positions texcoords posIdx texIdx)
  = (3 * (length posIdx - 2))%nat.
Proof.
  unfold viewer.fan.
  destruct (3 <=? length posIdx)%nat eqn:E.
  - rewrite (length_bind_const _ 3) by (intros i; reflexivity).
    rewrite length_seq. lia.
  - apply Nat.leb_gt in E. simpl. lia.
Qed.

(** X15.  A face with [n] accepted references gives [n - 2] triangles,
    three vertices each, and none when [n] is below three. *)
Theorem fan_vertex_count
    (positions : list (viewer.Point coord))
    (texcoords : list (viewer.Vec2 coord)) (posIdx texIdx : list Z) :
  length (viewer.fan zero positions texcoords posIdx texIdx)
  = (3 * (length posIdx - 2))%nat.
Proof.
  unfold viewer.fan.
  destruct (3 <=? length posIdx)%nat eqn:E.
  - rewrite (length_bind_const (fun i => _ <$> [0; i; i + 1]%nat) 3)
      by (intros i; reflexivity).
    rewrite length_seq. apply Nat.leb_le in E. lia.
  - apply Nat.leb_gt in E. cbn [length]. lia.
Qed.

Lemma corner_declared
    (positions : list (viewer.Point coord))
    (texcoords : list (viewer.Vec2 coord)) (posIdx texIdx : list Z)
    (fi : nat) :
  Forall (fun i => (0 <= i < Z.of_nat (length positions))%Z) posIdx ->
  (fi < length posIdx)%nat ->
  viewer.vertexPoint (viewer.corner zero positions texcoords posIdx texIdx fi)
  ∈ positions.
Proof.
  intros Hp Hfi.
  destruct (lookup_lt_is_Some_2 posIdx fi Hfi) as [i Hi].
  pose proof (proj1 (Forall_lookup _ _) Hp fi i Hi) as Hr. cbn beta in Hr.
  destruct (lookup_lt_is_Some_2 positions (Z.to_nat i) ltac:(lia))
    as [p Hpt].
  unfold viewer.corner, viewer.vertexPoint. rewrite Hi. simpl default.
  rewrite Hpt. simpl default. cbn [viewer.x viewer.y viewer.z].
  destruct p as [a b c]. cbn [viewer.px viewer.py viewer.pz].
  eapply list_elem_of_lookup_2. exact Hpt.
Qed.

Lemma fan_declared
    (positions : list (viewer.Point coord))
    (texcoords : list (viewer.Vec2 coord)) (posIdx texIdx : list Z) :
  Forall (fun i => (0 <= i < Z.of_nat (length positions))%Z) posIdx ->
  Forall (fun vtx => viewer.vertexPoint vtx ∈ positions)
         (viewer.fan zero positions texcoords posIdx texIdx).
Proof.
  intros Hp. apply Forall_forall. intros vtx Hv.
  unfold viewer.fan in Hv.
  destruct (3 <=? length posIdx)%nat eqn:E;
    [apply Nat.leb_le in E|inversion Hv].
  apply list_elem_of_bind in Hv as (i & Hv & Hi).
  apply elem_of_seq in Hi.
  apply list_elem_of_fmap in Hv as (fi & -> & Hfi).
  apply corner_declared; [exact Hp|].
  repeat (apply elem_of_cons in Hfi as [->|Hfi]); try lia.
  inversion Hfi.
Qed.

Lemma loadLine_keeps
    (s s' : viewer.Loading coord) (line : viewer.ObjLine coord) :
  viewer.loadLine zero s line = Some s' ->
  (exists k, length (viewer.loadedTris s) = 3 * k)%nat ->
  Forall (fun vtx => viewer.vertexPoint vtx ∈ viewer.positions s)
         (viewer.loadedTris s) ->
  (exists k, length (viewer.loadedTris s') = 3 * k)%nat
  /\ Forall (fun vtx => viewer.vertexPoint vtx ∈ viewer.positions s')
            (viewer.loadedTris s').
Proof.
  intros Hs' [k Hk] Hd.
  destruct line as [a b c|a b|refs|]; cbn [viewer.loadLine] in Hs'.
  - inversion Hs'. cbn [viewer.loadedTris viewer.positions].
    split; [eauto|]. eapply Forall_impl; [exact Hd|].
    intros vtx Hv. apply elem_of_app. left. exact Hv.
  - inversion Hs'. cbn [viewer.loadedTris viewer.positions].
    split; [eauto|exact Hd].
  - destruct (viewer.faceRefs _ _ refs) as [idx|] eqn:Er; [|discriminate].
    cbn in Hs'. inversion Hs'. cbn [viewer.loadedTris viewer.positions].
    destruct (faceRefs_valid _ _ _ _ Er) as (_ & Hp & _).
    split.
    + exists (k + (length idx.1 - 2))%nat.
      rewrite length_app, length_fan, Hk. lia.
    + apply Forall_app. split; [exact Hd|].
      apply fan_declared. exact Hp.
  - inversion Hs'. subst s'. split; [eauto|exact Hd].
Qed.

Lemma loadLines_keeps (lines : list (viewer.ObjLine coord))
    (s : viewer.Loading coord) :
  viewer.loadLines zero lines = Some s ->
  (exists k, length (viewer.loadedTris s) = 3 * k)%nat
  /\ Forall (fun vtx => viewer.vertexPoint vtx ∈ viewer.positions s)
            (viewer.loadedTris s).
Proof.
  unfold viewer.loadLines. revert s.
  induction lines as [|line lines IH] using rev_ind; intros s Hs.
  - inversion Hs. split; [exists 0%nat; reflexivity|constructor].
  - rewrite foldl_app in Hs. cbn [foldl] in Hs.
    destruct (foldl _ (Some (viewer.mkLoading [] [] [])) lines) as [s0|];
      [|discriminate].
    cbn in Hs. destruct (IH s0 eq_refl) as [IH1 IH2].
    eapply loadLine_keeps; eassumption.
Qed.

Lemma loadLines_positions (lines : list (viewer.ObjLine coord))
    (s : viewer.Loading coord) (p : viewer.Point coord) :
  viewer.loadLines zero lines = Some s ->
  p ∈ viewer.positions s ->
  viewer.LineV (viewer.px p) (viewer.py p) (viewer.pz p) ∈ lines.
Proof.
  unfold viewer.loadLines. revert s.
  induction lines as [|line lines IH] using rev_ind; intros s Hs Hp.
  - inversion Hs. subst s. inversion Hp.
  - rewrite foldl_app in Hs. cbn [foldl] in Hs.
    destruct (foldl _ (Some (viewer.mkLoading [] [] [])) lines) as [s0|];
      [|discriminate].
    cbn in Hs. apply elem_of_app.
    destruct line as [a b c|a b|refs|]; cbn [viewer.loadLine] in Hs.
    + inversion Hs. subst s. cbn [viewer.positions] in Hp.
      apply elem_of_app in Hp as [Hp|Hp]; [left; eapply IH; eauto|].
      apply list_elem_of_singleton in Hp. subst p.
      right. constructor.
    + inversion Hs. subst s. left. eapply IH; eauto.
    + destruct (viewer.faceRefs _ _ refs) as [idx|]; [|discriminate].
      cbn in Hs. inversion Hs. subst s. left. eapply IH; eauto.
    + inversion Hs. subst s. left. eapply IH; eauto.
Qed.

Lemma faceRef_readable (npos ntex : nat) (idx : list Z * list Z)
    (r : viewer.FaceRef) :
  viewer.readableRef r -> is_Some (viewer.faceRef npos ntex idx r).
Proof.
  destruct r as [|idxStr vtStr]; [eauto|].
  intros [[v Hv] Ht]. unfold viewer.faceRef. rewrite Hv.
  destruct (viewer.outOfRange _ _); [eauto|].
  unfold viewer.texRef. destruct vtStr as [t|]; [|eauto].
  destruct Ht as [vt ->]. destruct (viewer.outOfRange _ _); eauto.
Qed.

Lemma faceRefs_readable (npos ntex : nat) (refs : list viewer.FaceRef) :
  Forall viewer.readableRef refs -> is_Some (viewer.faceRefs npos ntex refs).
Proof.
  unfold viewer.faceRefs.
  induction refs as [|r refs IH] using rev_ind; intros Hr; [eauto|].
  apply Forall_app in Hr as [Hr Hl]. apply Forall_inv in Hl.
  rewrite foldl_app. cbn [foldl].
  destruct (IH Hr) as [idx ->]. cbn. apply faceRef_readable, Hl.
Qed.

Lemma loadLines_readable (lines : list (viewer.ObjLine coord)) :
  Forall viewer.readableLine lines -> is_Some (viewer.loadLines zero lines).
Proof.
  unfold viewer.loadLines.
  induction lines as [|line lines IH] using rev_ind; intros Hr; [eauto|].
  apply Forall_app in Hr as [Hr Hl]. apply Forall_inv in Hl.
  rewrite foldl_app. cbn [foldl].
  destruct (IH Hr) as [s ->]. cbn.
  destruct line as [a b c|a b|refs|]; cbn [viewer.loadLine]; eauto.
  destruct (faceRefs_readable (length (viewer.positions s))
              (length (viewer.texcoords s)) refs Hl) as [idx ->].
  cbn. eauto.
Qed.


End ObjLoader.


(* ================================================================== *)
(** ** The order of binary64 values is transitive *)
(* ================================================================== *)

Section FloatTransitive.

Local Open Scope Z_scope.

Lemma SFleb_key (a b : spec_float) :
  a <> S754_nan -> b <> S754_nan ->
  (SFleb a b = true <-> SFkeyLe (SFkey a) (SFkey b)).
Proof.
  unfold SFleb, SFkeyLe.
  destruct a as [sa|sa| |sa ma ea], b as [sb|sb| |sb mb eb];
    intros Ha Hb; try congruence; cbn [SFcompare SFkey fst snd];
    try (destruct sa); try (destruct sb); cbn [fst snd];
    try (split; [intros _; lia | reflexivity]);
    try (split; [discriminate | lia]).
  - destruct (Z.compare_spec ea eb) as [E|E|E].
    + subst eb. change (Pos.compare_cont Eq ma mb) with (Pos.compare ma mb).
      destruct (Pos.compare_spec ma mb) as [F|F|F]; cbn [CompOpp];
        (split; [intros _; lia | reflexivity])
        || (split; [discriminate | lia]).
    + split; [discriminate | lia].
    + split; [intros _; lia | reflexivity].
  - destruct (Z.compare_spec ea eb) as [E|E|E].
    + subst eb. change (Pos.compare_cont Eq ma mb) with (Pos.compare ma mb).
      destruct (Pos.compare_spec ma mb) as [F|F|F];
        (split; [intros _; lia | reflexivity])
        || (split; [discriminate | lia]).
    + split; [intros _; lia | reflexivity].
    + split; [discriminate | lia].
Qed.

Lemma SFleb_numbers (a b : spec_float) :
  SFleb a b = true -> a <> S754_nan /\ b <> S754_nan.
Proof.
  unfold SFleb. intros H. split; intros ->; [discriminate|].
  destruct a; discriminate.
Qed.

Lemma SFleb_trans (a b c : spec_float) :
  SFleb a b = true -> SFleb b c = true -> SFleb a c = true.
Proof.
  intros Hab Hbc.
  destruct (SFleb_numbers _ _ Hab) as [Ha Hb].
  destruct (SFleb_numbers _ _ Hbc) as [_ Hc].
  apply SFleb_key in Hab; [|assumption..].
  apply SFleb_key in Hbc; [|assumption..].
  apply SFleb_key; [assumption..|].
  unfold SFkeyLe in *.
  destruct (SFkey a) as [[a1 a2] a3], (SFkey b) as [[b1 b2] b3],
           (SFkey c) as [[c1 c2] c3]. cbn [fst snd] in *. lia.
Qed.

Local Close Scope Z_scope.

Lemma leb_trans (a b c : float) :
  (a <=? b) = true -> (b <=? c) = true -> (a <=? c) = true.
Proof.
  rewrite !FloatAxioms.leb_spec. apply SFleb_trans.
Qed.

End FloatTransitive.

(* ================================================================== *)
(** ** The scale tool: the bounding box *)
(* ================================================================== *)

Section ScaleTool.

Lemma min_below (lo a : float) :
  is_nan lo = false ->
  is_nan (scaletool.min lo a) = false
  /\ (scaletool.min lo a <=? lo) = true
  /\ (is_nan a = false -> (scaletool.min lo a <=? a) = true).
Proof.
  intros Hlo. unfold scaletool.min. destruct (a <? lo) eqn:E.
  - destruct (ltb_not_nan _ _ E) as [Ha _].
    split; [exact Ha|]. split; [apply ltb_leb; exact E|].
    intros _. apply leb_refl. exact Ha.
  - split; [exact Hlo|]. split; [apply leb_refl; exact Hlo|].
    intros Ha. apply ltb_false_leb; assumption.
Qed.

Lemma max_above (hi a : float) :
  is_nan hi = false ->
  is_nan (scaletool.max hi a) = false
  /\ (hi <=? scaletool.max hi a) = true
  /\ (is_nan a = false -> (a <=? scaletool.max hi a) = true).
Proof.
  intros Hhi. unfold scaletool.max. destruct (hi <? a) eqn:E.
  - destruct (ltb_not_nan _ _ E) as [_ Ha].
    split; [exact Ha|]. split; [apply ltb_leb; exact E|].
    intros _. apply leb_refl. exact Ha.
  - split; [exact Hhi|]. split; [apply leb_refl; exact Hhi|].
    intros Ha. apply ltb_false_leb; assumption.
Qed.

(** One coordinate of the box after one more vertex: it still holds what it
    held, and it holds the new coordinate. *)
Lemma widen (lo hi a : float) :
  is_nan lo = false -> is_nan hi = false ->
  is_nan (scaletool.min lo a) = false
  /\ is_nan (scaletool.max hi a) = false
  /\ inBox (scaletool.min lo a) (scaletool.max hi a) a
  /\ forall w, inBox lo hi w ->
               inBox (scaletool.min lo a) (scaletool.max hi a) w.
Proof.
  intros Hlo Hhi.
  destruct (min_below lo a Hlo) as (Hn1 & Hl1 & Hl2).
  destruct (max_above hi a Hhi) as (Hn2 & Hh1 & Hh2).
  split; [exact Hn1|]. split; [exact Hn2|]. split.
  - intros Ha. split; auto.
  - intros w Hw Hnw. destruct (Hw Hnw) as [H1 H2]. split.
    + eapply leb_trans; eassumption.
    + eapply leb_trans; eassumption.
Qed.

Lemma scan_invariant (lines : list scaletool.Line) :
  let s := scaletool.scan lines in
  (is_nan (scaletool.x (scaletool.bbMin s)) = false
   /\ is_nan (scaletool.x (scaletool.bbMax s)) = false
   /\ is_nan (scaletool.y (scaletool.bbMin s)) = false
   /\ is_nan (scaletool.y (scaletool.bbMax s)) = false
   /\ is_nan (scaletool.z (scaletool.bbMin s)) = false
   /\ is_nan (scaletool.z (scaletool.bbMax s)) = false)
  /\ forall a b c, scaletool.LineV a b c ∈ lines ->
       scaletool.hasVertex s = true
       /\ inBox (scaletool.x (scaletool.bbMin s))
                (scaletool.x (scaletool.bbMax s)) a
       /\ inBox (scaletool.y (scaletool.bbMin s))
                (scaletool.y (scaletool.bbMax s)) b
       /\ inBox (scaletool.z (scaletool.bbMin s))
                (scaletool.z (scaletool.bbMax s)) c.
Proof.
  unfold scaletool.scan.
  induction lines as [|line lines IH] using rev_ind.
  - split; [repeat split; reflexivity|]. intros a b c H. inversion H.
  - rewrite foldl_app. cbn [foldl].
    set (s := foldl scaletool.scanLine scaletool.Scan_init lines) in *.
    cbv zeta in IH.
    destruct IH as ((Nx1 & Nx2 & Ny1 & Ny2 & Nz1 & Nz2) & IH).
    destruct line as [a' b' c'|]; cbn [scaletool.scanLine].
    + cbn [scaletool.bbMin scaletool.bbMax scaletool.hasVertex
           scaletool.x scaletool.y scaletool.z].
      destruct (widen _ _ a' Nx1 Nx2) as (Wx1 & Wx2 & Wx3 & Wx4).
      destruct (widen _ _ b' Ny1 Ny2) as (Wy1 & Wy2 & Wy3 & Wy4).
      destruct (widen _ _ c' Nz1 Nz2) as (Wz1 & Wz2 & Wz3 & Wz4).
      split; [repeat split; assumption|].
      intros a b c Hin. split; [reflexivity|].
      apply elem_of_app in Hin as [Hin|Hin].
      * destruct (IH a b c Hin) as (_ & Hx & Hy & Hz). auto.
      * apply list_elem_of_singleton in Hin. inversion Hin. subst. auto.
    + split; [repeat split; assumption|].
      intros a b c Hin.
      apply elem_of_app in Hin as [Hin|Hin]; [exact (IH a b c Hin)|].
      apply list_elem_of_singleton in Hin. discriminate.
Qed.

(** X18.  The bounding box the scale tool computes holds every vertex of
    the file: each coordinate of a ["v"] line that is a number lies
    between the corresponding coordinates of [bbMin] and [bbMax], the
    corners themselves are always numbers, and a file with a vertex line
    is never reported as having none. *)
Theorem bounding_box_holds_every_vertex
    (lines : list scaletool.Line) (a b c : float) :
  scaletool.LineV a b c ∈ lines ->
  let s := scaletool.scan lines in
  scaletool.hasVertex s = true
  /\ inBox (scaletool.x (scaletool.bbMin s))
           (scaletool.x (scaletool.bbMax s)) a
  /\ inBox (scaletool.y (scaletool.bbMin s))
           (scaletool.y (scaletool.bbMax s)) b
  /\ inBox (scaletool.z (scaletool.bbMin s))
           (scaletool.z (scaletool.bbMax s)) c
  /\ is_nan (scaletool.x (scaletool.bbMin s)) = false
  /\ is_nan (scaletool.x (scaletool.bbMax s)) = false
  /\ is_nan (scaletool.y (scaletool.bbMin s)) = false
  /\ is_nan (scaletool.y (scaletool.bbMax s)) = false
  /\ is_nan (scaletool.z (scaletool.bbMin s)) = false
  /\ is_nan (scaletool.z (scaletool.bbMax s)) = false.
Proof.
  intros Hin s. subst s.
  destruct (scan_invariant lines) as (Hn & Hall).
  destruct (Hall a b c Hin) as (Hv & Hx & Hy & Hz).
  split; [exact Hv|]. split; [exact Hx|]. split; [exact Hy|].
  split; [exact Hz|exact Hn].
Qed.

Lemma bounding_box_holds_every_vertex_witness :
  let lines := [scaletool.LineV 1 2 3; scaletool.LineOther;
                scaletool.LineV (-1) 0 7; scaletool.LineV 0.5 9 (-2)] in
  scaletool.LineV (-1) 0 7 ∈ lines
  /\ scaletool.bbMin (scaletool.scan lines) = scaletool.mkVec3 (-1) 0 (-2)
  /\ scaletool.bbMax (scaletool.scan lines) = scaletool.mkVec3 1 9 7
  /\ inBox (scaletool.x (scaletool.bbMin (scaletool.scan lines)))
           (scaletool.x (scaletool.bbMax (scaletool.scan lines))) (-1).
Proof.
  intros lines.
  assert (scaletool.LineV (-1) 0 7 ∈ lines) as Hin
    by (right; right; left).
  split; [exact Hin|]. split; [reflexivity|]. split; [reflexivity|].
  destruct (bounding_box_holds_every_vertex lines (-1) 0 7 Hin)
    as (_ & Hx & _).
  exact Hx.
Defined.

End ScaleTool.

(* ================================================================== *)
(** ** The scale tool: the printed scale *)
(* ================================================================== *)

Section ScaleToolOutput.

Local Open Scope Z_scope.

Lemma binary_round_aux_number (s : bool) (m e : Z) (l : location) :
  0 <= m -> binary_round_aux prec emax s m e l <> S754_nan.
Proof.
  intros Hm. unfold binary_round_aux.
  pose proof (shr_fexp_nonneg m e l Hm) as H1.
  destruct (shr_fexp prec emax m e l) as [mrs' e']. simpl in H1.
  pose proof (shr_fexp_nonneg _ e' loc_Exact
                (round_nearest_even_nonneg _ (loc_of_shr_record mrs') H1))
    as H2.
  destruct (shr_fexp prec emax _ e' loc_Exact) as [mrs'' e'']. simpl in H2.
  destruct (shr_m mrs'') as [|p|p]; try lia; try discriminate.
  destruct (e'' <=? emax - prec); discriminate.
Qed.

Lemma binary_normalize_number (m e : Z) (sz : bool) :
  binary_normalize prec emax m e sz <> S754_nan.
Proof.
  unfold binary_normalize, binary_round.
  destruct m as [|p|p]; [discriminate| |];
    destruct (shl_align _ _ _) as [mz ez];
    apply binary_round_aux_number; lia.
Qed.

Lemma SFsub_number (hi lo : spec_float) :
  hi <> S754_nan -> lo <> S754_nan ->
  hi <> S754_infinity true -> lo <> S754_infinity false ->
  SFsub prec emax hi lo <> S754_nan.
Proof.
  destruct hi as [sh|sh| |sh mh eh], lo as [sl|sl| |sl ml el];
    intros H1 H2 H3 H4; try congruence; cbn [SFsub];
    try discriminate;
    try (destruct sh, sl; congruence || discriminate).
  apply binary_normalize_number.
Qed.

Lemma SFdiv_positive_nonneg (sa : bool) (ma : positive) (ea : Z)
    (b : spec_float) :
  sa = false -> SFltb (S754_zero false) b = true ->
  SFnonneg (SFdiv prec emax (S754_finite sa ma ea) b).
Proof.
  intros -> Hb. unfold SFltb in Hb.
  destruct b as [sb|sb| |sb mb eb]; simpl in Hb; try discriminate;
    destruct sb; try discriminate; [reflexivity|].
  cbn [SFdiv xorb]. unfold SFdiv_core_binary.
  set (s := ea - eb - _).
  set (m' := match s with Z0 => Z.pos ma | Z.pos _ => Z.shiftl (Z.pos ma) s
             | Z.neg _ => 0 end).
  assert (0 <= m') as Hm'.
  { subst m'. destruct s; try lia. apply Z.shiftl_nonneg. lia. }
  pose proof (Z.div_pos m' (Z.pos mb) Hm' ltac:(lia)) as Hq.
  unfold Z.div in Hq.
  destruct (Z.div_eucl m' (Z.pos mb)) as [q r]. simpl in Hq.
  apply binary_round_aux_nonneg. exact Hq.
Qed.

Local Close Scope Z_scope.

Lemma sub_number (hi lo : float) :
  (scaletool.double_lowest <=? hi) = true ->
  (lo <=? scaletool.double_max) = true ->
  is_nan (hi - lo) = false.
Proof.
  intros Hh Hl. apply is_nan_false.
  rewrite FloatAxioms.sub_spec.
  destruct (leb_not_nan _ _ Hh) as [_ Nh].
  destruct (leb_not_nan _ _ Hl) as [Nl _].
  apply is_nan_false in Nh, Nl.
  apply SFsub_number; try assumption.
  - intros E. rewrite FloatAxioms.leb_spec, E in Hh. discriminate.
  - intros E. rewrite FloatAxioms.leb_spec, E in Hl. discriminate.
Qed.

Lemma max3_number (a b c : float) :
  is_nan a = false -> is_nan b = false -> is_nan c = false ->
  is_nan (scaletool.max3 a b c) = false.
Proof.
  intros Ha Hb Hc. unfold scaletool.max3.
  destruct (a <? b); destruct (_ <? c); assumption.
Qed.

Lemma scan_within_double (lines : list scaletool.Line) :
  let s := scaletool.scan lines in
  ((scaletool.x (scaletool.bbMin s) <=? scaletool.double_max) = true
   /\ (scaletool.double_lowest <=? scaletool.x (scaletool.bbMax s)) = true)
  /\ ((scaletool.y (scaletool.bbMin s) <=? scaletool.double_max) = true
      /\ (scaletool.double_lowest <=? scaletool.y (scaletool.bbMax s)) = true)
  /\ ((scaletool.z (scaletool.bbMin s) <=? scaletool.double_max) = true
      /\ (scaletool.double_lowest <=? scaletool.z (scaletool.bbMax s)) = true).
Proof.
  unfold scaletool.scan.
  induction lines as [|line lines IH] using rev_ind.
  - repeat split; reflexivity.
  - rewrite foldl_app. cbn [foldl].
    set (s := foldl scaletool.scanLine scaletool.Scan_init lines) in *.
    cbv zeta in IH. destruct IH as ((X1 & X2) & (Y1 & Y2) & (Z1 & Z2)).
    destruct line as [a b c|]; cbn [scaletool.scanLine];
      [|repeat split; assumption].
    cbn [scaletool.bbMin scaletool.bbMax scaletool.x scaletool.y
         scaletool.z].
    assert (forall lo hi v,
              (lo <=? scaletool.double_max) = true ->
              (scaletool.double_lowest <=? hi) = true ->
              (scaletool.min lo v <=? scaletool.double_max) = true
              /\ (scaletool.double_lowest <=? scaletool.max hi v) = true)
      as Hstep.
    { intros lo hi v Hlo Hhi.
      destruct (leb_not_nan _ _ Hlo) as [Nlo _].
      destruct (leb_not_nan _ _ Hhi) as [_ Nhi].
      destruct (min_below lo v Nlo) as (_ & Hm & _).
      destruct (max_above hi v Nhi) as (_ & HM & _).
      split; eapply leb_trans; eassumption. }
    split; [|split]; apply Hstep; assumption.
Qed.

(** X19.  When the scale tool exits with status 0, the scale it prints is
    a number and is not negative, whatever the vertex lines hold. *)
Theorem printed_scale_is_nonnegative
    (argc : nat) (file : option (list scaletool.Line))
    (scale : float) (center : scaletool.Vec3) :
  scaletool.main argc file = (0%Z, Some (scale, center)) ->
  (0 <=? scale) = true.
Proof.
  unfold scaletool.main.
  destruct (argc <? 2)%nat; [discriminate|].
  destruct file as [lines|]; [|discriminate].
  destruct (negb _); [discriminate|].
  destruct (scan_within_double lines)
    as ((X1 & X2) & (Y1 & Y2) & (Z1 & Z2)).
  set (maxDim := scaletool.max3 _ _ _).
  assert (is_nan maxDim = false) as Hn
    by (apply max3_number; apply sub_number; assumption).
  destruct (maxDim <=? 0.0) eqn:E; [discriminate|].
  intros H. inversion H. subst scale.
  assert ((0 <? maxDim) = true) as Hpos
    by (apply leb_false_ltb; [exact Hn|reflexivity|exact E]).
  rewrite FloatAxioms.leb_spec, FloatAxioms.div_spec, Prim2SF_zero.
  rewrite FloatAxioms.ltb_spec, Prim2SF_zero in Hpos.
  change (Prim2SF 0.19) with (S754_finite false 6845471433603154 (-55)).
  apply SFdiv_positive_nonneg; [reflexivity|exact Hpos].
Qed.

Lemma printed_scale_is_nonnegative_witness :
  let lines := [scaletool.LineV 1 2 3; scaletool.LineV (-1) 0 7] in
  scaletool.main 2 (Some lines)
  = (0%Z, Some (0.047500000000000001, scaletool.mkVec3 0 1 5))
  /\ (0 <=? 0.047500000000000001) = true.
Proof.
  intros lines.
  assert (scaletool.main 2 (Some lines)
          = (0%Z, Some (0.047500000000000001, scaletool.mkVec3 0 1 5)))
    as Hrun by (vm_compute; reflexivity).
  split; [exact Hrun|].
  apply (printed_scale_is_nonnegative 2 (Some lines) _ _ Hrun).
Defined.

End ScaleToolOutput.
